(** * browserbox-imap.js: the IMAP client transport core

    A shallow embedding of [src/browserbox-imap.js] and the properties of
    its framer, command queue, dispatcher and error funnel.

    Text is modelled as lists of code units ([list ascii]): the socket
    delivers byte arrays and [mimefuncs.fromTypedArray] turns every byte into
    one character, so decoding commutes with concatenating chunks. *)

From Stdlib Require Import ZArith NArith Ascii String List Lia Bool.
From stdpp Require Import base option list gmap strings pretty.

Set Default Proof Using "Type".
#[local] Set Warnings "-register-all".

(* ===================================================================== *)
(** ** The line/literal framer ([_onData]) *)
(* ===================================================================== *)

Module Framer.

Abbreviation text := (list ascii).

Definition CR : ascii := "013"%char.
Definition LF : ascii := "010"%char.

(** [\d] of a JavaScript regular expression: the ten ASCII digits. *)
Definition is_digit (c : ascii) : bool :=
  ((48 <=? N_of_ascii c) && (N_of_ascii c <=? 57))%N.

(** Greedy [\d*] at the head of [s]: how many digits, and what follows.
    No shorter run can be followed by [+] or [}], so the regular
    expression never backtracks into the run. *)
Fixpoint skip_digits (s : text) : nat * text :=
  match s with
  | c :: t =>
      if is_digit c then let '(n, r) := skip_digits t in (S n, r) else (0, s)
  | [] => (0, [])
  end.

(** [\r?\n] at the head of [s]: the length of what it matches. *)
Definition eol_here (s : text) : option nat :=
  match s with
  | c :: t =>
      if Ascii.eqb c LF then Some 1
      else if Ascii.eqb c CR then
        match t with
        | d :: _ => if Ascii.eqb d LF then Some 2 else None
        | [] => None
        end
      else None
  | [] => None
  end.

(** [\+?] at the head of [s]. *)
Definition skip_plus (s : text) : nat * text :=
  match s with
  | c :: t => if Ascii.eqb c "+" then (1, t) else (0, s)
  | [] => (0, [])
  end.

(** [COMMAND_REGEX = /(\{(\d+)(\+)?\})?\r?\n/] anchored at the head of [s]:
    the length of [match[0]] and capture group 2 (the digits), if any.
    When [s] starts with an opening brace only the alternative with the
    group can match, otherwise only the one without it. *)
Definition match_here (s : text) : option (nat * option text) :=
  match s with
  | c :: t =>
      if Ascii.eqb c "{" then
        let '(n, r) := skip_digits t in
        match n with
        | 0 => None
        | S _ =>
            let '(p, r1) := skip_plus r in
            match r1 with
            | d :: r2 =>
                if Ascii.eqb d "}" then
                  match eol_here r2 with
                  | Some e => Some (1 + n + p + 1 + e, Some (take n t))
                  | None => None
                  end
                else None
            | [] => None
            end
        end
      else option_map (fun e => (e, None)) (eol_here s)
  | [] => None
  end.

(** The result of [String.prototype.match] with [COMMAND_REGEX]. *)
Record regex_match := {
  index : nat;               (* match.index *)
  match0 : nat;              (* match[0].length *)
  match2 : option text       (* match[2], [None] for undefined *)
}.

(** [s.match(COMMAND_REGEX)]: the leftmost position where the expression
    matches. *)
Fixpoint regex_exec (s : text) : option regex_match :=
  match match_here s with
  | Some (n, g) => Some {| index := 0; match0 := n; match2 := g |}
  | None =>
      match s with
      | _ :: t =>
          match regex_exec t with
          | Some m =>
              Some {| index := S (index m); match0 := match0 m;
                      match2 := match2 m |}
          | None => None
          end
      | [] => None
      end
  end.

(** [Number(match[2])] on a string of decimal digits: the number the digits
    write. That is the value in the code up to [2^53]; above it the code
    rounds to the nearest double. Such a count exceeds the length of every
    JavaScript string, so the framer waits for ever on it in the code and
    here alike; a statement about the number itself asks for a value within
    the bound. *)
Definition digit_value (c : ascii) : N := (N_of_ascii c - 48)%N.

Definition Number_of_digits (ds : text) : N :=
  fold_left (fun acc c => (acc * 10 + digit_value c)%N) ds 0%N.

(** The three fields of the client that [_onData] reads and writes. *)
Record framer := {
  _incomingBuffer : text;
  _command : text;
  _literalRemaining : N
}.

(** The values the constructor gives them. *)
Definition new_framer : framer :=
  {| _incomingBuffer := []; _command := []; _literalRemaining := 0 |}.

(** One evaluation of the [while] condition and body. *)
Inductive iteration :=
  | Exit                                     (* no match, or [return] *)
  | Next (st : framer) (emitted : option text).

Definition iterate (st : framer) : iteration :=
  let buf := _incomingBuffer st in
  let lr := _literalRemaining st in
  match regex_exec buf with
  | None => Exit
  | Some m =>
      if ((0 <? lr) && (N.of_nat (length buf) <? lr))%N then Exit
      else if (0 <? lr)%N then
        Next {| _incomingBuffer := drop (N.to_nat lr) buf;
                _command := _command st ++ take (N.to_nat lr) buf;
                _literalRemaining := 0 |} None
      else
        match match2 m with
        | Some ds =>
            Next {| _incomingBuffer := drop (index m + match0 m) buf;
                    _command := _command st ++ take (index m + match0 m) buf;
                    _literalRemaining := Number_of_digits ds |} None
        | None =>
            Next {| _incomingBuffer := drop (index m + match0 m) buf;
                    _command := [];
                    _literalRemaining := lr |}
                 (Some (_command st ++ take (index m) buf))
        end
  end.

(** The [while] loop as it runs when every [_addToServerQueue] call
    returns: what a call that throws does to it is in the client's
    [onData_loop], which makes the calls. Every iteration that does not
    leave the loop removes at least one character from the buffer, so
    [length buffer] iterations are enough ([loop_complete] below). The
    first component lists the arguments of the successive
    [_addToServerQueue] calls. *)
Fixpoint loop (fuel : nat) (st : framer) : list text * framer :=
  match fuel with
  | 0 => ([], st)
  | S k =>
      match iterate st with
      | Exit => ([], st)
      | Next st' e =>
          let '(out, fin) := loop k st' in
          (match e with Some r => r :: out | None => out end, fin)
      end
  end.

Definition append_chunk (st : framer) (chunk : text) : framer :=
  {| _incomingBuffer := _incomingBuffer st ++ chunk;
     _command := _command st;
     _literalRemaining := _literalRemaining st |}.

(** [_onData] on the three fields, with the same proviso. *)
Definition _onData (st : framer) (chunk : text) : list text * framer :=
  let st1 := append_chunk st chunk in
  loop (length (_incomingBuffer st1)) st1.

(** Successive [_onData] calls, one per chunk. *)
Fixpoint feed (st : framer) (chunks : list text) : list text * framer :=
  match chunks with
  | [] => ([], st)
  | c :: cs =>
      let '(o1, st1) := _onData st c in
      let '(o2, st2) := feed st1 cs in
      (o1 ++ o2, st2)
  end.

Definition txt (s : string) : text := list_ascii_of_string s.

Definition brace : ascii := "{"%char.

(** The two line terminators the expression accepts. *)
Definition is_terminator (term : text) : Prop := term = [LF] ∨ term = [CR; LF].


End Framer.
(* ===================================================================== *)
(** ** JavaScript values *)
(* ===================================================================== *)

Module JS.

(** Functions are opaque, except the completion callback that
    [enqueueCommand] builds around the [resolve] and [reject] of the promise
    it returns. *)
Inductive func :=
  | FCompletion (p : nat)    (* closed over the promise number [p] *)
  | FContinue                (* the continue callback of [_processServerQueue] *)
  | FUser (id : nat).        (* a function supplied by the caller *)

(** The values the client handles. Numbers are the integers the code
    computes with (ports, counters, lengths, sequence numbers). Objects are
    maps from property names to values, with value semantics. *)
Inductive val :=
  | VUndefined
  | VNull
  | VBool (b : bool)
  | VNumber (n : Z)
  | VString (s : string)
  | VArray (l : list val)
  | VObject (o : gmap string val)
  | VFunction (f : func)
  | VError (message : string) (props : gmap string val).

(** An expression either has a value or throws one. *)
Inductive res (A : Type) :=
  | Ret (a : A)
  | Thr (e : val).
Arguments Ret {A} a.
Arguments Thr {A} e.

(** The engine's own [TypeError]; its message is implementation-defined. *)
Definition TypeError : val := VError "TypeError" ∅.

Definition res_bind {A B} (r : res A) (k : A → res B) : res B :=
  match r with
  | Ret a => k a
  | Thr e => Thr e
  end.

Declare Scope res_scope.
Delimit Scope res_scope with res.
Notation "'let?' x ':=' r 'in' k" := (res_bind r (fun x => k))
  (at level 10, x name, k at level 200) : res_scope.
Notation "'let?' '(' x ',' y ')' ':=' r 'in' k" :=
  (res_bind r (fun '(x, y) => k))
  (at level 10, x name, y name, k at level 200) : res_scope.

(** [ToBoolean]. *)
Definition truthy (v : val) : bool :=
  match v with
  | VUndefined | VNull => false
  | VBool b => b
  | VNumber n => negb (n =? 0)%Z
  | VString s => negb (String.eqb s "")
  | VArray _ | VObject _ | VFunction _ | VError _ _ => true
  end.

(** [a || b] and [a && b] when evaluating [b] cannot throw. *)
Definition js_or (a b : val) : val := if truthy a then a else b.
Definition js_and (a b : val) : val := if truthy a then b else a.

Definition typeof (v : val) : string :=
  match v with
  | VUndefined => "undefined"
  | VNull => "object"
  | VBool _ => "boolean"
  | VNumber _ => "number"
  | VString _ => "string"
  | VArray _ | VObject _ | VError _ _ => "object"
  | VFunction _ => "function"
  end.

(** [a === b]. Two objects are equal only when they are the same object;
    wherever the source compares with [===], one side is a string or a
    number, or the two sides were created apart, so objects never compare
    equal. *)
Definition strict_eq (a b : val) : bool :=
  match a, b with
  | VUndefined, VUndefined | VNull, VNull => true
  | VBool x, VBool y => Bool.eqb x y
  | VNumber x, VNumber y => (x =? y)%Z
  | VString x, VString y => String.eqb x y
  | _, _ => false
  end.

Fixpoint join_with (sep : string) (l : list string) : string :=
  match l with
  | [] => ""
  | [s] => s
  | s :: t => s +:+ sep +:+ join_with sep t
  end.

(** [ToString], which is also what [toString()] returns on a value that is
    neither [null] nor [undefined]. The source text [toString] gives for a
    function is not modelled, and the [name] of an error is [Error]. *)
Fixpoint ToString (v : val) : string :=
  match v with
  | VUndefined => "undefined"
  | VNull => "null"
  | VBool true => "true"
  | VBool false => "false"
  | VNumber n => pretty n
  | VString s => s
  | VArray l =>
      join_with ","
        ((fix elements (l : list val) : list string :=
            match l with
            | [] => []
            | x :: t =>
                match x with
                | VUndefined | VNull => ""
                | _ => ToString x
                end :: elements t
            end) l)
  | VObject _ => "[object Object]"
  | VFunction _ => "function"
  | VError m _ => if String.eqb m "" then "Error" else "Error: " +:+ m
  end.

(** [v.toString()]. *)
Definition toString (v : val) : res string :=
  match v with
  | VUndefined | VNull => Thr TypeError
  | _ => Ret (ToString v)
  end.

(** [new Error(message)]. *)
Definition new_Error (message : val) : val :=
  match message with
  | VUndefined => VError "" ∅
  | _ => VError (ToString message) ∅
  end.

(** [this.isError]: [Object.prototype.toString.call(value)] ends in
    [Error]] for error objects only. *)
Definition isError (value : val) : bool :=
  match value with
  | VError _ _ => true
  | _ => false
  end.

(** Reading [v[k]]. Members inherited from a prototype are not included:
    the source reads none of them this way. *)
Definition get (v : val) (k : string) : res val :=
  match v with
  | VUndefined | VNull => Thr TypeError
  | VObject o => Ret (default VUndefined (o !! k))
  | VError m props =>
      Ret (if String.eqb k "message" then VString m
           else default VUndefined (props !! k))
  | VArray l =>
      Ret (if String.eqb k "length" then VNumber (Z.of_nat (length l))
           else VUndefined)
  | VString s =>
      Ret (if String.eqb k "length" then VNumber (Z.of_nat (String.length s))
           else VUndefined)
  | VBool _ | VNumber _ | VFunction _ => Ret VUndefined
  end.

(** Reading [v[i]] for a number [i]. *)
Definition get_index (v : val) (i : nat) : res val :=
  match v with
  | VArray l => Ret (default VUndefined (l !! i))
  | VString s =>
      Ret (match list_ascii_of_string s !! i with
           | Some c => VString (String c "")
           | None => VUndefined
           end)
  | _ => get v (pretty i)
  end.

(** [v && v[k]]. *)
Definition and_get (v : val) (k : string) : res val :=
  if truthy v then get v k else Ret v.

(** [Object.keys(v)] with the values: own enumerable properties. *)
Definition entries (v : val) : list (string * val) :=
  match v with
  | VObject o => map_to_list o
  | VError _ props => map_to_list props
  | VArray l => imap (λ i x, (pretty i, x)) l
  | VString s =>
      imap (λ i c, (pretty i, VString (String c ""))) (list_ascii_of_string s)
  | _ => []
  end.

(** [__proto__] names the prototype of an object, not a property of its
    own. *)
Definition is_proto (k : string) : bool := String.eqb k "__proto__".

(** The assignment [v[k] = x] in strict mode, giving the changed object.
    Own properties added to arrays and functions are not tracked. An
    assignment to [__proto__] makes no property: it replaces the prototype
    when [x] is an object or [null] and does nothing otherwise; objects
    here are their own properties, so either way the object is as it
    was. *)
Definition set (v : val) (k : string) (x : val) : res val :=
  match v with
  | VUndefined | VNull | VBool _ | VNumber _ | VString _ => Thr TypeError
  | VObject o => Ret (if is_proto k then v else VObject (<[k := x]> o))
  | VError m props =>
      Ret (if is_proto k then v else VError m (<[k := x]> props))
  | VArray _ | VFunction _ => Ret v
  end.

(** [k in v], for the keys the source asks about: [useSecureTransport] and
    upper-cased command names; none of them names a member of
    [Object.prototype]. *)
Definition js_in (k : string) (v : val) : res bool :=
  match v with
  | VObject o => Ret (bool_decide (is_Some (o !! k)))
  | VError _ props => Ret (bool_decide (is_Some (props !! k)))
  | VArray _ | VFunction _ => Ret false
  | VUndefined | VNull | VBool _ | VNumber _ | VString _ => Thr TypeError
  end.

(** [Object.keys(v).length]. *)
Definition keys_length (v : val) : res nat :=
  match v with
  | VUndefined | VNull => Thr TypeError
  | _ => Ret (length (entries v))
  end.

(** [v.shift()]: the removed element and the array left. *)
Definition shift (v : val) : res (val * val) :=
  match v with
  | VArray [] => Ret (VUndefined, VArray [])
  | VArray (x :: t) => Ret (x, VArray t)
  | _ => Thr TypeError
  end.

(** [v.push(x)], giving the changed array. *)
Definition push (v : val) (x : val) : res val :=
  match v with
  | VArray l => Ret (VArray (l ++ [x]))
  | _ => Thr TypeError
  end.

(** [v.map(f)]. *)
Fixpoint map_res (f : val → res val) (l : list val) : res (list val) :=
  match l with
  | [] => Ret []
  | x :: t =>
      match f x with
      | Ret y =>
          match map_res f t with
          | Ret ys => Ret (y :: ys)
          | Thr e => Thr e
          end
      | Thr e => Thr e
      end
  end.

Definition array_map (v : val) (f : val → res val) : res val :=
  match v with
  | VArray l =>
      match map_res f l with
      | Ret ys => Ret (VArray ys)
      | Thr e => Thr e
      end
  | _ => Thr TypeError
  end.

(** *** Strings *)

Definition map_string (f : ascii → ascii) (s : string) : string :=
  string_of_list_ascii (map f (list_ascii_of_string s)).

(** [toUpperCase] and [toLowerCase] on the code units below 256. They are
    those of the code on ASCII text, and on every code unit below 256 but
    three: the upper case of 181 and of 255 lies above 255, and that of 223
    is the two letters [SS]; here the three stay as they are. The command
    names and response codes of IMAP are ASCII; a statement about a name
    that the caller chooses asks for ASCII text. *)
Definition upper_char (c : ascii) : ascii :=
  let n := N_of_ascii c in
  if ((97 <=? n) && (n <=? 122))%N then ascii_of_N (n - 32)
  else if ((224 <=? n) && (n <=? 254) && negb (n =? 247))%N
       then ascii_of_N (n - 32)
  else c.

Definition lower_char (c : ascii) : ascii :=
  let n := N_of_ascii c in
  if ((65 <=? n) && (n <=? 90))%N then ascii_of_N (n + 32)
  else if ((192 <=? n) && (n <=? 222) && negb (n =? 215))%N
       then ascii_of_N (n + 32)
  else c.

Definition toUpperCase (s : string) : string := map_string upper_char s.
Definition toLowerCase (s : string) : string := map_string lower_char s.

(** White space and line terminators among the code units below 256. *)
Definition is_space (c : ascii) : bool :=
  let n := N_of_ascii c in
  ((9 <=? n) && (n <=? 13) || (n =? 32) || (n =? 160))%N.

Fixpoint trim_start (l : list ascii) : list ascii :=
  match l with
  | c :: t => if is_space c then trim_start t else l
  | [] => []
  end.

Definition trim (s : string) : string :=
  string_of_list_ascii
    (rev (trim_start (rev (trim_start (list_ascii_of_string s))))).

(** [v.toUpperCase()] and [v.toLowerCase()]: only strings have them. *)
Definition call_toUpperCase (v : val) : res string :=
  match v with
  | VString s => Ret (toUpperCase s)
  | _ => Thr TypeError
  end.

Definition call_toLowerCase (v : val) : res string :=
  match v with
  | VString s => Ret (toLowerCase s)
  | _ => Thr TypeError
  end.

(** [/^\d+$/.test(v)]. *)
Definition all_digits (v : val) : bool :=
  let l := list_ascii_of_string (ToString v) in
  negb (Nat.eqb (length l) 0) && forallb Framer.is_digit l.

(** [Number(s)] on a string of decimal digits: the number the digits write.
    That is the value in the code up to [2^53]; above it the code rounds to
    the nearest double, and a statement about the number asks for a value
    within that bound. *)
Definition Number_of_string (s : string) : Z :=
  Z.of_N (Framer.Number_of_digits (list_ascii_of_string s)).

(** [/^\+/.test(s)]. *)
Definition starts_with_plus (s : string) : bool :=
  match s with
  | String c _ => Ascii.eqb c "+"
  | EmptyString => false
  end.

(** [s.substr(n)]. *)
Definition substr_from (n : nat) (s : string) : string :=
  string_of_list_ascii (drop n (list_ascii_of_string s)).

End JS.

(* ===================================================================== *)
(** ** The client *)
(* ===================================================================== *)

Module Client.
Import JS.
#[local] Open Scope res_scope.

(** *** The world around the client *)

Inductive promise :=
  | Pending
  | Resolved (value : val)
  | Rejected (reason : val).

(** What is chained on the promise one [close()] call returns. *)
Inductive close_then :=
  | ThenCaller (p : nat)       (* [close()] called from outside: promise [p] *)
  | ThenOnError (evt : val)    (* [_onError]: deliver [evt] to [onerror] *)
  | ThenLogout (p : nat).      (* [logout]: resolve its promise [p] *)

(** The closures the client installs on the socket. *)
Inductive handler :=
  | Hnoop                      (* [() => {}], or never set *)
  | Hunexpected_close          (* [connect], onclose *)
  | HonData                    (* [connect], ondata *)
  | Hconnect_failed (p : nat)  (* [connect], onerror until the socket opens *)
  | Honopen (p : nat)          (* [connect], onopen *)
  | HonError                   (* [(e) => this._onError(e)] *)
  | HtearDown (k : close_then) (* [close], the [tearDown] of that call *)
  | Hlogout (p : nat)          (* [logout], onclose and onerror *)
  | Hinflate.                  (* [enableCompression], ondata *)

Inductive ready_state := Connecting | Open | Closing | Closed.

(** Modelled from the spec: the TCP socket of the [tcp-socket] package,
    which is not part of this repository. Section 6 gives its interface:
    [open], [send], [close], the inbound-data, open, close and error
    callbacks, and [readyState]. *)
Record tcp_socket := {
  readyState : ready_state;
  onopen : handler;
  onclose : handler;
  onerror : handler;
  ondata : handler
}.

Inductive effect :=
  | Esend (deflate : bool) (str : string)   (* [send(str)], through deflate or not *)
  | Esocket_close                           (* [socket.close()] *)
  | Esocket_upgrade                         (* [socket.upgradeToSecure()] *)
  | Einflate (data : list ascii)            (* bytes handed to inflate *)
  | Eonerror (e : val)                      (* the [onerror] sink *)
  | Eonready                                (* the [onready] sink *)
  | Eonidle                                 (* the [onidle] sink *)
  | Ecall (id : nat) (args : list val)      (* a caller's function is called *)
  | Econsole_error                          (* [console.error] *)
  | Eunhandled (e : val).                   (* a promise reaction threw *)

(** *** The state *)

Record client := {
  options : gmap string val;   (* this.options *)
  port : val;
  host : val;
  secureMode : bool;
  _serverQueue : list string;   (* framed responses waiting for the dispatcher *)
  _processingServerData : bool;
  _connectionReady : bool;
  _globalAcceptUntagged : gmap string val;   (* handlers set with setHandler *)
  _clientQueue : list val;   (* command records waiting to be sent *)
  _canSend : bool;
  _tagCounter : N;
  _currentCommand : val;   (* a command record, or false *)
  _idleTimer : bool;   (* an idle timer is pending *)
  _socketTimeoutTimer : bool;   (* a socket timeout is pending *)
  compressed : bool;
  framer : Framer.framer;   (* _incomingBuffer, _command, _literalRemaining *)
  socket : option tcp_socket;   (* undefined before connect *)
  _socketOnData : option handler;
  promises : list promise;   (* every promise made so far, by number *)
  timers : nat;   (* zero-delay timers pending for _processServerQueue *)
  trace : list effect   (* what the client did to the outside, oldest first *)
}.

(** One function per field that is assigned after construction. *)

Definition set_secureMode (x : bool) (c : client) : client :=
  {| options := options c; port := port c; host := host c; secureMode := x;
     _serverQueue := _serverQueue c;
     _processingServerData := _processingServerData c;
     _connectionReady := _connectionReady c;
     _globalAcceptUntagged := _globalAcceptUntagged c;
     _clientQueue := _clientQueue c; _canSend := _canSend c;
     _tagCounter := _tagCounter c; _currentCommand := _currentCommand c;
     _idleTimer := _idleTimer c;
     _socketTimeoutTimer := _socketTimeoutTimer c;
     compressed := compressed c; framer := framer c; socket := socket c;
     _socketOnData := _socketOnData c; promises := promises c;
     timers := timers c; trace := trace c |}.

Definition set_serverQueue (x : list string) (c : client) : client :=
  {| options := options c; port := port c; host := host c;
     secureMode := secureMode c; _serverQueue := x;
     _processingServerData := _processingServerData c;
     _connectionReady := _connectionReady c;
     _globalAcceptUntagged := _globalAcceptUntagged c;
     _clientQueue := _clientQueue c; _canSend := _canSend c;
     _tagCounter := _tagCounter c; _currentCommand := _currentCommand c;
     _idleTimer := _idleTimer c;
     _socketTimeoutTimer := _socketTimeoutTimer c;
     compressed := compressed c; framer := framer c; socket := socket c;
     _socketOnData := _socketOnData c; promises := promises c;
     timers := timers c; trace := trace c |}.

Definition set_processingServerData (x : bool) (c : client) : client :=
  {| options := options c; port := port c; host := host c;
     secureMode := secureMode c; _serverQueue := _serverQueue c;
     _processingServerData := x; _connectionReady := _connectionReady c;
     _globalAcceptUntagged := _globalAcceptUntagged c;
     _clientQueue := _clientQueue c; _canSend := _canSend c;
     _tagCounter := _tagCounter c; _currentCommand := _currentCommand c;
     _idleTimer := _idleTimer c;
     _socketTimeoutTimer := _socketTimeoutTimer c;
     compressed := compressed c; framer := framer c; socket := socket c;
     _socketOnData := _socketOnData c; promises := promises c;
     timers := timers c; trace := trace c |}.

Definition set_connectionReady (x : bool) (c : client) : client :=
  {| options := options c; port := port c; host := host c;
     secureMode := secureMode c; _serverQueue := _serverQueue c;
     _processingServerData := _processingServerData c;
     _connectionReady := x;
     _globalAcceptUntagged := _globalAcceptUntagged c;
     _clientQueue := _clientQueue c; _canSend := _canSend c;
     _tagCounter := _tagCounter c; _currentCommand := _currentCommand c;
     _idleTimer := _idleTimer c;
     _socketTimeoutTimer := _socketTimeoutTimer c;
     compressed := compressed c; framer := framer c; socket := socket c;
     _socketOnData := _socketOnData c; promises := promises c;
     timers := timers c; trace := trace c |}.

Definition set_globalAcceptUntagged (x : gmap string val) (c : client) : client :=
  {| options := options c; port := port c; host := host c;
     secureMode := secureMode c; _serverQueue := _serverQueue c;
     _processingServerData := _processingServerData c;
     _connectionReady := _connectionReady c; _globalAcceptUntagged := x;
     _clientQueue := _clientQueue c; _canSend := _canSend c;
     _tagCounter := _tagCounter c; _currentCommand := _currentCommand c;
     _idleTimer := _idleTimer c;
     _socketTimeoutTimer := _socketTimeoutTimer c;
     compressed := compressed c; framer := framer c; socket := socket c;
     _socketOnData := _socketOnData c; promises := promises c;
     timers := timers c; trace := trace c |}.

Definition set_clientQueue (x : list val) (c : client) : client :=
  {| options := options c; port := port c; host := host c;
     secureMode := secureMode c; _serverQueue := _serverQueue c;
     _processingServerData := _processingServerData c;
     _connectionReady := _connectionReady c;
     _globalAcceptUntagged := _globalAcceptUntagged c; _clientQueue := x;
     _canSend := _canSend c; _tagCounter := _tagCounter c;
     _currentCommand := _currentCommand c; _idleTimer := _idleTimer c;
     _socketTimeoutTimer := _socketTimeoutTimer c;
     compressed := compressed c; framer := framer c; socket := socket c;
     _socketOnData := _socketOnData c; promises := promises c;
     timers := timers c; trace := trace c |}.

Definition set_canSend (x : bool) (c : client) : client :=
  {| options := options c; port := port c; host := host c;
     secureMode := secureMode c; _serverQueue := _serverQueue c;
     _processingServerData := _processingServerData c;
     _connectionReady := _connectionReady c;
     _globalAcceptUntagged := _globalAcceptUntagged c;
     _clientQueue := _clientQueue c; _canSend := x;
     _tagCounter := _tagCounter c; _currentCommand := _currentCommand c;
     _idleTimer := _idleTimer c;
     _socketTimeoutTimer := _socketTimeoutTimer c;
     compressed := compressed c; framer := framer c; socket := socket c;
     _socketOnData := _socketOnData c; promises := promises c;
     timers := timers c; trace := trace c |}.

Definition set_tagCounter (x : N) (c : client) : client :=
  {| options := options c; port := port c; host := host c;
     secureMode := secureMode c; _serverQueue := _serverQueue c;
     _processingServerData := _processingServerData c;
     _connectionReady := _connectionReady c;
     _globalAcceptUntagged := _globalAcceptUntagged c;
     _clientQueue := _clientQueue c; _canSend := _canSend c;
     _tagCounter := x; _currentCommand := _currentCommand c;
     _idleTimer := _idleTimer c;
     _socketTimeoutTimer := _socketTimeoutTimer c;
     compressed := compressed c; framer := framer c; socket := socket c;
     _socketOnData := _socketOnData c; promises := promises c;
     timers := timers c; trace := trace c |}.

Definition set_currentCommand (x : val) (c : client) : client :=
  {| options := options c; port := port c; host := host c;
     secureMode := secureMode c; _serverQueue := _serverQueue c;
     _processingServerData := _processingServerData c;
     _connectionReady := _connectionReady c;
     _globalAcceptUntagged := _globalAcceptUntagged c;
     _clientQueue := _clientQueue c; _canSend := _canSend c;
     _tagCounter := _tagCounter c; _currentCommand := x;
     _idleTimer := _idleTimer c;
     _socketTimeoutTimer := _socketTimeoutTimer c;
     compressed := compressed c; framer := framer c; socket := socket c;
     _socketOnData := _socketOnData c; promises := promises c;
     timers := timers c; trace := trace c |}.

Definition set_idleTimer (x : bool) (c : client) : client :=
  {| options := options c; port := port c; host := host c;
     secureMode := secureMode c; _serverQueue := _serverQueue c;
     _processingServerData := _processingServerData c;
     _connectionReady := _connectionReady c;
     _globalAcceptUntagged := _globalAcceptUntagged c;
     _clientQueue := _clientQueue c; _canSend := _canSend c;
     _tagCounter := _tagCounter c; _currentCommand := _currentCommand c;
     _idleTimer := x; _socketTimeoutTimer := _socketTimeoutTimer c;
     compressed := compressed c; framer := framer c; socket := socket c;
     _socketOnData := _socketOnData c; promises := promises c;
     timers := timers c; trace := trace c |}.

Definition set_socketTimeoutTimer (x : bool) (c : client) : client :=
  {| options := options c; port := port c; host := host c;
     secureMode := secureMode c; _serverQueue := _serverQueue c;
     _processingServerData := _processingServerData c;
     _connectionReady := _connectionReady c;
     _globalAcceptUntagged := _globalAcceptUntagged c;
     _clientQueue := _clientQueue c; _canSend := _canSend c;
     _tagCounter := _tagCounter c; _currentCommand := _currentCommand c;
     _idleTimer := _idleTimer c; _socketTimeoutTimer := x;
     compressed := compressed c; framer := framer c; socket := socket c;
     _socketOnData := _socketOnData c; promises := promises c;
     timers := timers c; trace := trace c |}.

Definition set_compressed (x : bool) (c : client) : client :=
  {| options := options c; port := port c; host := host c;
     secureMode := secureMode c; _serverQueue := _serverQueue c;
     _processingServerData := _processingServerData c;
     _connectionReady := _connectionReady c;
     _globalAcceptUntagged := _globalAcceptUntagged c;
     _clientQueue := _clientQueue c; _canSend := _canSend c;
     _tagCounter := _tagCounter c; _currentCommand := _currentCommand c;
     _idleTimer := _idleTimer c;
     _socketTimeoutTimer := _socketTimeoutTimer c; compressed := x;
     framer := framer c; socket := socket c;
     _socketOnData := _socketOnData c; promises := promises c;
     timers := timers c; trace := trace c |}.

Definition set_framer (x : Framer.framer) (c : client) : client :=
  {| options := options c; port := port c; host := host c;
     secureMode := secureMode c; _serverQueue := _serverQueue c;
     _processingServerData := _processingServerData c;
     _connectionReady := _connectionReady c;
     _globalAcceptUntagged := _globalAcceptUntagged c;
     _clientQueue := _clientQueue c; _canSend := _canSend c;
     _tagCounter := _tagCounter c; _currentCommand := _currentCommand c;
     _idleTimer := _idleTimer c;
     _socketTimeoutTimer := _socketTimeoutTimer c;
     compressed := compressed c; framer := x; socket := socket c;
     _socketOnData := _socketOnData c; promises := promises c;
     timers := timers c; trace := trace c |}.

Definition set_socket (x : option tcp_socket) (c : client) : client :=
  {| options := options c; port := port c; host := host c;
     secureMode := secureMode c; _serverQueue := _serverQueue c;
     _processingServerData := _processingServerData c;
     _connectionReady := _connectionReady c;
     _globalAcceptUntagged := _globalAcceptUntagged c;
     _clientQueue := _clientQueue c; _canSend := _canSend c;
     _tagCounter := _tagCounter c; _currentCommand := _currentCommand c;
     _idleTimer := _idleTimer c;
     _socketTimeoutTimer := _socketTimeoutTimer c;
     compressed := compressed c; framer := framer c; socket := x;
     _socketOnData := _socketOnData c; promises := promises c;
     timers := timers c; trace := trace c |}.

Definition set_socketOnData (x : option handler) (c : client) : client :=
  {| options := options c; port := port c; host := host c;
     secureMode := secureMode c; _serverQueue := _serverQueue c;
     _processingServerData := _processingServerData c;
     _connectionReady := _connectionReady c;
     _globalAcceptUntagged := _globalAcceptUntagged c;
     _clientQueue := _clientQueue c; _canSend := _canSend c;
     _tagCounter := _tagCounter c; _currentCommand := _currentCommand c;
     _idleTimer := _idleTimer c;
     _socketTimeoutTimer := _socketTimeoutTimer c;
     compressed := compressed c; framer := framer c; socket := socket c;
     _socketOnData := x; promises := promises c; timers := timers c;
     trace := trace c |}.

Definition set_promises (x : list promise) (c : client) : client :=
  {| options := options c; port := port c; host := host c;
     secureMode := secureMode c; _serverQueue := _serverQueue c;
     _processingServerData := _processingServerData c;
     _connectionReady := _connectionReady c;
     _globalAcceptUntagged := _globalAcceptUntagged c;
     _clientQueue := _clientQueue c; _canSend := _canSend c;
     _tagCounter := _tagCounter c; _currentCommand := _currentCommand c;
     _idleTimer := _idleTimer c;
     _socketTimeoutTimer := _socketTimeoutTimer c;
     compressed := compressed c; framer := framer c; socket := socket c;
     _socketOnData := _socketOnData c; promises := x; timers := timers c;
     trace := trace c |}.

Definition set_timers (x : nat) (c : client) : client :=
  {| options := options c; port := port c; host := host c;
     secureMode := secureMode c; _serverQueue := _serverQueue c;
     _processingServerData := _processingServerData c;
     _connectionReady := _connectionReady c;
     _globalAcceptUntagged := _globalAcceptUntagged c;
     _clientQueue := _clientQueue c; _canSend := _canSend c;
     _tagCounter := _tagCounter c; _currentCommand := _currentCommand c;
     _idleTimer := _idleTimer c;
     _socketTimeoutTimer := _socketTimeoutTimer c;
     compressed := compressed c; framer := framer c; socket := socket c;
     _socketOnData := _socketOnData c; promises := promises c; timers := x;
     trace := trace c |}.

Definition set_trace (x : list effect) (c : client) : client :=
  {| options := options c; port := port c; host := host c;
     secureMode := secureMode c; _serverQueue := _serverQueue c;
     _processingServerData := _processingServerData c;
     _connectionReady := _connectionReady c;
     _globalAcceptUntagged := _globalAcceptUntagged c;
     _clientQueue := _clientQueue c; _canSend := _canSend c;
     _tagCounter := _tagCounter c; _currentCommand := _currentCommand c;
     _idleTimer := _idleTimer c;
     _socketTimeoutTimer := _socketTimeoutTimer c;
     compressed := compressed c; framer := framer c; socket := socket c;
     _socketOnData := _socketOnData c; promises := promises c;
     timers := timers c; trace := x |}.


(** *** Computations that change the client and may throw *)

Inductive outcome (A : Type) :=
  | Done (a : A) (c : client)
  | Raise (e : val) (c : client).
Arguments Done {A} a c.
Arguments Raise {A} e c.

Definition M (A : Type) := client → outcome A.

Definition ret {A} (a : A) : M A := λ c, Done a c.
Definition throw {A} (e : val) : M A := λ c, Raise e c.
Definition bind {A B} (m : M A) (k : A → M B) : M B :=
  λ c, match m c with
       | Done a c' => k a c'
       | Raise e c' => Raise e c'
       end.
Definition try_catch {A} (m : M A) (h : val → M A) : M A :=
  λ c, match m c with
       | Done a c' => Done a c'
       | Raise e c' => h e c'
       end.
Definition lift {A} (r : res A) : M A :=
  match r with
  | Ret a => ret a
  | Thr e => throw e
  end.
Definition read {A} (f : client → A) : M A := λ c, Done (f c) c.
Definition write (f : client → client) : M unit := λ c, Done tt (f c).
Definition emit (e : effect) : M unit :=
  write (λ c, set_trace (trace c ++ [e]) c).

Declare Scope client_scope.
Delimit Scope client_scope with client.
Notation "'let*' x ':=' m 'in' k" := (bind m (fun x => k))
  (at level 10, x name, k at level 200) : client_scope.
Notation "'let*' '(' x ',' y ')' ':=' m 'in' k" :=
  (bind m (fun '(x, y) => k))
  (at level 10, x name, y name, k at level 200) : client_scope.
Notation "m '>>' k" := (bind m (fun _ => k))
  (at level 100, k at level 200, right associativity) : client_scope.
#[local] Open Scope client_scope.

Definition when (b : bool) (m : M unit) : M unit := if b then m else ret tt.

(** The client after a computation, however it ended. *)
Definition final {A} (o : outcome A) : client :=
  match o with
  | Done _ c => c
  | Raise _ c => c
  end.

(** *** Promises *)

(** [new Promise(...)]: the number of the new promise. *)
Definition new_promise : M nat :=
  let* ps := read promises in
  write (set_promises (ps ++ [Pending])) >> ret (length ps).

(** [resolve] and [reject] do nothing on a promise that is settled. *)
Definition settle (p : nat) (s : promise) : M unit :=
  write (λ c, match promises c !! p with
              | Some Pending => set_promises (<[p := s]> (promises c)) c
              | _ => c
              end).

Definition resolve (p : nat) (v : val) : M unit := settle p (Resolved v).
Definition reject (p : nat) (e : val) : M unit := settle p (Rejected e).

(** *** The constructor *)

Definition ImapClient (host port : val) (options : option (gmap string val))
  : client :=
  let opts := default ∅ options in
  let requested := default VUndefined (opts !! "useSecureTransport") in
  let port' :=
    js_or port (if truthy requested then VNumber 993 else VNumber 143) in
  let secure :=
    if bool_decide (is_Some (opts !! "useSecureTransport"))
    then truthy requested
    else strict_eq port' (VNumber 993) in
  {| options := <["useSecureTransport" := VBool secure]> opts;
     port := port';
     host := js_or host (VString "localhost");
     secureMode := secure;
     _serverQueue := [];
     _processingServerData := false;
     _connectionReady := false;
     _globalAcceptUntagged := ∅;
     _clientQueue := [];
     _canSend := false;
     _tagCounter := 0;
     _currentCommand := VBool false;
     _idleTimer := false;
     _socketTimeoutTimer := false;
     compressed := false;
     framer := Framer.new_framer;
     socket := None;
     _socketOnData := None;
     promises := [];
     timers := 0;
     trace := [] |}.


(** *** The methods *)

Section Methods.

(** The parser and the compiler of the [imap-handler] package are
    collaborators outside this repository: any function will do.
    [parser data] is [imapHandler.parser(data)];
    [compiler request asArray isLogging] is
    [imapHandler.compiler(request, asArray, isLogging)]. *)
Variable parser : string → res val.
Variable compiler : val → bool → bool → res (list string).

Definition CRLF : string := String "013" (String "010" "").

(** [_enterIdle] and [_clearIdle]. *)
Definition _enterIdle : M unit := write (set_idleTimer true).
Definition _clearIdle : M unit := write (set_idleTimer false).

(** [setTimeout(() => this._processServerQueue(), 0)]. *)
Definition schedule : M unit := write (λ c, set_timers (S (timers c)) c).

(** [send(str)]: arm the socket timeout, then write to the socket or to
    the deflate stage. *)
Definition send (str : string) : M unit :=
  write (set_socketTimeoutTimer true) >>
  let* cmp := read compressed in
  if cmp then emit (Esend true str)
  else
    let* s := read socket in
    match s with
    | Some _ => emit (Esend false str)
    | None => throw TypeError
    end.

(** [setHandler(command, callback)]. *)
Definition setHandler (command : string) (callback : val) : M unit :=
  write (λ c, set_globalAcceptUntagged
                (<[trim (toUpperCase command) := callback]>
                   (_globalAcceptUntagged c)) c).

(** [_disableCompression]. *)
Definition _disableCompression : M unit :=
  let* cmp := read compressed in
  if negb cmp then ret tt
  else
    write (set_compressed false) >>
    let* s := read socket in
    match s with
    | None => throw TypeError
    | Some sk =>
        let* h := read _socketOnData in
        write (set_socket (Some {| readyState := readyState sk;
                                   onopen := onopen sk;
                                   onclose := onclose sk;
                                   onerror := onerror sk;
                                   ondata := default Hnoop h |})) >>
        write (set_socketOnData None)
    end.

(** The reaction [_onError] chains on [close()]: normalise the event and
    hand it to the [onerror] sink. *)
Definition deliver_error (evt : val) : M unit :=
  if isError evt then emit (Eonerror evt)
  else
    let* d := lift (and_get evt "data") in
    if truthy evt && isError d then emit (Eonerror d)
    else
      let* m := lift (and_get d "message") in
      let* a := (if truthy m then ret m else lift (get evt "data")) in
      emit (Eonerror (new_Error (js_or (js_or a evt) (VString "Error")))).

(** The promise of a [close()] call resolves: run what is chained on it. A
    reaction that throws rejects a promise nobody holds. *)
Definition run_then (k : close_then) : M unit :=
  match k with
  | ThenCaller p => resolve p VUndefined
  | ThenOnError evt =>
      try_catch (deliver_error evt) (λ e, emit (Eunhandled e))
  | ThenLogout p => resolve p VUndefined
  end.

(** The [tearDown] closure of a [close()] call. *)
Definition tearDown (k : close_then) : M unit :=
  write (set_serverQueue []) >>
  write (set_clientQueue []) >>
  write (set_currentCommand (VBool false)) >>
  write (set_idleTimer false) >>
  write (set_socketTimeoutTimer false) >>
  let* s := read socket in
  match s with
  | Some sk =>
      write (set_socket (Some {| readyState := readyState sk;
                                 onopen := onopen sk;
                                 onclose := Hnoop;
                                 onerror := Hnoop;
                                 ondata := Hnoop |}))
  | None => ret tt
  end >>
  run_then k.

(** The executor of the promise [close()] makes, with [k] chained on it. *)
Definition close_executor (k : close_then) : M unit :=
  _disableCompression >>
  let* s := read socket in
  match s with
  | Some sk =>
      match readyState sk with
      | Open =>
          write (set_socket (Some {| readyState := Closing;
                                     onopen := onopen sk;
                                     onclose := HtearDown k;
                                     onerror := HtearDown k;
                                     ondata := ondata sk |})) >>
          emit Esocket_close
      | _ => tearDown k
      end
  | None => tearDown k
  end.

(** [close()]. *)
Definition close : M nat :=
  let* p := new_promise in
  try_catch (close_executor (ThenCaller p)) (reject p) >>
  ret p.

(** [_onError(evt)]: [this.close().then(...)]. *)
Definition _onError (evt : val) : M unit :=
  try_catch (close_executor (ThenOnError evt)) (λ e, emit (Eunhandled e)).

(** The [callback] of a command record (lines 255-267). *)
Definition completion (p : nat) (response : val) : M unit :=
  if isError response then reject p response
  else
    let* c := lift (and_get response "command") in
    let* s := lift (toString (js_or c (VString ""))) in
    if bool_decide (trim (toUpperCase s) ∈ ["NO"; "BAD"]) then
      let* hr := lift (get response "humanReadable") in
      let error := new_Error (js_or hr (VString "Error")) in
      let* code := lift (get response "code") in
      let* error :=
        (if truthy code then lift (set error "code" code) else ret error) in
      reject p error
    else resolve p response.

(** Calling a value. Functions of the caller are recorded and taken not to
    call back into the client before they return. A handler is given the
    continue callback of the dispatcher and may call it, now or later, which
    schedules one more turn of the dispatcher beside the one that the
    dispatcher schedules itself; that call is not represented, and where a
    statement below counts scheduled turns it is on a path that runs no
    handler. *)
Definition call_function (f : val) (args : list val) : M unit :=
  match f with
  | VFunction (FCompletion p) => completion p (default VUndefined (head args))
  | VFunction FContinue => ret tt
  | VFunction (FUser id) => emit (Ecall id args)
  | _ => throw TypeError
  end.

(** The command name as [_processResponse] and the completion callback
    compute it. *)
Definition response_command (response : val) : res string :=
  let? c := and_get response "command" in
  let? s := toString (js_or c (VString "")) in
  Ret (trim (toUpperCase s)).

(** The function mapped over [attributes[0].section]. *)
Definition section_key (key : val) : res val :=
  if negb (truthy key) then Ret VUndefined
  else
    match key with
    | VArray _ =>
        array_map key
          (λ key, let? v := get key "value" in
                  let? s := toString (js_or v (VString "")) in
                  Ret (VString (trim s)))
    | _ =>
        let? v := get key "value" in
        let? s := toString (js_or v (VString "")) in
        Ret (VString (trim (toUpperCase s)))
    end.

(** [response.attributes[response.attributes.length - 1]]. *)
Definition last_attribute (attrs len : val) : res val :=
  match len with
  | VNumber n =>
      if (0 <? n)%Z then get_index attrs (Z.to_nat (n - 1)) else Ret VUndefined
  | _ => Ret VUndefined
  end.

(** [_processResponse(response)], giving the changed response. *)
Definition _processResponse (response : val) : res val :=
  let? command := response_command response in
  if negb (bool_decide (command ∈ ["OK"; "NO"; "BAD"; "BYE"; "PREAUTH"]))
  then Ret response
  else
    let? option :=
      (let? attrs := and_get response "attributes" in
       let? len := and_get attrs "length" in
       if negb (truthy len) then Ret len
       else
         let? a0 := get_index attrs 0 in
         let? ty := get a0 "type" in
         if negb (strict_eq ty (VString "ATOM")) then Ret (VBool false)
         else
           let? sec := get a0 "section" in
           if negb (truthy sec) then Ret sec
           else array_map sec section_key) in
    let? response :=
      (if truthy option then
         let? (key, option) := shift option in
         let? response := set response "code" key in
         let? len := get option "length" in
         if truthy len then
           let? name := call_toLowerCase key in
           let? v := (if strict_eq len (VNumber 1) then get_index option 0
                      else Ret option) in
           set response name v
         else Ret response
       else Ret response) in
    let? attrs := and_get response "attributes" in
    let? len := and_get attrs "length" in
    if negb (truthy len) then Ret response
    else
      let? last := last_attribute attrs len in
      let? ty := get last "type" in
      if strict_eq ty (VString "TEXT") then
        let? v := get last "value" in
        set response "humanReadable" v
      else Ret response.

(** [_sendRequest]. *)
Definition _sendRequest : M unit :=
  let* q := read _clientQueue in
  match q with
  | [] => _enterIdle
  | cmd :: rest =>
      _clearIdle >>
      write (set_canSend false) >>
      write (set_clientQueue rest) >>
      write (set_currentCommand cmd) >>
      let* compiled :=
        try_catch
          (let* request := lift (get cmd "request") in
           let* data := lift (compiler request true false) in
           let* cmd := lift (set cmd "data" (VArray (VString <$> data))) in
           write (set_currentCommand cmd) >>
           lift (compiler request false true) >>
           ret true)
          (λ e, lift (get e "stack") >>
                emit Econsole_error >>
                _onError e >>
                ret false) in
      if compiled then
        let* cmd := read _currentCommand in
        let* data := lift (get cmd "data") in
        let* (chunk, data) := lift (shift data) in
        let* cmd := lift (set cmd "data" data) in
        write (set_currentCommand cmd) >>
        let* len := lift (get data "length") in
        send (ToString chunk +:+ (if truthy len then "" else CRLF))
      else ret tt
  end.

(** [[].concat(acceptUntagged || []).map(...)], each name through the
    built-in conversion to a string. In the code a name that is an object
    with a [toString] of its own runs that method, and one whose [toString]
    is not a function throws, before a tag is drawn; a statement about
    [enqueueCommand] with names of the caller asks for plain names: ASCII
    strings, [undefined] or [null]. *)
Definition normalize_accept (acceptUntagged : val) : list string :=
  let l := match js_or acceptUntagged (VArray []) with
           | VArray l => l
           | v => [v]
           end in
  map (λ untagged, trim (toUpperCase (ToString (js_or untagged (VString "")))))
      l.

(** [++] on a number: beyond [2^53] adding one changes nothing. *)
Definition increment (n : N) : N := if (n <? 2 ^ 53)%N then (n + 1)%N else n.

(** [var tag = 'W' + (++this._tagCounter)]. *)
Definition draw_tag : M string :=
  let* n := read _tagCounter in
  write (set_tagCounter (increment n)) >>
  ret ("W" +:+ pretty (increment n)).

(** The object literal [data] of [enqueueCommand]. *)
Definition command_record (tag : string) (request : val)
    (acceptUntagged : list string) (p : nat) : gmap string val :=
  <["tag" := VString tag]>
    (<["request" := request]>
       (<["payload" := match acceptUntagged with
                       | [] => VUndefined
                       | _ => VObject ∅
                       end]>
          (<["callback" := VFunction (FCompletion p)]> ∅))).

(** [Object.keys(options || {}).forEach((key) => data[key] = options[key])]. *)
Definition apply_options (data : gmap string val)
    (options : option (gmap string val)) : gmap string val :=
  fold_left (λ data kv, if is_proto kv.1 then data else <[kv.1 := kv.2]> data)
            (map_to_list (default ∅ options)) data.

(** [acceptUntagged.forEach((command) => data.payload[command] = [])]. *)
Fixpoint add_buckets (acceptUntagged : list string) (data : gmap string val)
  : res (gmap string val) :=
  match acceptUntagged with
  | [] => Ret data
  | command :: rest =>
      let? payload :=
        set (default VUndefined (data !! "payload")) command (VArray []) in
      add_buckets rest (<["payload" := payload]> data)
  end.

(** [enqueueCommand(request, acceptUntagged, options)]: the number of the
    promise it returns. An exception in the executor rejects the promise. *)
Definition enqueueCommand (request acceptUntagged : val)
    (options : option (gmap string val)) : M nat :=
  let request :=
    if String.eqb (typeof request) "string"
    then VObject {[ "command" := request ]} else request in
  let acceptUntagged := normalize_accept acceptUntagged in
  let* tag := draw_tag in
  let* request := lift (set request "tag" (VString tag)) in
  let* p := new_promise in
  try_catch
    (let data :=
       apply_options (command_record tag request acceptUntagged p) options in
     let* data := lift (add_buckets acceptUntagged data) in
     write (λ c, set_clientQueue (_clientQueue c ++ [VObject data]) c) >>
     let* can := read _canSend in
     when can _sendRequest)
    (reject p) >>
  ret p.

(** [_processServerResponse(response, callback)], up to the call of
    [callback], which every path makes once, without an argument. Gives the
    response as the calls have changed it. The payload that a tagged
    response is given is the object of the command record itself; values
    here are contents, so what the callback receives is the content of that
    object at the time of the call. *)
Definition _processServerResponse (response : val) : M val :=
  let* c := lift (and_get response "command") in
  let* command := lift (call_toUpperCase (js_or c (VString ""))) in
  let command := trim command in
  let* response := lift (_processResponse response) in
  let* cur := read _currentCommand in
  let* handlers := read _globalAcceptUntagged in
  let* tag := lift (get response "tag") in
  let untagged := strict_eq tag (VString "*") in
  if negb (truthy cur) then
    when (untagged && bool_decide (is_Some (handlers !! command)))
      (call_function (default VUndefined (handlers !! command)) [response]) >>
    ret response
  else
    let* payload := lift (get cur "payload") in
    let* collected :=
      (if truthy payload && untagged then lift (js_in command payload)
       else ret false) in
    if collected then
      let* bucket := lift (get payload command) in
      let* bucket := lift (push bucket response) in
      let* payload := lift (set payload command bucket) in
      let* cur := lift (set cur "payload" payload) in
      write (set_currentCommand cur) >>
      ret response
    else if untagged && bool_decide (is_Some (handlers !! command)) then
      call_function (default VUndefined (handlers !! command))
        [response; VFunction FContinue] >>
      ret response
    else
      let* ctag := lift (get cur "tag") in
      if strict_eq tag ctag then
        let* callback := lift (get cur "callback") in
        if String.eqb (typeof callback) "function" then
          let* n := (if truthy payload then lift (keys_length payload)
                     else ret 0) in
          let* response :=
            (if truthy payload && negb (Nat.eqb n 0)
             then lift (set response "payload" payload) else ret response) in
          call_function callback [response] >>
          ret response
        else ret response
      else ret response.

(** The numeric untagged rewriting in [_processServerQueue]. *)
Definition normalize_numeric (response : val) : res val :=
  let? tag := get response "tag" in
  if negb (strict_eq tag (VString "*")) then Ret response
  else
    let? command := get response "command" in
    if negb (all_digits command) then Ret response
    else
      let? attrs := get response "attributes" in
      let? len := and_get attrs "length" in
      if negb (truthy len) then Ret response
      else
        let? a0 := get_index attrs 0 in
        let? ty := get a0 "type" in
        if negb (strict_eq ty (VString "ATOM")) then Ret response
        else
          let? response :=
            set response "nr" (VNumber (Number_of_string (ToString command))) in
          let? (first, attrs) := shift attrs in
          let? response := set response "attributes" attrs in
          let? v := get first "value" in
          let? s := toString (js_or v (VString "")) in
          set response "command" (VString (trim (toUpperCase s))).

(** The [callback] that [_processServerQueue] passes on, called without
    an error. *)
Definition after_response (response : val) : M unit :=
  let* ready := read _connectionReady in
  (if negb ready then
     write (set_connectionReady true) >>
     emit Eonready >>
     write (set_canSend true) >>
     _sendRequest
   else
     let* tag := lift (get response "tag") in
     when (negb (strict_eq tag (VString "*")))
       (write (set_canSend true) >> _sendRequest)) >>
  schedule.

(** The answer to a [+] response. *)
Definition continuation : M unit :=
  let* cur := read _currentCommand in
  let* data := lift (get cur "data") in
  let* len := lift (get data "length") in
  (if truthy len then
     let* (chunk, data) := lift (shift data) in
     let* cur := lift (set cur "data" data) in
     write (set_currentCommand cur) >>
     let* len := lift (get data "length") in
     send (ToString chunk +:+ (if truthy len then "" else CRLF))
   else
     let* flag := lift (get cur "errorResponseExpectsEmptyLine") in
     when (truthy (VString (typeof flag))) (send CRLF)) >>
  schedule.

(** The response made for a line that starts with [+]. *)
Definition plus_response (data : string) : val :=
  VObject (<["tag" := VString "+"]>
             (<["payload" := VString (substr_from 2 data)]> ∅)).

(** [_processServerQueue]. *)
Definition _processServerQueue : M unit :=
  let* q := read _serverQueue in
  match q with
  | [] => write (set_processingServerData false)
  | data :: rest =>
      _clearIdle >>
      write (set_serverQueue rest) >>
      let* parsed :=
        try_catch
          (if starts_with_plus data then
             ret (Some (plus_response data))
           else
             let* response := lift (parser data) in
             ret (Some response))
          (λ e, lift (get e "stack") >>
                emit Econsole_error >>
                _onError e >>
                ret None) in
      match parsed with
      | None => ret tt
      | Some response =>
          let* response := lift (normalize_numeric response) in
          let* tag := lift (get response "tag") in
          if strict_eq tag (VString "+") then continuation
          else
            let* response := _processServerResponse response in
            after_response response
      end
  end.

(** [_addToServerQueue(cmd)]. *)
Definition _addToServerQueue (cmd : string) : M unit :=
  write (λ c, set_serverQueue (_serverQueue c ++ [cmd]) c) >>
  let* busy := read _processingServerData in
  if busy then ret tt
  else write (set_processingServerData true) >> _processServerQueue.

(** The [while] loop of [_onData], with the calls it makes. When a call
    throws, [_command] is left as it was for the call. *)
Fixpoint onData_loop (fuel : nat) : M unit :=
  match fuel with
  | 0 => ret tt
  | S k =>
      let* fr := read framer in
      match Framer.iterate fr with
      | Framer.Exit => ret tt
      | Framer.Next fr' None => write (set_framer fr') >> onData_loop k
      | Framer.Next fr' (Some line) =>
          write (set_framer
                   {| Framer._incomingBuffer := Framer._incomingBuffer fr';
                      Framer._command := line;
                      Framer._literalRemaining :=
                        Framer._literalRemaining fr' |}) >>
          _addToServerQueue (string_of_list_ascii line) >>
          write (set_framer fr') >>
          onData_loop k
      end
  end.

(** [_onData(evt)], with the text of [evt.data]. *)
Definition _onData (chunk : list ascii) : M unit :=
  write (set_socketTimeoutTimer false) >>
  write (λ c, set_framer (Framer.append_chunk (framer c) chunk) c) >>
  let* fr := read framer in
  onData_loop (length (Framer._incomingBuffer fr)).

(** [connect()]. *)
Definition connect : M nat :=
  let* p := new_promise in
  write (set_socket (Some {| readyState := Connecting;
                             onopen := Honopen p;
                             onclose := Hunexpected_close;
                             onerror := Hconnect_failed p;
                             ondata := HonData |})) >>
  ret p.

(** [logout()]. *)
Definition logout : M nat :=
  let* p := new_promise in
  try_catch
    (let* s := read socket in
     match s with
     | None => throw TypeError
     | Some sk =>
         write (set_socket (Some {| readyState := readyState sk;
                                    onopen := onopen sk;
                                    onclose := Hlogout p;
                                    onerror := Hlogout p;
                                    ondata := ondata sk |})) >>
         enqueueCommand (VString "LOGOUT") VUndefined None >>
         ret tt
     end)
    (reject p) >>
  ret p.

(** [upgrade()]. *)
Definition upgrade : M unit :=
  write (set_secureMode true) >>
  let* s := read socket in
  match s with
  | None => throw TypeError
  | Some _ => emit Esocket_upgrade
  end.

(** [enableCompression()]. *)
Definition enableCompression : M unit :=
  let* s := read socket in
  match s with
  | None => throw TypeError
  | Some sk =>
      write (set_socketOnData (Some (ondata sk))) >>
      write (set_compressed true) >>
      write (set_socket (Some {| readyState := readyState sk;
                                 onopen := onopen sk;
                                 onclose := onclose sk;
                                 onerror := onerror sk;
                                 ondata := Hinflate |}))
  end.

(** *** Events *)

(** A closure installed on the socket runs, with the event it is given. *)
Definition run_handler (h : handler) (evt : val) (chunk : list ascii)
  : M unit :=
  match h with
  | Hnoop => ret tt
  | Hunexpected_close =>
      _onError (new_Error (VString "Socket closed unexceptedly!"))
  | HonData => _onData chunk
  | Hconnect_failed p =>
      let* d := lift (get evt "data") in
      let* m := lift (get d "message") in
      reject p (new_Error (VString ("Could not open socket: " +:+ ToString m)))
  | Honopen p =>
      let* s := read socket in
      match s with
      | None => throw TypeError
      | Some sk =>
          write (set_socket (Some {| readyState := readyState sk;
                                     onopen := onopen sk;
                                     onclose := onclose sk;
                                     onerror := HonError;
                                     ondata := ondata sk |})) >>
          resolve p VUndefined
      end
  | HonError => _onError evt
  | HtearDown k => tearDown k
  | Hlogout p =>
      try_catch (close_executor (ThenLogout p)) (reject p)
  | Hinflate =>
      let* cmp := read compressed in
      when cmp (emit (Einflate chunk))
  end.

(** Everything that can happen to a client: calls of its methods, events
    of its socket, and its timers. *)
Inductive event :=
  | Call_connect
  | Call_close
  | Call_logout
  | Call_upgrade
  | Call_enqueueCommand (request acceptUntagged : val)
                        (options : option (gmap string val))
  | Call_setHandler (command : string) (callback : val)
  | Call_enableCompression
  | Call_onError (evt : val)            (* the error path, entered directly *)
  | Socket_open
  | Socket_close
  | Socket_error (evt : val)
  | Socket_data (chunk : list ascii)
  | Inflated (chunk : list ascii)       (* the inflate stage gives plaintext *)
  | Timer_process                       (* a zero-delay timer fires *)
  | Timer_idle
  | Timer_socket.

Definition set_readyState (r : ready_state) : M unit :=
  write (λ c, match socket c with
              | Some sk =>
                  set_socket (Some {| readyState := r;
                                      onopen := onopen sk;
                                      onclose := onclose sk;
                                      onerror := onerror sk;
                                      ondata := ondata sk |}) c
              | None => c
              end).

Definition socket_handler (f : tcp_socket → handler) : M handler :=
  let* s := read socket in
  ret (match s with Some sk => f sk | None => Hnoop end).

Definition react (e : event) : M unit :=
  match e with
  | Call_connect => connect >> ret tt
  | Call_close => close >> ret tt
  | Call_logout => logout >> ret tt
  | Call_upgrade => upgrade
  | Call_enqueueCommand request acceptUntagged options =>
      enqueueCommand request acceptUntagged options >> ret tt
  | Call_setHandler command callback => setHandler command callback
  | Call_enableCompression => enableCompression
  | Call_onError evt => _onError evt
  | Socket_open =>
      set_readyState Open >>
      let* h := socket_handler onopen in run_handler h VUndefined []
  | Socket_close =>
      set_readyState Closed >>
      let* h := socket_handler onclose in run_handler h VUndefined []
  | Socket_error evt =>
      let* h := socket_handler onerror in run_handler h evt []
  | Socket_data chunk =>
      let* h := socket_handler ondata in run_handler h VUndefined chunk
  | Inflated chunk =>
      let* h := read _socketOnData in
      match h with
      | Some h => run_handler h VUndefined chunk
      | None => throw TypeError
      end
  | Timer_process =>
      let* n := read timers in
      match n with
      | 0 => ret tt
      | S k => write (set_timers k) >> _processServerQueue
      end
  | Timer_idle =>
      let* armed := read _idleTimer in
      when armed (write (set_idleTimer false) >> emit Eonidle)
  | Timer_socket =>
      let* armed := read _socketTimeoutTimer in
      when armed
        (write (set_socketTimeoutTimer false) >>
         let* o := read options in
         _onError (new_Error (VString
           (ToString (default VUndefined (o !! "sessionId")) +:+
            " Socket timed out!"))))
  end.

(** One turn of the event loop: an exception nobody catches ends the turn
    and leaves the client as it is then. *)
Definition step (c : client) (e : event) : client := final (react e c).

Definition run (events : list event) (c : client) : client :=
  fold_left step events c.


(** *** Tags *)

(** The tag the next [enqueueCommand] call assigns. *)
Definition next_tag (c : client) : string :=
  "W" +:+ pretty (increment (_tagCounter c)).

(** Whether an event comes with an [enqueueCommand] call: [logout] makes
    one when there is a socket. *)
Definition enqueues (e : event) (c : client) : bool :=
  match e with
  | Call_enqueueCommand _ _ _ => true
  | Call_logout => bool_decide (is_Some (socket c))
  | _ => false
  end.

(** The connection is not open: there is no socket (and so no compression
    stage), or its [readyState] is not [open]. *)
Definition is_closed (c : client) : Prop :=
  match socket c with
  | Some sk => readyState sk ≠ Open
  | None => compressed c = false
  end.

(** How often the [onerror] sink was called. *)
Definition is_onerror (e : effect) : bool :=
  match e with
  | Eonerror _ => true
  | _ => false
  end.

Definition deliveries (c : client) : nat :=
  length (List.filter is_onerror (trace c)).

End Methods.

End Client.
(* ===================================================================== *)
(** ** Invariants, stated *)
(* ===================================================================== *)

Module Properties.
Import JS Client.

(** [I] holds when [m], started in [c], has ended, normally or not. *)
Definition holds_after {A} (I : client → Prop) (m : M A) (c : client) : Prop :=
  I (final (m c)).

(** [m] preserves [I]. *)
Definition inv {A} (I : client → Prop) (m : M A) : Prop :=
  ∀ c, I c → holds_after I m c.

(** Only [draw_tag] assigns [_tagCounter]. *)
Definition counter_is (n : N) (c : client) : Prop := _tagCounter c = n.

(** The value is a record, or anything, whose [callback] is the completion
    callback of promise [p]. *)
Definition completes (p : nat) (v : val) : Prop :=
  get v "callback" = Ret (VFunction (FCompletion p)).

(** A closure on the socket that does not settle promise [p]. *)
Definition handler_free (p : nat) (h : handler) : Prop :=
  match h with
  | Hconnect_failed q | Honopen q | Hlogout q
  | HtearDown (ThenCaller q) | HtearDown (ThenLogout q) => q ≠ p
  | _ => True
  end.

Definition socket_free (p : nat) (s : option tcp_socket) : Prop :=
  match s with
  | Some sk =>
      handler_free p (onopen sk) ∧ handler_free p (onclose sk) ∧
      handler_free p (onerror sk) ∧ handler_free p (ondata sk)
  | None => True
  end.

(** Only command records may have the completion callback of promise [p]:
    no handler is that callback, and no closure on the socket settles
    [p]. So it is for the promise of an [enqueueCommand] call. *)
Definition held_by_commands (p : nat) (c : client) : Prop :=
  (∀ k, _globalAcceptUntagged c !! k ≠ Some (VFunction (FCompletion p))) ∧
  socket_free p (socket c) ∧
  handler_free p (default Hnoop (_socketOnData c)).

(** Nothing the client holds can settle promise [p]: no command record,
    current or queued, has its completion callback, and neither a handler
    nor a closure on the socket settles it. *)
Definition unreferenced (p : nat) (c : client) : Prop :=
  ¬ completes p (_currentCommand c) ∧
  Forall (λ r, ¬ completes p r) (_clientQueue c) ∧
  (∀ k, _globalAcceptUntagged c !! k ≠ Some (VFunction (FCompletion p))) ∧
  socket_free p (socket c) ∧
  handler_free p (default Hnoop (_socketOnData c)).

(** Promise [p] has status [s]; if it is pending, nothing can settle it. *)
Definition status_kept (p : nat) (s : promise) (c : client) : Prop :=
  promises c !! p = Some s ∧ (s = Pending → unreferenced p c).

(** The event does not bring in the completion callback of promise [p],
    which no caller of the client can get hold of. *)
Definition foreign (p : nat) (e : event) : Prop :=
  match e with
  | Call_enqueueCommand _ _ options =>
      default ∅ options !! "callback" ≠ Some (VFunction (FCompletion p))
  | Call_setHandler _ callback => callback ≠ VFunction (FCompletion p)
  | _ => True
  end.

End Properties.

(* ===================================================================== *)
(** ** Scenarios *)
(* ===================================================================== *)

Module Scenarios.
Import JS Client.

(** A compiler for requests without attributes: the tag and the command,
    in one piece. A request without a command name is refused. *)
Definition toy_compiler (request : val) (asArray isLogging : bool)
  : res (list string) :=
  match get request "tag", get request "command" with
  | Ret tag, Ret (VString command) =>
      Ret [ToString tag +:+ " " +:+ command]
  | _, _ => Thr (new_Error (VString "Unknown command"))
  end.

Definition atom (value : string) : val :=
  VObject (<["type" := VString "ATOM"]> (<["value" := VString value]> ∅)).

Definition text_attr (value : string) : val :=
  VObject (<["type" := VString "TEXT"]> (<["value" := VString value]> ∅)).

Definition code_attr (section : list val) : val :=
  VObject (<["type" := VString "ATOM"]>
             (<["value" := VString ""]> (<["section" := VArray section]> ∅))).

Definition response (tag command : string) (attributes : list val) : val :=
  VObject (<["tag" := VString tag]>
             (<["command" := VString command]>
                (<["attributes" := VArray attributes]> ∅))).

(** What the parser gives for the lines of the scenarios of the
    specification; anything else is a parse error here. *)
Definition toy_parser (data : string) : res val :=
  if String.eqb data "* OK IMAP4rev1 ready" then
    Ret (response "*" "OK" [text_attr "IMAP4rev1 ready"])
  else if String.eqb data "W1 OK done" then
    Ret (response "W1" "OK" [text_attr "done"])
  else if String.eqb data "W1 NO [AUTHENTICATIONFAILED] bad creds" then
    Ret (response "W1" "NO"
           [code_attr [atom "AUTHENTICATIONFAILED"]; text_attr "bad creds"])
  else if String.eqb data "W1 NO [COMMAND OK] denied" then
    Ret (response "W1" "NO"
           [code_attr [atom "COMMAND"; atom "OK"]; text_attr "denied"])
  else if String.eqb data "* 42 EXISTS" then
    Ret (response "*" "42" [atom "EXISTS"])
  else Thr (new_Error (VString "Unexpected input")).

Definition session (events : list event) : client :=
  run toy_parser toy_compiler events
      (ImapClient (VString "imap.example.org") VUndefined None).

(** The socket delivers one line. *)
Definition line (s : string) : event :=
  Socket_data (Framer.txt s ++ [Framer.CR; Framer.LF]).

(** Connect, and take the greeting. Promise 0 is the one of [connect]. *)
Definition greeted : list event :=
  [Call_connect; Socket_open; line "* OK IMAP4rev1 ready"; Timer_process].

(** Then enqueue a command, which goes out at once, as promise 1. *)
Definition in_flight (command : string) : list event :=
  greeted ++ [Call_enqueueCommand (VString command) VUndefined None].

(** Or close, and let the socket close. *)
Definition closed : list event := greeted ++ [Call_close; Socket_close].

End Scenarios.
(* ===================================================================== *)
(** ** Lines and literals, as the framer sees them *)
(* ===================================================================== *)

Module Lines.
Import Framer.

(** A line without a line feed that ends neither in a closing brace, so
    that no literal prefix ends it, nor in a carriage return, which the
    expression would count with the terminator. *)
Definition plain (l : text) : Prop :=
  (LF ∉ l) ∧ last l ≠ Some "}"%char ∧ last l ≠ Some CR.

(** Lines, each with the terminator that follows it, as they come in. *)
Definition joined (lines : list (text * text)) : text :=
  concat (map (λ lt, lt.1 ++ lt.2) lines).

(** A literal prefix: [{ds}] or [{ds+}]. *)
Definition literal_prefix (ds plus : text) : text :=
  brace :: ds ++ plus ++ ["}"%char].

Definition is_plus (plus : text) : Prop := plus = [] ∨ plus = ["+"%char].

(** A match found [k] characters further on. *)
Definition shifted (k : nat) (m : regex_match) : regex_match :=
  {| index := k + index m; match0 := match0 m; match2 := match2 m |}.

(** The responses with the terminators that ended them, back in one
    piece. *)
Definition glue (out terms : list text) : text :=
  concat (zip_with app out terms).

(** The framer as the constructor leaves it, and as it is again after
    every response it emits. *)
Definition idle_framer (buffer : text) : framer :=
  {| _incomingBuffer := buffer; _command := []; _literalRemaining := 0 |}.

End Lines.

(* ===================================================================== *)
(** ** What is observed of a client *)
(* ===================================================================== *)

Module Notions.
Import JS Client.
#[local] Open Scope client_scope.

(** *** The values the model is exact on *)

(** Text of code units below 128, on which [toUpperCase] changes the
    letters a to z and nothing else. *)
Definition ascii_text (s : string) : bool :=
  forallb (λ c, (N_of_ascii c <? 128)%N) (list_ascii_of_string s).

(** A command name as callers give it: a string of such text, or nothing.
    [toString] on it is the built-in one. *)
Definition plain_name (v : val) : bool :=
  match v with
  | VUndefined | VNull => true
  | VString s => ascii_text s
  | _ => false
  end.

(** The [acceptUntagged] argument: one name or an array of names. *)
Definition plain_names (acceptUntagged : val) : bool :=
  match acceptUntagged with
  | VArray l => forallb plain_name l
  | v => plain_name v
  end.

(** *** Tags *)

(** A request as callers give it: a command name or a request object. *)
Definition is_request (request : val) : bool :=
  match request with
  | VString _ | VObject _ => true
  | _ => false
  end.

(** Options that leave the tag, the request and the payload of the record
    alone. *)
Definition keeps_tag (options : option (gmap string val)) : Prop :=
  ∀ k, k ∈ ["tag"; "request"; "payload"] → default ∅ options !! k = None.

(** The calls of [enqueueCommand] in the events come with names of ASCII
    text to accept. *)
Definition plain_call (e : event) : bool :=
  match e with
  | Call_enqueueCommand _ acceptUntagged _ => plain_names acceptUntagged
  | _ => true
  end.

(** How many of the events came with a call of [enqueueCommand], those of
    [logout] counted. *)
Fixpoint calls (parser : string → res val)
    (compiler : val → bool → bool → res (list string))
    (events : list event) (c : client) : nat :=
  match events with
  | [] => 0
  | e :: rest =>
      (if enqueues e c then 1 else 0) +
      calls parser compiler rest (step parser compiler c e)
  end.

(** What is left of [enqueueCommand] once the record is in the queue: the
    end of the executor, and the promise returned. *)
Definition send_if_free (compiler : val → bool → bool → res (list string))
    (p : nat) : M nat :=
  try_catch (let* can := read _canSend in when can (_sendRequest compiler))
            (reject p) >>
  ret p.

(** The lines the framer makes of a chunk, as the strings the dispatcher
    is given. *)
Definition framed (fr : Framer.framer) (chunk : list ascii) : list string :=
  string_of_list_ascii <$> (Framer._onData fr chunk).1.

(** A key of a response code, as the parser gives it: an object whose
    [value] is a string. *)
Definition keyed (x : val) (v : string) : Prop :=
  ∃ o, x = VObject o ∧ o !! "value" = Some (VString v).

(** The names of the status responses. *)
Definition status_names : list string := ["OK"; "NO"; "BAD"; "BYE"; "PREAUTH"].

(** What [tearDown] does to the socket: the close, error and data
    listeners become no-ops; the open listener and the state stay. *)
Definition listeners_removed (s s' : option tcp_socket) : Prop :=
  match s, s' with
  | Some sk, Some sk' =>
      readyState sk' = readyState sk ∧ onopen sk' = onopen sk ∧
      onclose sk' = Hnoop ∧ onerror sk' = Hnoop ∧ ondata sk' = Hnoop
  | None, None => True
  | _, _ => False
  end.

(** The socket as [close()] leaves it when it was open. *)
Definition closing (k : close_then) (sk : tcp_socket) : tcp_socket :=
  {| readyState := Closing; onopen := onopen sk; onclose := HtearDown k;
     onerror := HtearDown k; ondata := ondata sk |}.

(** The socket after [tearDown], in the state [r]. *)
Definition torn_down (r : ready_state) (sk : tcp_socket) : tcp_socket :=
  {| readyState := r; onopen := onopen sk; onclose := Hnoop;
     onerror := Hnoop; ondata := Hnoop |}.

(** What a client did since it was [c]. *)
Definition since (c c' : client) : list effect :=
  drop (length (trace c)) (trace c').

(** The socket with another data listener. *)
Definition with_ondata (h : handler) (sk : tcp_socket) : tcp_socket :=
  {| readyState := readyState sk; onopen := onopen sk;
     onclose := onclose sk; onerror := onerror sk; ondata := h |}.

(** [n] continuation responses, dispatched one after the other. *)
Fixpoint continuations (n : nat) : M unit :=
  match n with
  | 0 => ret tt
  | S k => continuation >> continuations k
  end.

(** The chunks of a command as they are written to the socket: CRLF after
    the last one. *)
Fixpoint written (chunks : list string) : list string :=
  match chunks with
  | [] => []
  | x :: t => (x +:+ match t with [] => CRLF | _ => "" end) :: written t
  end.

(** Strings, one after the other. *)
Definition together (l : list string) : string := fold_right String.append "" l.

(** A request the client cannot put a tag on. *)
Definition no_request (request : val) : bool :=
  match request with
  | VUndefined | VNull | VBool _ | VNumber _ => true
  | _ => false
  end.

(** *** The dispatcher, turn by turn *)

(** As many turns of the dispatcher are pending as [t], and the dispatcher
    is marked busy or not as [b] says. *)
Definition same_turn (t : nat) (b : bool) (c : client) : Prop :=
  timers c = t ∧ _processingServerData c = b.

(** No command waits while the client may send. *)
Definition never_waits (c : client) : Prop :=
  _canSend c = false ∨ _clientQueue c = [].

(** How often the [onready] sink was called. *)
Definition is_onready (e : effect) : bool :=
  match e with
  | Eonready => true
  | _ => false
  end.

Definition onready_calls (c : client) : nat :=
  length (List.filter is_onready (trace c)).

(** [onready] was called once if the connection is ready, and never
    otherwise. *)
Definition ready_once (c : client) : Prop :=
  onready_calls c = Nat.b2n (_connectionReady c).

(** While the idle timer is armed the client may send and no command is
    queued. *)
Definition idle_when_free (c : client) : Prop :=
  _idleTimer c = true → _canSend c = true ∧ _clientQueue c = [].

(** How often something was written to the socket or to the deflate
    stage. *)
Definition is_send (e : effect) : bool :=
  match e with
  | Esend _ _ => true
  | _ => false
  end.

Definition sent_calls (c : client) : nat :=
  length (List.filter is_send (trace c)).

Definition is_ready (c : client) : Prop := _connectionReady c = true.

(** Until the connection is ready the client may not send, has no current
    command and has sent nothing. *)
Definition quiet (c : client) : Prop :=
  _connectionReady c = false →
  _canSend c = false ∧ _currentCommand c = VBool false ∧ sent_calls c = 0.

(** The effects in [tr] have happened, in this order, before anything
    else. *)
Definition begins_with (tr : list effect) (c : client) : Prop :=
  tr `prefix_of` trace c.

End Notions.

Module FramerFacts.
Import Framer.

(** *** Facts about the regular expression *)

Section Regex.

Implicit Types s b r : text.

Lemma is_digit_LF : is_digit LF = false.
Proof. reflexivity. Qed.

Lemma skip_digits_count s n r :
  skip_digits s = (n, r) → s = take n s ++ r ∧ n ≤ length s ∧
  Forall (λ c, is_digit c = true) (take n s).
Proof.
  revert n r. induction s as [|c t IH]; intros n r; simpl.
  - intros [= <- <-]. repeat split; [simpl; lia | constructor].
  - destruct (is_digit c) eqn:Hc.
    + destruct (skip_digits t) as [k r'] eqn:Ht. intros [= <- <-].
      destruct (IH _ _ eq_refl) as (Heq & Hle & Hall). simpl.
      repeat split; [congruence | lia | by constructor].
    + intros [= <- <-]. repeat split; [simpl; lia | constructor].
Qed.

Lemma skip_digits_app s b n c r :
  skip_digits s = (n, c :: r) → skip_digits (s ++ b) = (n, c :: r ++ b).
Proof.
  revert n. induction s as [|d t IH]; intros n; simpl; [done|].
  destruct (is_digit d); [|by intros [= <- <- <-]].
  destruct (skip_digits t) as [k r'] eqn:Ht. intros [= <- ->].
  by rewrite (IH _ eq_refl).
Qed.

Lemma skip_digits_rest_LF s n r :
  skip_digits s = (n, r) → LF ∈ s → LF ∈ r.
Proof.
  revert n r. induction s as [|d t IH]; intros n r; simpl.
  - by intros [= <- <-].
  - destruct (is_digit d) eqn:Hd; [|by intros [= <- <-]].
    destruct (skip_digits t) as [k r'] eqn:Ht. intros [= <- <-].
    intros [<-|Hin]%elem_of_cons; [by rewrite is_digit_LF in Hd|by eapply IH].
Qed.

Lemma eol_here_app s b e :
  eol_here s = Some e → eol_here (s ++ b) = Some e.
Proof.
  destruct s as [|c [|d t]]; simpl; try done;
    destruct (Ascii.eqb c LF); try done; by destruct (Ascii.eqb c CR).
Qed.

Lemma eol_here_none_app s b :
  eol_here s = None → LF ∈ s → eol_here (s ++ b) = None.
Proof.
  destruct s as [|c [|d t]]; simpl.
  - by intros _ ?%elem_of_nil.
  - destruct (Ascii.eqb c LF) eqn:Hc; [done|]. intros _ Hin.
    apply list_elem_of_singleton in Hin. subst c. by rewrite Ascii.eqb_refl in Hc.
  - destruct (Ascii.eqb c LF); [done|]. by destruct (Ascii.eqb c CR).
Qed.

Lemma eol_here_bounds s e :
  eol_here s = Some e → 1 ≤ e ≤ length s ∧ LF ∈ s.
Proof.
  destruct s as [|c [|d t]]; simpl; try done.
  - destruct (Ascii.eqb_spec c LF) as [->|]; [|by destruct (Ascii.eqb c CR)].
    intros [= <-]. split; [lia|]. apply list_elem_of_here.
  - destruct (Ascii.eqb_spec c LF) as [->|].
    { intros [= <-]. split; [lia|]. apply list_elem_of_here. }
    destruct (Ascii.eqb c CR); [|done].
    destruct (Ascii.eqb_spec d LF) as [->|]; [|done].
    intros [= <-]. split; [lia|]. apply list_elem_of_further, list_elem_of_here.
Qed.

#[local] Arguments eol_here : simpl never.

Lemma match_here_app s b x :
  match_here s = Some x → match_here (s ++ b) = Some x.
Proof.
  destruct s as [|c t]; simpl; [done|].
  destruct (Ascii.eqb c "{").
  - destruct (skip_digits t) as [n r] eqn:Hsk.
    destruct n as [|n]; [done|].
    destruct (skip_digits_count _ _ _ Hsk) as (_ & Hle & _).
    destruct r as [|p r]; [done|].
    rewrite (skip_digits_app _ b _ _ _ Hsk).
    unfold skip_plus.
    destruct (Ascii.eqb p "+").
    + destruct r as [|d r2]; [done|]. simpl.
      destruct (Ascii.eqb d "}"); [|done].
      destruct (eol_here r2) as [e|] eqn:He; [|done].
      rewrite (eol_here_app _ b _ He). intros [= <-].
      by rewrite take_app_le.
    + simpl. destruct (Ascii.eqb p "}"); [|done].
      destruct (eol_here r) as [e|] eqn:He; [|done].
      rewrite (eol_here_app _ b _ He). intros [= <-].
      by rewrite take_app_le.
  - destruct (eol_here (c :: t)) as [e|] eqn:He; [|done].
    change (c :: t ++ b) with ((c :: t) ++ b).
    by rewrite (eol_here_app _ b _ He).
Qed.

Lemma match_here_none_app s b :
  match_here s = None → LF ∈ s → match_here (s ++ b) = None.
Proof.
  destruct s as [|c t]; simpl; [by intros _ ?%elem_of_nil|].
  destruct (Ascii.eqb_spec c "{") as [->|Hc].
  - intros Hm [[=]|Hin]%elem_of_cons.
    destruct (skip_digits t) as [n r] eqn:Hsk.
    pose proof (skip_digits_rest_LF _ _ _ Hsk Hin) as Hr.
    destruct r as [|p r]; [by apply elem_of_nil in Hr|].
    rewrite (skip_digits_app _ b _ _ _ Hsk).
    destruct n as [|n]; [done|].
    revert Hm. unfold skip_plus.
    destruct (Ascii.eqb_spec p "+") as [->|Hp].
    + apply elem_of_cons in Hr as [[=]|Hr].
      destruct r as [|d r2]; [by apply elem_of_nil in Hr|]. simpl.
      destruct (Ascii.eqb_spec d "}") as [->|]; [|done].
      apply elem_of_cons in Hr as [[=]|Hr].
      destruct (eol_here r2) as [e|] eqn:He; [done|].
      by rewrite (eol_here_none_app _ b He Hr).
    + simpl. destruct (Ascii.eqb_spec p "}") as [->|]; [|done].
      apply elem_of_cons in Hr as [[=]|Hr].
      destruct (eol_here r) as [e|] eqn:He; [done|].
      by rewrite (eol_here_none_app _ b He Hr).
  - intros Hm Hin.
    destruct (eol_here (c :: t)) as [e|] eqn:He; [done|].
    change (c :: t ++ b) with ((c :: t) ++ b).
    by rewrite (eol_here_none_app _ b He Hin).
Qed.

Lemma match_here_bounds s n g :
  match_here s = Some (n, g) → 1 ≤ n ≤ length s ∧ LF ∈ s.
Proof.
  destruct s as [|c t]; simpl; [done|].
  destruct (Ascii.eqb c "{").
  - destruct (skip_digits t) as [k r] eqn:Hsk.
    destruct k as [|k]; [done|].
    destruct (skip_digits_count _ _ _ Hsk) as (Heq & Hle & _).
    assert (length t = S k + length r) as Hlen.
    { rewrite Heq at 1. rewrite length_app, length_take. lia. }
    assert (∀ x, x ∈ r → x ∈ t) as Hsub.
    { intros x Hx. rewrite Heq. apply elem_of_app. by right. }
    unfold skip_plus. destruct r as [|p r]; [done|].
    destruct (Ascii.eqb p "+").
    + destruct r as [|d r2]; [done|].
      destruct (Ascii.eqb d "}"); [|done].
      destruct (eol_here r2) as [e|] eqn:He; [|done]. intros [= <- <-].
      destruct (eol_here_bounds _ _ He) as [? Hin]. simpl in *.
      split; [lia|]. apply list_elem_of_further, Hsub.
      by do 2 apply list_elem_of_further.
    + destruct (Ascii.eqb p "}"); [|done].
      destruct (eol_here r) as [e|] eqn:He; [|done]. intros [= <- <-].
      destruct (eol_here_bounds _ _ He) as [? Hin]. simpl in *.
      split; [lia|]. apply list_elem_of_further, Hsub.
      by apply list_elem_of_further.
  - destruct (eol_here (c :: t)) as [e|] eqn:He; [|done]. intros [= <- <-].
    destruct (eol_here_bounds _ _ He) as [? Hin]. done.
Qed.

#[local] Arguments match_here : simpl never.

Lemma regex_exec_bounds s m :
  regex_exec s = Some m →
  1 ≤ match0 m ∧ index m + match0 m ≤ length s ∧ LF ∈ s.
Proof.
  revert m. induction s as [|c t IH]; intros m; [done|].
  cbn [regex_exec].
  destruct (match_here (c :: t)) as [[n g]|] eqn:Hm.
  - intros [= <-]. simpl.
    destruct (match_here_bounds _ _ _ Hm) as [[? ?] ?]. simpl in *.
    repeat split; [done | lia | done].
  - destruct (regex_exec t) as [m'|]; [|done]. intros [= <-]. simpl.
    destruct (IH _ eq_refl) as (? & ? & ?).
    repeat split; [done | lia | by apply list_elem_of_further].
Qed.

Lemma regex_exec_app s b m :
  regex_exec s = Some m → regex_exec (s ++ b) = Some m.
Proof.
  revert m. induction s as [|c t IH]; intros m; [done|].
  change ((c :: t) ++ b) with (c :: (t ++ b)).
  cbn [regex_exec].
  destruct (match_here (c :: t)) as [[n g]|] eqn:Hm.
  - intros [= <-].
    change (c :: (t ++ b)) with ((c :: t) ++ b).
    by rewrite (match_here_app _ b _ Hm).
  - destruct (regex_exec t) as [m'|] eqn:Ht; [|done]. intros [= <-].
    destruct (regex_exec_bounds _ _ Ht) as (_ & _ & Hin).
    change (c :: (t ++ b)) with ((c :: t) ++ b).
    rewrite (match_here_none_app _ b Hm); [|by apply list_elem_of_further].
    by rewrite (IH _ eq_refl).
Qed.

End Regex.

(** *** Facts about the loop *)

Section Loop.

Implicit Types st : framer.

Lemma iterate_shrinks st st' e :
  iterate st = Next st' e →
  length (_incomingBuffer st') < length (_incomingBuffer st).
Proof.
  unfold iterate.
  destruct (regex_exec (_incomingBuffer st)) as [m|] eqn:Hm; [|done].
  destruct (regex_exec_bounds _ _ Hm) as (H1 & H2 & _).
  destruct (0 <? _literalRemaining st)%N eqn:Hlr; simpl.
  - destruct (N.of_nat _ <? _)%N eqn:Hlen; [done|].
    intros [= <- <-]. simpl. rewrite length_drop.
    apply N.ltb_lt in Hlr. apply N.ltb_ge in Hlen. lia.
  - destruct (match2 m); intros [= <- <-]; simpl; rewrite length_drop; lia.
Qed.

Lemma iterate_app st st' e b :
  iterate st = Next st' e →
  iterate (append_chunk st b) = Next (append_chunk st' b) e.
Proof.
  unfold iterate, append_chunk. simpl.
  destruct (regex_exec (_incomingBuffer st)) as [m|] eqn:Hm; [|done].
  rewrite (regex_exec_app _ b _ Hm).
  destruct (regex_exec_bounds _ _ Hm) as (H1 & H2 & _).
  destruct (0 <? _literalRemaining st)%N eqn:Hlr; simpl.
  - destruct (N.of_nat (length (_incomingBuffer st)) <? _)%N eqn:Hlen; [done|].
    apply N.ltb_ge in Hlen.
    replace (N.of_nat (length (_incomingBuffer st ++ b)) <? _literalRemaining st)%N
      with false by (symmetry; apply N.ltb_ge; rewrite length_app; lia).
    intros [= <- <-]. simpl.
    rewrite take_app_le, drop_app_le by lia. done.
  - destruct (match2 m); intros [= <- <-]; simpl;
      rewrite ?take_app_le, ?drop_app_le by lia; done.
Qed.

Lemma loop_fuel f1 f2 st :
  length (_incomingBuffer st) ≤ f1 → length (_incomingBuffer st) ≤ f2 →
  loop f1 st = loop f2 st.
Proof.
  revert f2 st. induction f1 as [|f1 IH]; intros f2 st H1 H2.
  - destruct f2 as [|f2]; [done|]. simpl.
    destruct (iterate st) as [|st' e] eqn:Hit; [done|].
    apply iterate_shrinks in Hit. lia.
  - simpl. destruct f2 as [|f2]; simpl.
    + destruct (iterate st) as [|st' e] eqn:Hit; [done|].
      apply iterate_shrinks in Hit. lia.
    + destruct (iterate st) as [|st' e] eqn:Hit; [done|].
      pose proof (iterate_shrinks _ _ _ Hit).
      rewrite (IH f2 st') by lia. done.
Qed.

(** The fuel never runs out: the state the loop returns is one where the
    [while] loop of the source has really stopped. *)
Lemma loop_complete f st :
  length (_incomingBuffer st) ≤ f → iterate (loop f st).2 = Exit.
Proof.
  revert st. induction f as [|f IH]; intros st Hf; simpl.
  - unfold iterate. destruct (_incomingBuffer st); [done|simpl in Hf; lia].
  - destruct (iterate st) as [|st' e] eqn:Hit; [done|].
    pose proof (iterate_shrinks _ _ _ Hit).
    specialize (IH st'). destruct (loop f st') as [out fin]. simpl in *.
    apply IH. lia.
Qed.

Lemma loop_app f st b :
  length (_incomingBuffer st) ≤ f →
  loop (length (_incomingBuffer st ++ b)) (append_chunk st b) =
  let '(o1, s1) := loop f st in
  let '(o2, s2) := loop (length (_incomingBuffer s1 ++ b)) (append_chunk s1 b) in
  (o1 ++ o2, s2).
Proof.
  revert st. induction f as [|f IH]; intros st Hf.
  - simpl. by destruct (loop _ _).
  - simpl. destruct (iterate st) as [|st' e] eqn:Hit.
    { by destruct (loop _ _). }
    pose proof (iterate_shrinks _ _ _ Hit) as Hlt.
    destruct (length (_incomingBuffer st ++ b)) as [|k] eqn:Hk.
    { rewrite length_app in Hk. lia. }
    simpl. rewrite (iterate_app _ _ _ b Hit).
    rewrite (loop_fuel k (length (_incomingBuffer st' ++ b)));
      [|simpl; rewrite length_app in *; lia|simpl; lia].
    rewrite (IH st') by lia.
    destruct (loop f st') as [o1 s1].
    destruct (loop _ (append_chunk s1 b)) as [o2 s2].
    by destruct e.
Qed.

Lemma append_chunk_app st a b :
  append_chunk st (a ++ b) = append_chunk (append_chunk st a) b.
Proof. unfold append_chunk. simpl. by rewrite app_assoc. Qed.

Lemma _onData_app st a b :
  _onData st (a ++ b) =
  let '(o1, s1) := _onData st a in
  let '(o2, s2) := _onData s1 b in
  (o1 ++ o2, s2).
Proof.
  unfold _onData. rewrite append_chunk_app.
  change (_incomingBuffer (append_chunk (append_chunk st a) b))
    with (_incomingBuffer (append_chunk st a) ++ b).
  by rewrite (loop_app (length (_incomingBuffer (append_chunk st a)))).
Qed.

Lemma feed_cons st c cs :
  feed st (c :: cs) = _onData st (c ++ concat cs).
Proof.
  revert st c. induction cs as [|d cs IH]; intros st c.
  - simpl. rewrite app_nil_r. destruct (_onData st c) as [o1 s1].
    by rewrite app_nil_r.
  - change (feed st (c :: d :: cs))
      with (let '(o1, st1) := _onData st c in
            let '(o2, st2) := feed st1 (d :: cs) in (o1 ++ o2, st2)).
    simpl concat. rewrite _onData_app.
    destruct (_onData st c) as [o1 s1]. by rewrite IH.
Qed.

(** [_onData] returns, and where it returns the loop of the source has
    stopped: no match is left, or a literal is still incomplete. *)
Lemma _onData_stops st chunk : iterate (_onData st chunk).2 = Exit.
Proof. unfold _onData. by apply loop_complete. Qed.

End Loop.


(** *** The empty literal *)

Section EmptyLiteral.

Implicit Types s p l rest : text.

Lemma first_LF_unique p1 p2 r1 r2 :
  p1 ++ LF :: r1 = p2 ++ LF :: r2 → LF ∉ p1 → LF ∉ p2 → p1 = p2 ∧ r1 = r2.
Proof.
  revert p2. induction p1 as [|a p1 IH]; intros [|b p2]; simpl.
  - by intros [= ->].
  - intros [= <- _] _ []. apply list_elem_of_here.
  - intros [= -> _] []. apply list_elem_of_here.
  - intros [= -> Heq] H1 H2.
    destruct (IH p2 Heq) as [-> ->]; [| |done].
    + intros ?. apply H1. by apply list_elem_of_further.
    + intros ?. apply H2. by apply list_elem_of_further.
Qed.

Lemma eol_here_shape s e :
  eol_here s = Some e →
  ∃ cr rest, s = cr ++ LF :: rest ∧ (cr = [] ∨ cr = [CR]) ∧ e = S (length cr).
Proof.
  unfold eol_here. destruct s as [|c t]; [done|].
  destruct (Ascii.eqb_spec c LF) as [->|_].
  { intros [= <-]. exists [], t. auto. }
  destruct (Ascii.eqb_spec c CR) as [->|_]; [|done].
  destruct t as [|d t]; [done|].
  destruct (Ascii.eqb_spec d LF) as [->|_]; [|done].
  intros [= <-]. exists [CR], t. auto.
Qed.

Lemma digits_no_LF ds : Forall (λ c, is_digit c = true) ds → LF ∉ ds.
Proof.
  intros Hall Hin. rewrite Forall_forall in Hall.
  specialize (Hall _ Hin). by rewrite is_digit_LF in Hall.
Qed.

Lemma digits_no_brace ds : Forall (λ c, is_digit c = true) ds → brace ∉ ds.
Proof.
  intros Hall Hin. rewrite Forall_forall in Hall.
  by specialize (Hall _ Hin).
Qed.

(** What [match_here] accepts ends at the first line feed, and has no
    opening brace after its first character. *)
Lemma match_here_shape s n g :
  match_here s = Some (n, g) →
  ∃ pre rest, s = pre ++ LF :: rest ∧ (LF ∉ pre) ∧ (brace ∉ tail pre).
Proof.
  unfold match_here. destruct s as [|c t]; [done|].
  destruct (Ascii.eqb_spec c "{") as [->|Hc].
  - destruct (skip_digits t) as [k r] eqn:Hsk.
    destruct k as [|k]; [done|].
    destruct (skip_digits_count _ _ _ Hsk) as (Heq & _ & Hall).
    pose proof (digits_no_LF _ Hall) as HLF.
    pose proof (digits_no_brace _ Hall) as Hbr.
    set (ds := take (S k) t) in *. clearbody ds.
    unfold skip_plus. destruct r as [|q r]; [done|].
    destruct (Ascii.eqb_spec q "+") as [->|_].
    + destruct r as [|d r2]; [done|].
      destruct (Ascii.eqb_spec d "}") as [->|_]; [|done].
      destruct (eol_here r2) as [e|] eqn:He; [|done]. intros _.
      destruct (eol_here_shape _ _ He) as (cr & rest & -> & Hcr & _).
      exists ("{"%char :: ds ++ "+"%char :: "}"%char :: cr), rest.
      subst t. split; [by simpl; rewrite <- !app_assoc|].
      destruct Hcr as [-> | ->]; simpl;
        rewrite !not_elem_of_cons, !not_elem_of_app, !not_elem_of_cons;
        repeat split; (done || apply not_elem_of_nil).
    + destruct (Ascii.eqb_spec q "}") as [->|_]; [|done].
      destruct (eol_here r) as [e|] eqn:He; [|done]. intros _.
      destruct (eol_here_shape _ _ He) as (cr & rest & -> & Hcr & _).
      exists ("{"%char :: ds ++ "}"%char :: cr), rest.
      subst t. split; [by simpl; rewrite <- !app_assoc|].
      destruct Hcr as [-> | ->]; simpl;
        rewrite !not_elem_of_cons, !not_elem_of_app, !not_elem_of_cons;
        repeat split; (done || apply not_elem_of_nil).
  - destruct (eol_here (c :: t)) as [e|] eqn:He; [|done]. intros _.
    destruct (eol_here_shape _ _ He) as (cr & rest & -> & Hcr & _).
    exists cr, rest. split; [done|].
    destruct Hcr as [-> | ->]; simpl;
      rewrite ?not_elem_of_cons; repeat split; (done || apply not_elem_of_nil).
Qed.

Lemma regex_exec_empty_literal p term rest :
  LF ∉ p → is_terminator term →
  regex_exec (p ++ txt "{0}" ++ term ++ rest) =
  Some {| index := length p; match0 := 3 + length term;
          match2 := Some (txt "0") |}.
Proof.
  intros Hp Hterm. induction p as [|c p IH].
  - by destruct Hterm as [-> | ->].
  - change ((c :: p) ++ txt "{0}" ++ term ++ rest)
      with (c :: (p ++ txt "{0}" ++ term ++ rest)).
    cbn [regex_exec].
    destruct (match_here (c :: p ++ txt "{0}" ++ term ++ rest))
      as [[n g]|] eqn:Hm.
    + exfalso. destruct (match_here_shape _ _ _ Hm) as (pre & r & Heq & H1 & H2).
      assert (∃ cr, term = cr ++ [LF] ∧ LF ∉ cr) as (cr & -> & Hcr).
      { destruct Hterm as [-> | ->]; [exists [] | exists [CR]];
          (split; [done|]); rewrite ?not_elem_of_cons;
          repeat split; (done || apply not_elem_of_nil). }
      assert (pre = c :: p ++ txt "{0}" ++ cr) as ->.
      { symmetry. eapply first_LF_unique with (r1 := rest) (r2 := r); [|
          |done].
        - rewrite <- Heq. simpl. by rewrite <- !app_assoc.
        - change (txt "{0}") with ["{"%char; "0"%char; "}"%char].
          apply not_elem_of_cons in Hp as [Hc Hp].
          rewrite not_elem_of_cons, !not_elem_of_app, !not_elem_of_cons.
          repeat split; (done || apply not_elem_of_nil). }
      apply H2. simpl. apply elem_of_app. right. left.
    + rewrite IH; [done|].
      intros ?. apply Hp. by right.
Qed.

End EmptyLiteral.

(** The loop alone, every call of [_addToServerQueue] taken to return:
    feeding it a byte stream in any partition into chunks yields the same
    sequence of framed responses (and leaves the framer in the same state)
    as feeding it the whole stream as one chunk. *)
Lemma framer_chunking_invariant (chunks : list text) :
  feed new_framer chunks = _onData new_framer (concat chunks).
Proof.
  destruct chunks as [|c cs].
  - reflexivity.
  - apply feed_cons.
Qed.



End FramerFacts.

Module FramerExamples.
Import Framer.

Example fetch_two_chunks :
  fst (feed new_framer
         [txt "* 1 FETCH (BODY[] {11}" ++ [CR; LF] ++ txt "hello";
          txt " world)" ++ [CR; LF] ++ txt "W3 OK fetched" ++ [CR; LF]])
  = [txt "* 1 FETCH (BODY[] {11}" ++ [CR; LF] ++ txt "hello world)";
     txt "W3 OK fetched"].
Proof. vm_compute. reflexivity. Qed.

End FramerExamples.
(* ===================================================================== *)
(** ** Properties of the client *)
(* ===================================================================== *)

Module ClientFacts.
Import JS Client Notions.
#[local] Open Scope client_scope.

(** Reading a field of a client after fields were assigned. *)
Ltac fsimpl :=
  cbn [options port host secureMode _serverQueue _processingServerData
       _connectionReady _globalAcceptUntagged _clientQueue _canSend
       _tagCounter _currentCommand _idleTimer _socketTimeoutTimer
       compressed framer socket _socketOnData promises timers trace
       set_secureMode set_serverQueue set_processingServerData
       set_connectionReady set_globalAcceptUntagged set_clientQueue
       set_canSend set_tagCounter set_currentCommand set_idleTimer
       set_socketTimeoutTimer set_compressed set_framer set_socket
       set_socketOnData set_promises set_timers set_trace
       readyState onopen onclose onerror ondata].

Tactic Notation "fsimpl" "in" hyp(H) :=
  cbn [options port host secureMode _serverQueue _processingServerData
       _connectionReady _globalAcceptUntagged _clientQueue _canSend
       _tagCounter _currentCommand _idleTimer _socketTimeoutTimer
       compressed framer socket _socketOnData promises timers trace
       set_secureMode set_serverQueue set_processingServerData
       set_connectionReady set_globalAcceptUntagged set_clientQueue
       set_canSend set_tagCounter set_currentCommand set_idleTimer
       set_socketTimeoutTimer set_compressed set_framer set_socket
       set_socketOnData set_promises set_timers set_trace
       readyState onopen onclose onerror ondata] in H.

Tactic Notation "fsimpl" "in" "*" :=
  cbn [options port host secureMode _serverQueue _processingServerData
       _connectionReady _globalAcceptUntagged _clientQueue _canSend
       _tagCounter _currentCommand _idleTimer _socketTimeoutTimer
       compressed framer socket _socketOnData promises timers trace
       set_secureMode set_serverQueue set_processingServerData
       set_connectionReady set_globalAcceptUntagged set_clientQueue
       set_canSend set_tagCounter set_currentCommand set_idleTimer
       set_socketTimeoutTimer set_compressed set_framer set_socket
       set_socketOnData set_promises set_timers set_trace
       readyState onopen onclose onerror ondata] in *.

(** Running the monad, one construct at a time. *)
Lemma run_bind {A B} (m : M A) (k : A → M B) c :
  bind m k c = match m c with
               | Done a c' => k a c'
               | Raise e c' => Raise e c'
               end.
Proof. reflexivity. Qed.

Lemma run_read {A B} (f : client → A) (k : A → M B) c :
  bind (read f) k c = k (f c) c.
Proof. reflexivity. Qed.

Lemma run_write {B} (f : client → client) (k : unit → M B) c :
  bind (write f) k c = k tt (f c).
Proof. reflexivity. Qed.

Lemma run_ret {A B} (a : A) (k : A → M B) c : bind (ret a) k c = k a c.
Proof. reflexivity. Qed.

Lemma run_throw {A B} (e : val) (k : A → M B) c :
  bind (throw e) k c = Raise e c.
Proof. reflexivity. Qed.

Lemma run_lift_Ret {A B} (a : A) (k : A → M B) c :
  bind (lift (Ret a)) k c = k a c.
Proof. reflexivity. Qed.

Lemma run_lift_Thr {A B} (e : val) (k : A → M B) c :
  bind (lift (Thr e)) k c = Raise e c.
Proof. reflexivity. Qed.

Lemma bind_assoc {A B C} (m : M A) (k : A → M B) (h : B → M C) c :
  bind (bind m k) h c = bind m (λ a, bind (k a) h) c.
Proof. unfold bind. by destruct (m c). Qed.

Lemma run_emit {B} (e : effect) (k : unit → M B) c :
  bind (emit e) k c = k tt (set_trace (trace c ++ [e]) c).
Proof. reflexivity. Qed.

Lemma run_when_true {B} (m : M unit) (k : unit → M B) c :
  bind (when true m) k c = bind m k c.
Proof. reflexivity. Qed.

Lemma run_when_false {B} (m : M unit) (k : unit → M B) c :
  bind (when false m) k c = k tt c.
Proof. reflexivity. Qed.

Lemma run_Done {A B} (a : A) (k : A → M B) c c' (m : M A) :
  m c = Done a c' → bind m k c = k a c'.
Proof. unfold bind. by intros ->. Qed.

Lemma run_Raise {A B} e (k : A → M B) c c' (m : M A) :
  m c = Raise e c' → bind m k c = Raise e c'.
Proof. unfold bind. by intros ->. Qed.

(** Running the monad: bring the first action to the front and perform it
    when it is a known one. *)
Ltac msimpl :=
  repeat first
    [ rewrite bind_assoc
    | rewrite run_ret
    | rewrite run_write
    | rewrite run_read
    | rewrite run_throw
    | rewrite run_lift_Ret
    | rewrite run_lift_Thr
    | rewrite run_emit
    | rewrite run_when_true
    | rewrite run_when_false ];
  cbn beta.

(** The last action of a computation. *)
Ltac mdone :=
  unfold ret, write, read, throw, emit, when, schedule, lift; cbn beta.

Lemma get_object_Some o k v : o !! k = Some v → get (VObject o) k = Ret v.
Proof. intros H. simpl. by rewrite H. Qed.

Lemma get_object_None o k : o !! k = None → get (VObject o) k = Ret VUndefined.
Proof. intros H. simpl. by rewrite H. Qed.

Lemma get_array_length l :
  get (VArray l) "length" = Ret (VNumber (Z.of_nat (length l))).
Proof. reflexivity. Qed.

Lemma truthy_typeof v : truthy (VString (typeof v)) = true.
Proof. by destruct v. Qed.

Lemma truthy_length {A} (x : A) l :
  truthy (VNumber (Z.of_nat (length (x :: l)))) = true.
Proof. simpl. by destruct (length l). Qed.

Lemma truthy_length_nil :
  truthy (VNumber (Z.of_nat (length (@nil val)))) = false.
Proof. reflexivity. Qed.

(** *** The constructor *)

(** C6, as the code has it. A falsy [port] is replaced by 993 when
    [options.useSecureTransport] is truthy and by 143 otherwise. The secure
    flag is the truth value of [options.useSecureTransport] whenever
    [options] has that key, whatever the port; only when the key is missing
    does port 993 turn it on, although the comment of the line says that
    port 993 forces TLS. *)
Theorem constructor_port_and_security host port options :
  let c := ImapClient host port options in
  let opts := default ∅ options in
  let requested := default VUndefined (opts !! "useSecureTransport") in
  (truthy port = true → Client.port c = port) ∧
  (truthy port = false →
   Client.port c = VNumber (if truthy requested then 993 else 143)) ∧
  (opts !! "useSecureTransport" = None →
   secureMode c = strict_eq (Client.port c) (VNumber 993)) ∧
  (∀ v, opts !! "useSecureTransport" = Some v → secureMode c = truthy v) ∧
  Client.options c !! "useSecureTransport" = Some (VBool (secureMode c)).
Proof.
  intros c opts requested. subst c. unfold ImapClient. fsimpl.
  fold opts. fold requested. unfold js_or.
  repeat split.
  - by intros ->.
  - intros ->. by destruct (truthy requested).
  - intros Hnone. rewrite Hnone. by rewrite bool_decide_eq_false_2 by (by intros [? ?]).
  - intros v Hv. subst requested. rewrite Hv. by rewrite bool_decide_eq_true_2 by eauto.
  - by rewrite lookup_insert_eq.
Qed.

(** C6, where the code leaves its comment: on port 993 with
    [useSecureTransport: false] the client is not in secure mode. *)
Lemma port_993_explicitly_insecure :
  let c := ImapClient (VString "imap.example.org") (VNumber 993)
             (Some {[ "useSecureTransport" := VBool false ]}) in
  Client.port c = VNumber 993 ∧ secureMode c = false.
Proof. split; reflexivity. Qed.

(** *** The command record *)

Lemma is_proto_true k : is_proto k = true ↔ k = "__proto__".
Proof. apply String.eqb_eq. Qed.

Lemma is_proto_false k : is_proto k = false ↔ k ≠ "__proto__".
Proof. apply String.eqb_neq. Qed.

Lemma set_object o k x :
  k ≠ "__proto__" → set (VObject o) k x = Ret (VObject (<[k := x]> o)).
Proof. intros Hk. cbn [set]. by apply is_proto_false in Hk as ->. Qed.

(** No upper-cased name is [__proto__]. *)
Lemma upper_char_not_p c : upper_char c ≠ "p"%char.
Proof. destruct c as [[] [] [] [] [] [] [] []]; vm_compute; discriminate. Qed.

Lemma trim_start_In x l : In x (trim_start l) → In x l.
Proof.
  induction l as [|c l IH]; [done|]. simpl.
  destruct (is_space c); [|done]. intros H. right. by apply IH.
Qed.

Lemma trim_In x s :
  In x (list_ascii_of_string (trim s)) → In x (list_ascii_of_string s).
Proof.
  unfold trim. rewrite list_ascii_of_string_of_list_ascii.
  intros H. apply in_rev, trim_start_In, in_rev, trim_start_In in H. done.
Qed.

Lemma upper_not_proto s : trim (toUpperCase s) ≠ "__proto__".
Proof.
  intros Heq.
  assert (In "p"%char (list_ascii_of_string (trim (toUpperCase s)))) as Hin
    by (rewrite Heq; simpl; tauto).
  apply trim_In in Hin. unfold toUpperCase, map_string in Hin.
  rewrite list_ascii_of_string_of_list_ascii in Hin.
  apply in_map_iff in Hin as (c & Hc & _). by apply upper_char_not_p in Hc.
Qed.

Lemma set_upper o s x :
  set (VObject o) (trim (toUpperCase s)) x =
  Ret (VObject (<[trim (toUpperCase s) := x]> o)).
Proof. apply set_object, upper_not_proto. Qed.

Lemma fold_insert_lookup (l : list (string * val)) (d : gmap string val) k :
  NoDup l.*1 →
  fold_left (λ data kv, if is_proto kv.1 then data else <[kv.1 := kv.2]> data)
            l d !! k =
  if is_proto k then d !! k
  else match (list_to_map l : gmap string val) !! k with
       | Some v => Some v
       | None => d !! k
       end.
Proof.
  revert d. induction l as [|[k1 v1] l IH]; intros d Hnd; simpl.
  - rewrite lookup_empty. by destruct (is_proto k).
  - inversion Hnd as [|? ? Hnotin Hnd']; subst.
    rewrite IH by done. destruct (is_proto k) eqn:Hk.
    + destruct (is_proto k1) eqn:Hk1; [done|].
      rewrite lookup_insert_ne; [done|]. intros ->. congruence.
    + destruct (decide (k = k1)) as [->|Hne].
      * rewrite Hk, !lookup_insert_eq.
        by rewrite (not_elem_of_list_to_map_1 _ _ Hnotin).
      * rewrite lookup_insert_ne by done.
        destruct (is_proto k1); [done|]. by rewrite lookup_insert_ne.
Qed.

Lemma apply_options_lookup data (options : option (gmap string val)) k :
  apply_options data options !! k =
  if is_proto k then data !! k
  else match default ∅ options !! k with
       | Some v => Some v
       | None => data !! k
       end.
Proof.
  unfold apply_options.
  rewrite fold_insert_lookup by apply NoDup_fst_map_to_list.
  by rewrite list_to_map_to_list.
Qed.

Lemma add_buckets_lookup au data data' k :
  add_buckets au data = Ret data' → k ≠ "payload" → data' !! k = data !! k.
Proof.
  revert data. induction au as [|a au IH]; intros data; simpl.
  - by intros [= ->].
  - destruct (set _ a (VArray [])) as [pl|e]; [|done]. simpl.
    intros Hrec Hk. rewrite (IH _ Hrec Hk). by rewrite lookup_insert_ne.
Qed.

Lemma normalize_accept_not_proto acceptUntagged :
  Forall (λ name, name ≠ "__proto__") (normalize_accept acceptUntagged).
Proof.
  unfold normalize_accept. apply Forall_forall. intros name Hin.
  apply list_elem_of_In, in_map_iff in Hin as (u & <- & _).
  apply upper_not_proto.
Qed.

Lemma add_buckets_payload names : ∀ data payload,
  Forall (λ name, name ≠ "__proto__") names →
  data !! "payload" = Some (VObject payload) →
  ∃ data' payload',
    add_buckets names data = Ret data' ∧
    data' !! "payload" = Some (VObject payload') ∧
    ∀ k, payload' !! k =
         if bool_decide (k ∈ names) then Some (VArray []) else payload !! k.
Proof.
  induction names as [|name names IH]; intros data payload Hnames Hp.
  - exists data, payload. split; [done|]. split; [done|]. intros k.
    by rewrite bool_decide_eq_false_2 by apply not_elem_of_nil.
  - apply Forall_cons in Hnames as [Hname Hnames].
    cbn [add_buckets]. rewrite Hp. cbn [default from_option]. unfold id.
    rewrite (set_object _ _ _ Hname). cbn [res_bind].
    destruct (IH (<["payload" := VObject (<[name := VArray []]> payload)]> data)
                 (<[name := VArray []]> payload))
      as (data' & payload' & Hrun & Hp' & Hk);
      [done|apply lookup_insert_eq|].
    exists data', payload'. split; [exact Hrun|]. split; [exact Hp'|].
    intros k. rewrite Hk.
    destruct (decide (k ∈ names)) as [Hin|Hnin].
    + rewrite !bool_decide_eq_true_2; [done| |done].
      by apply list_elem_of_further.
    + rewrite (bool_decide_eq_false_2 (k ∈ names)) by done.
      destruct (decide (k = name)) as [->|Hne].
      * rewrite lookup_insert_eq.
        by rewrite bool_decide_eq_true_2 by apply list_elem_of_here.
      * rewrite lookup_insert_ne by done.
        rewrite bool_decide_eq_false_2; [done|].
        rewrite not_elem_of_cons. by split.
Qed.


(** With a [payload] that was left alone, the buckets go in. *)
Lemma add_buckets_fresh names tag request p options :
  Forall (λ name, name ≠ "__proto__") names →
  default ∅ options !! "payload" = None →
  ∃ data,
    add_buckets names
      (apply_options (command_record tag request names p) options) = Ret data ∧
    ∀ k, k ≠ "payload" →
         data !! k =
         apply_options (command_record tag request names p) options !! k.
Proof.
  intros Hnames Hopt.
  set (data0 := apply_options _ _).
  assert (data0 !! "payload" =
          Some (match names with [] => VUndefined | _ => VObject ∅ end))
    as Hp.
  { subst data0. rewrite apply_options_lookup. cbn. by rewrite Hopt. }
  destruct names as [|name names].
  - exists data0. by split.
  - destruct (add_buckets_payload (name :: names) data0 ∅ Hnames Hp)
      as (data & payload' & Hrun & _ & _).
    exists data. split; [exact Hrun|]. intros k Hk.
    by apply (add_buckets_lookup _ _ _ _ Hrun).
Qed.

Section Dispatch.

Variable parser : string → res val.
Variable compiler : val → bool → bool → res (list string).

Lemma plus_response_tag data : get (plus_response data) "tag" = Ret (VString "+").
Proof. reflexivity. Qed.

Lemma normalize_numeric_plus data :
  normalize_numeric (plus_response data) = Ret (plus_response data).
Proof. reflexivity. Qed.

(** A line that starts with [+] goes from the queue to [continuation]. *)
Lemma _processServerQueue_plus c data rest :
  _serverQueue c = data :: rest →
  starts_with_plus data = true →
  _processServerQueue parser compiler c =
  continuation (set_serverQueue rest (set_idleTimer false c)).
Proof.
  intros Hq Hplus. unfold _processServerQueue.
  rewrite run_read, Hq. unfold _clearIdle.
  rewrite run_write, run_write.
  unfold try_catch. rewrite run_bind, Hplus. cbn [ret].
  rewrite normalize_numeric_plus. msimpl.
  rewrite plus_response_tag. msimpl. done.
Qed.

(** C9. When no command is current, dispatching a line that starts with
    [+] throws a [TypeError]: reading [data] of [false] gives [undefined],
    and reading [length] of that throws, outside the [try] block. The line
    has left the queue, nothing was sent, the error funnel was not entered
    (no [onerror], no [console.error], the socket untouched), and
    [_processingServerData] keeps its value. *)
Theorem continuation_without_command_throws c data rest :
  _serverQueue c = data :: rest →
  starts_with_plus data = true →
  _currentCommand c = VBool false →
  _processServerQueue parser compiler c =
  Raise TypeError (set_serverQueue rest (set_idleTimer false c)).
Proof.
  intros Hq Hplus Hcur.
  rewrite (_processServerQueue_plus _ _ _ Hq Hplus).
  unfold continuation. msimpl. fsimpl.
  rewrite Hcur. reflexivity.
Qed.


Lemma send_connected str c sk :
  socket c = Some sk →
  send str c =
  Done tt (set_trace (trace c ++ [Esend (compressed c) str])
             (set_socketTimeoutTimer true c)).
Proof.
  intros Hs. unfold send. msimpl. fsimpl.
  destruct (compressed c); [done|]. msimpl. fsimpl. by rewrite Hs.
Qed.

(** C4, as the code has it. A [+] response makes the client send the next
    data chunk of the current command, with CRLF appended exactly when no
    chunk is left after it; when no chunk remains it sends a bare CRLF,
    whatever [errorResponseExpectsEmptyLine] is, set or not: the test is
    [typeof ...], a string that is never empty. [_canSend] keeps its
    value either way. *)
Theorem continuation_answer c data rest cur chunks sk :
  _serverQueue c = data :: rest →
  starts_with_plus data = true →
  _currentCommand c = VObject cur →
  cur !! "data" = Some (VArray chunks) →
  socket c = Some sk →
  ∃ c', _processServerQueue parser compiler c = Done tt c' ∧
        _canSend c' = _canSend c ∧
        match chunks with
        | chunk :: more =>
            trace c' =
              trace c ++ [Esend (compressed c)
                            (ToString chunk +:+
                             match more with [] => CRLF | _ => "" end)] ∧
            _currentCommand c' = VObject (<["data" := VArray more]> cur)
        | [] =>
            trace c' = trace c ++ [Esend (compressed c) CRLF] ∧
            _currentCommand c' = VObject cur
        end.
Proof.
  intros Hq Hplus Hcur Hdata Hs.
  rewrite (_processServerQueue_plus _ _ _ Hq Hplus).
  unfold continuation. msimpl. fsimpl. rewrite Hcur.
  rewrite (get_object_Some _ _ _ Hdata). msimpl.
  rewrite get_array_length. msimpl.
  destruct chunks as [|chunk more].
  - rewrite truthy_length_nil. cbn [get]. msimpl.
    rewrite truthy_typeof. msimpl.
    erewrite run_Done by (eapply send_connected; fsimpl; exact Hs).
    eexists. split; [reflexivity|]. simpl. done.
  - rewrite truthy_length. cbn [shift set is_proto String.eqb Ascii.eqb Bool.eqb]. msimpl.
    rewrite get_array_length. msimpl.
    erewrite run_Done by (eapply send_connected; fsimpl; exact Hs).
    eexists. split; [reflexivity|]. simpl.
    split; [done|]. split; [|done].
    by destruct more.
Qed.


(** *** The completion callback *)

(** The callback of a command record, given the response object the
    dispatcher hands it (after [_processResponse] has set [code] and
    [humanReadable] on it). When the command name, upper-cased and trimmed,
    is NO or BAD the promise is rejected with an [Error] whose message is
    [humanReadable], or ["Error"] when that is missing or empty, and which
    has a [code] property equal to the response's [code] when that is
    there (and not empty). For any other name, OK among them, the promise is
    resolved with the response object. *)
Lemma completion_settles p r c :
  promises c !! p = Some Pending →
  let name :=
    trim (toUpperCase (ToString
      (js_or (default VUndefined (r !! "command")) (VString "")))) in
  let hr := default VUndefined (r !! "humanReadable") in
  let code := default VUndefined (r !! "code") in
  let outcome :=
    if bool_decide (name ∈ ["NO"; "BAD"]) then
      Rejected (VError (if truthy hr then ToString hr else "Error")
                       (if truthy code then {[ "code" := code ]} else ∅))
    else Resolved (VObject r) in
  completion p (VObject r) c =
  Done tt (set_promises (<[p := outcome]> (promises c)) c).
Proof.
  intros Hp name hr code outcome. unfold completion.
  cbn [isError and_get truthy get]. msimpl.
  assert (toString (js_or (default VUndefined (r !! "command")) (VString ""))
          = Ret (ToString (js_or (default VUndefined (r !! "command"))
                                 (VString "")))) as ->.
  { unfold js_or. destruct (default VUndefined (r !! "command")) as
      [| |[]|n|s| | | |]; try reflexivity.
    - simpl. by destruct (n =? 0)%Z.
    - simpl. by destruct (s =? "")%string. }
  msimpl. fold name. subst outcome.
  destruct (bool_decide (name ∈ ["NO"; "BAD"])).
  - msimpl. fold hr. fold code.
    assert (new_Error (js_or hr (VString "Error")) =
            VError (if truthy hr then ToString hr else "Error") ∅) as ->.
    { unfold js_or. destruct (truthy hr) eqn:Hhr; [|done]. by destruct hr. }
    destruct (truthy code); msimpl;
      cbn [set is_proto String.eqb Ascii.eqb Bool.eqb]; msimpl;
      unfold reject, settle; mdone; by rewrite Hp.
  - unfold resolve, settle. mdone. by rewrite Hp.
Qed.

(** *** Options *)


End Dispatch.

End ClientFacts.
(* ===================================================================== *)
(** ** What every turn of the client preserves *)
(* ===================================================================== *)

Module Invariants.
Import JS Client Properties Notions ClientFacts.
#[local] Open Scope client_scope.

Section Rules.

Context {A B : Type} (I : client → Prop).
Implicit Types (c : client) (m : M A) (k : A → M B).

Lemma ha_ret (a : A) c : I c → holds_after I (ret a) c.
Proof. done. Qed.

Lemma ha_throw e c : I c → holds_after I (throw (A := A) e) c.
Proof. done. Qed.

Lemma ha_lift (r : res A) c : I c → holds_after I (lift r) c.
Proof. by destruct r. Qed.

Lemma ha_read (f : client → A) c : I c → holds_after I (read f) c.
Proof. done. Qed.

Lemma ha_bind_assoc {C} m k (h : B → M C) c :
  holds_after I (bind m (λ a, bind (k a) h)) c →
  holds_after I (bind (bind m k) h) c.
Proof. unfold holds_after. by rewrite bind_assoc. Qed.

Lemma ha_bind_ret (a : A) k c :
  holds_after I (k a) c → holds_after I (bind (ret a) k) c.
Proof. done. Qed.

Lemma ha_bind_throw e k c : I c → holds_after I (bind (throw e) k) c.
Proof. done. Qed.

Lemma ha_bind_read (f : client → A) k c :
  holds_after I (k (f c)) c → holds_after I (bind (read f) k) c.
Proof. done. Qed.

Lemma ha_bind_lift (r : res A) k c :
  I c → (∀ a, r = Ret a → holds_after I (k a) c) →
  holds_after I (bind (lift r) k) c.
Proof. destruct r; [by intros _ H; apply H|done]. Qed.

Lemma ha_bind_inv m k c :
  inv I m → (∀ a c', I c' → holds_after I (k a) c') → I c →
  holds_after I (bind m k) c.
Proof.
  intros Hm Hk Hc. specialize (Hm c Hc). unfold holds_after, bind in *.
  destruct (m c); [by apply Hk|done].
Qed.

Lemma ha_try_catch m (h : val → M A) c :
  inv I m → (∀ e c', I c' → holds_after I (h e) c') → I c →
  holds_after I (try_catch m h) c.
Proof.
  intros Hm Hh Hc. specialize (Hm c Hc). unfold holds_after, try_catch in *.
  destruct (m c); [done|by apply Hh].
Qed.

End Rules.

Lemma ha_write (I : client → Prop) (f : client → client) c :
  I (f c) → holds_after I (write f) c.
Proof. done. Qed.

Lemma ha_bind_write {B} (I : client → Prop) (f : client → client)
    (k : unit → M B) c :
  holds_after I (k tt) (f c) → holds_after I (bind (write f) k) c.
Proof. done. Qed.

Lemma ha_inv {A} (I : client → Prop) (m : M A) c :
  inv I m → I c → holds_after I m c.
Proof. intros H. apply H. Qed.

(** Symbolic execution of a computation, one action at a time. [leaf]
    proves the invariant of the client an action has led to; [known]
    proves [inv] for the methods already dealt with. *)
Ltac ha_step leaf known :=
  lazymatch goal with
  | |- inv _ _ => intros ? ?
  | |- holds_after _ (bind (bind _ _) _) _ => apply ha_bind_assoc
  | |- holds_after _ (bind (ret _) _) _ => apply ha_bind_ret
  | |- holds_after _ (bind (throw _) _) _ => apply ha_bind_throw; leaf
  | |- holds_after _ (bind (read _) _) _ => apply ha_bind_read
  | |- holds_after _ (bind (write _) _) _ => apply ha_bind_write
  | |- holds_after _ (bind (emit _) _) _ => apply ha_bind_write
  | |- holds_after _ (bind (lift ?r) _) _ =>
      apply ha_bind_lift; [leaf | intros ? ?]
  | |- holds_after _ (bind (try_catch _ _) _) _ =>
      eapply ha_bind_inv;
        [ intros ? ?; eapply ha_try_catch; [ | intros ? ? ? | assumption ]
        | intros ? ? ? | leaf ]
  | |- holds_after _ (bind (when _ _) _) _ => unfold when at 1
  | |- holds_after _ (bind (if ?b then _ else _) _) _ => destruct b eqn:?
  | |- holds_after _ (bind (match ?x with _ => _ end) _) _ => destruct x eqn:?
  | |- holds_after _ (bind _ _) _ =>
      eapply ha_bind_inv; [ known | intros ? ? ? | leaf ]
  | |- holds_after _ (ret _) _ => apply ha_ret; leaf
  | |- holds_after _ (throw _) _ => apply ha_throw; leaf
  | |- holds_after _ (lift _) _ => apply ha_lift; leaf
  | |- holds_after _ (read _) _ => apply ha_read; leaf
  | |- holds_after _ (write _) _ => apply ha_write; leaf
  | |- holds_after _ (emit _) _ => apply ha_write; leaf
  | |- holds_after _ (try_catch _ _) _ =>
      eapply ha_try_catch; [ | intros ? ? ? | leaf ]
  | |- holds_after _ (when _ _) _ => unfold when at 1
  | |- holds_after _ (if ?b then _ else _) _ => destruct b eqn:?
  | |- holds_after _ (match ?x with _ => _ end) _ => destruct x eqn:?
  | |- holds_after _ (let '(_, _) := ?x in _) _ => destruct x eqn:?
  | |- holds_after _ _ _ => apply ha_inv; [ known | leaf ]
  end.

Ltac ha leaf known := repeat (cbv zeta; ha_step leaf known).

(** *** The tag counter *)

Ltac counter_leaf := unfold counter_is in *; fsimpl; solve [ auto ].

Create HintDb counter discriminated.

Ltac counter_auto :=
  ha ltac:(counter_leaf) ltac:(solve [ eauto with counter ]).

Section Counter.

Variable parser : string → res val.
Variable compiler : val → bool → bool → res (list string).
Implicit Types n : N.

Lemma settle_counter n p s : inv (counter_is n) (settle p s).
Proof.
  intros c H. unfold settle. apply ha_write.
  unfold counter_is in *. by destruct (promises c !! p) as [[]|].
Qed.
Hint Resolve settle_counter : counter.

Lemma send_counter n str : inv (counter_is n) (send str).
Proof. unfold send. counter_auto. Qed.
Hint Resolve send_counter : counter.


Ltac counter_unfold f := unfold f; counter_auto.

Lemma resolve_counter n p v : inv (counter_is n) (resolve p v).
Proof. apply settle_counter. Qed.

Lemma reject_counter n p v : inv (counter_is n) (reject p v).
Proof. apply settle_counter. Qed.
Hint Resolve resolve_counter reject_counter : counter.

Lemma new_promise_counter n : inv (counter_is n) new_promise.
Proof. counter_unfold new_promise. Qed.

Lemma _enterIdle_counter n : inv (counter_is n) _enterIdle.
Proof. counter_unfold _enterIdle. Qed.

Lemma _clearIdle_counter n : inv (counter_is n) _clearIdle.
Proof. counter_unfold _clearIdle. Qed.

Lemma schedule_counter n : inv (counter_is n) schedule.
Proof. counter_unfold schedule. Qed.

Lemma setHandler_counter n command callback :
  inv (counter_is n) (setHandler command callback).
Proof. counter_unfold setHandler. Qed.

Lemma _disableCompression_counter n : inv (counter_is n) _disableCompression.
Proof. counter_unfold _disableCompression. Qed.

Lemma deliver_error_counter n evt : inv (counter_is n) (deliver_error evt).
Proof. counter_unfold deliver_error. Qed.
Hint Resolve new_promise_counter _enterIdle_counter _clearIdle_counter
  schedule_counter setHandler_counter _disableCompression_counter
  deliver_error_counter : counter.

Lemma run_then_counter n k : inv (counter_is n) (run_then k).
Proof. destruct k; counter_unfold run_then. Qed.
Hint Resolve run_then_counter : counter.

Lemma tearDown_counter n k : inv (counter_is n) (tearDown k).
Proof. counter_unfold tearDown. Qed.
Hint Resolve tearDown_counter : counter.

Lemma close_executor_counter n k : inv (counter_is n) (close_executor k).
Proof. counter_unfold close_executor. Qed.
Hint Resolve close_executor_counter : counter.

Lemma close_counter n : inv (counter_is n) close.
Proof. counter_unfold close. Qed.

Lemma _onError_counter n evt : inv (counter_is n) (_onError evt).
Proof. counter_unfold _onError. Qed.

Lemma completion_counter n p response : inv (counter_is n) (completion p response).
Proof. counter_unfold completion. Qed.
Hint Resolve close_counter _onError_counter completion_counter : counter.

Lemma call_function_counter n f args : inv (counter_is n) (call_function f args).
Proof. counter_unfold call_function. Qed.
Hint Resolve call_function_counter : counter.

Lemma _sendRequest_counter n : inv (counter_is n) (_sendRequest compiler).
Proof. counter_unfold _sendRequest. Qed.
Hint Resolve _sendRequest_counter : counter.

Lemma _processServerResponse_counter n response :
  inv (counter_is n) (_processServerResponse response).
Proof. counter_unfold _processServerResponse. Qed.

Lemma after_response_counter n response :
  inv (counter_is n) (after_response compiler response).
Proof. counter_unfold after_response. Qed.

Lemma continuation_counter n : inv (counter_is n) continuation.
Proof. counter_unfold continuation. Qed.
Hint Resolve _processServerResponse_counter after_response_counter
  continuation_counter : counter.

Lemma _processServerQueue_counter n :
  inv (counter_is n) (_processServerQueue parser compiler).
Proof. counter_unfold _processServerQueue. Qed.
Hint Resolve _processServerQueue_counter : counter.

Lemma _addToServerQueue_counter n cmd :
  inv (counter_is n) (_addToServerQueue parser compiler cmd).
Proof. counter_unfold _addToServerQueue. Qed.
Hint Resolve _addToServerQueue_counter : counter.

Lemma onData_loop_counter n fuel :
  inv (counter_is n) (onData_loop parser compiler fuel).
Proof.
  induction fuel as [|fuel IH]; simpl; counter_auto.
Qed.
Hint Resolve onData_loop_counter : counter.

Lemma _onData_counter n chunk : inv (counter_is n) (_onData parser compiler chunk).
Proof. counter_unfold _onData. Qed.

Lemma connect_counter n : inv (counter_is n) connect.
Proof. counter_unfold connect. Qed.

Lemma upgrade_counter n : inv (counter_is n) upgrade.
Proof. counter_unfold upgrade. Qed.

Lemma enableCompression_counter n : inv (counter_is n) enableCompression.
Proof. counter_unfold enableCompression. Qed.
Hint Resolve _onData_counter connect_counter upgrade_counter
  enableCompression_counter : counter.

Lemma run_handler_counter n h evt chunk :
  inv (counter_is n) (run_handler parser compiler h evt chunk).
Proof. destruct h; counter_unfold run_handler. Qed.

Lemma set_readyState_counter n r : inv (counter_is n) (set_readyState r).
Proof.
  intros c H. unfold set_readyState. apply ha_write.
  unfold counter_is in *. by destruct (socket c).
Qed.

Lemma socket_handler_counter n f : inv (counter_is n) (socket_handler f).
Proof. counter_unfold socket_handler. Qed.
Hint Resolve run_handler_counter set_readyState_counter
  socket_handler_counter : counter.


Lemma enqueueCommand_counter request acceptUntagged options c :
  holds_after (counter_is (increment (_tagCounter c)))
    (enqueueCommand compiler request acceptUntagged options) c.
Proof. unfold enqueueCommand, draw_tag. counter_auto. Qed.

Lemma logout_counter c :
  holds_after
    (counter_is (if enqueues Call_logout c then increment (_tagCounter c)
                 else _tagCounter c))
    (logout compiler) c.
Proof.
  unfold logout, new_promise, enqueues.
  destruct (socket c) as [sk|] eqn:Hs.
  - rewrite bool_decide_eq_true_2 by eauto.
    unfold holds_after. msimpl. fsimpl.
    set (c1 := set_promises _ c).
    unfold try_catch. rewrite run_bind. msimpl. subst c1. fsimpl. rewrite Hs.
    msimpl. set (c1 := set_socket _ _).
    pose proof (enqueueCommand_counter (VString "LOGOUT") VUndefined None c1)
      as Hc. unfold holds_after in Hc.
    change (_tagCounter c1) with (_tagCounter c) in Hc.
    rewrite run_bind.
    destruct (enqueueCommand _ _ _ _ c1) as [a c2|e c2]; simpl in Hc |- *.
    + done.
    + unfold counter_is in *. by destruct (promises c2 !! _) as [[]|].
  - rewrite bool_decide_eq_false_2 by (by intros [? ?]).
    unfold holds_after. msimpl. fsimpl.
    unfold try_catch. rewrite run_bind. msimpl. fsimpl. rewrite Hs.
    unfold throw, reject, settle. mdone. fsimpl.
    unfold counter_is. by destruct (_ !! _) as [[]|].
Qed.

(** What one event does to the counter. *)
Lemma step_counter c e :
  _tagCounter (step parser compiler c e) =
  if enqueues e c then increment (_tagCounter c) else _tagCounter c.
Proof.
  unfold step.
  assert (∀ m : M unit, inv (counter_is (_tagCounter c)) m →
                        _tagCounter (final (m c)) = _tagCounter c) as Hinv.
  { intros m Hm. by apply Hm. }
  destruct e; cbn [enqueues react];
    try (apply Hinv; counter_auto; fail).
  - (* logout *)
    pose proof (logout_counter c) as H. unfold holds_after in H.
    unfold enqueues in H. unfold bind.
    by destruct (logout compiler c).
  - (* enqueueCommand *)
    match goal with
    | |- context [enqueueCommand _ ?r ?a ?o] =>
        pose proof (enqueueCommand_counter r a o c) as H
    end.
    unfold holds_after in H. unfold bind.
    by destruct (enqueueCommand _ _ _ _ c).
Qed.




Lemma increment_succ n : (n < 2 ^ 53)%N → increment n = (n + 1)%N.
Proof. intros Hn. unfold increment. by apply N.ltb_lt in Hn as ->. Qed.

(** The counter counts the calls. *)
Lemma run_counter events : ∀ c,
  (_tagCounter c + N.of_nat (calls parser compiler events c) ≤ 2 ^ 53)%N →
  _tagCounter (run parser compiler events c) =
  (_tagCounter c + N.of_nat (calls parser compiler events c))%N.
Proof.
  induction events as [|e events IH]; intros c; cbn [calls].
  - intros _. unfold run. simpl. lia.
  - intros Hle. change (run parser compiler (e :: events) c)
      with (run parser compiler events (step parser compiler c e)).
    pose proof (step_counter c e) as Hstep.
    destruct (enqueues e c).
    + rewrite increment_succ in Hstep by lia.
      rewrite IH; rewrite Hstep; lia.
    + rewrite IH; rewrite Hstep; [lia|]. simpl in Hle. lia.
Qed.

(** The executor of [enqueueCommand], from the record on. *)
Lemma executor_pushes (names : list string) (data0 data : gmap string val)
    p c :
  add_buckets names data0 = Ret data →
  (try_catch
     (let* data := lift (add_buckets names data0) in
      write (λ c, set_clientQueue (_clientQueue c ++ [VObject data]) c) >>
      let* can := read _canSend in
      when can (_sendRequest compiler))
     (reject p) >>
   ret p) c =
  send_if_free compiler p
    (set_clientQueue (_clientQueue c ++ [VObject data]) c).
Proof.
  intros Hadd. unfold send_if_free, bind at 1 4, try_catch.
  unfold bind at 1 2. rewrite Hadd. reflexivity.
Qed.


End Counter.


(** *** The error funnel *)

Section Funnel.

Variable parser : string → res val.
Variable compiler : val → bool → bool → res (list string).

Lemma get_total v k :
  v ≠ VUndefined → v ≠ VNull → ∃ x, get v k = Ret x.
Proof. destruct v; intros; try done; by eexists. Qed.

Lemma and_get_total v k : ∃ x, and_get v k = Ret x.
Proof.
  unfold and_get. destruct (truthy v) eqn:Hv; [|by eexists].
  apply get_total; by intros ->.
Qed.

Lemma deliver_error_delivers evt c :
  evt ≠ VUndefined → evt ≠ VNull →
  ∃ e, deliver_error evt c = Done tt (set_trace (trace c ++ [Eonerror e]) c).
Proof.
  intros H1 H2. unfold deliver_error.
  destruct (isError evt); [by eexists|].
  destruct (and_get_total evt "data") as [d Hd]. rewrite Hd. msimpl.
  destruct (truthy evt && isError d); [by eexists|].
  destruct (and_get_total d "message") as [m Hm]. rewrite Hm. msimpl.
  destruct (truthy m); msimpl; [by eexists|].
  destruct (get_total evt "data" H1 H2) as [a Ha]. rewrite Ha. msimpl.
  by eexists.
Qed.

Lemma tearDown_delivers evt c :
  evt ≠ VUndefined → evt ≠ VNull → is_closed c →
  ∃ e c', tearDown (ThenOnError evt) c = Done tt c' ∧
          trace c' = trace c ++ [Eonerror e] ∧ is_closed c'.
Proof.
  intros H1 H2 Hc. unfold tearDown. msimpl. fsimpl.
  unfold is_closed in Hc.
  destruct (socket c) as [sk|] eqn:Hs; msimpl; cbn [run_then];
    unfold try_catch;
    match goal with
    | |- context [deliver_error evt ?c1] =>
        destruct (deliver_error_delivers evt c1 H1 H2) as [e ->]
    end; eexists _, _; (split; [reflexivity|]); fsimpl;
    (split; [done|]); unfold is_closed; fsimpl; by rewrite ?Hs.
Qed.

Lemma _onError_closed evt c :
  evt ≠ VUndefined → evt ≠ VNull → is_closed c →
  ∃ e c', _onError evt c = Done tt c' ∧
          trace c' = trace c ++ [Eonerror e] ∧ is_closed c'.
Proof.
  intros H1 H2 Hc. unfold _onError, try_catch, close_executor,
    _disableCompression. msimpl.
  unfold is_closed in Hc.
  destruct (socket c) as [sk|] eqn:Hs.
  - destruct (compressed c) eqn:Hcmp; cbn [negb]; msimpl; fsimpl;
      rewrite ?Hs; msimpl; fsimpl; rewrite ?Hs; fsimpl;
      destruct (readyState sk) eqn:Hr; try done;
      match goal with
      | |- context [tearDown _ ?c1] =>
          destruct (tearDown_delivers evt c1 H1 H2) as (e & c' & -> & Ht & Hc');
            [unfold is_closed; fsimpl; rewrite ?Hs; fsimpl; by rewrite ?Hr|]
      end; eexists _, _; (split; [reflexivity|]); by fsimpl in Ht.
  - rewrite Hc. cbn [negb]. msimpl. fsimpl. rewrite Hs.
    destruct (tearDown_delivers evt c H1 H2) as (e & c' & -> & Ht & Hc').
    { unfold is_closed. by rewrite Hs. }
    by eexists _, _.
Qed.

Lemma deliveries_snoc c c' e :
  trace c' = trace c ++ [Eonerror e] → deliveries c' = S (deliveries c).
Proof.
  unfold deliveries. intros ->.
  rewrite List.filter_app, length_app. simpl. lia.
Qed.

(** C5, as the code has it. Once the connection is closed, every
    invocation of the error path with an event (anything but [undefined]
    and [null]) calls the [onerror] sink once more: [close()] resolves at
    once each time, and nothing remembers that an error was delivered. *)
Theorem onError_delivers_each_time c evts :
  is_closed c →
  Forall (λ evt, evt ≠ VUndefined ∧ evt ≠ VNull) evts →
  deliveries (run parser compiler (map Call_onError evts) c) =
  deliveries c + length evts.
Proof.
  intros Hc Hall. revert c Hc.
  induction Hall as [|evt evts [H1 H2] _ IH]; intros c Hc.
  - simpl. lia.
  - change (run parser compiler (map Call_onError (evt :: evts)) c)
      with (run parser compiler (map Call_onError evts)
              (step parser compiler c (Call_onError evt))).
    destruct (_onError_closed evt c H1 H2 Hc) as (e & c' & Heq & Ht & Hc').
    assert (step parser compiler c (Call_onError evt) = c') as ->.
    { unfold step. cbn [react]. by rewrite Heq. }
    rewrite (IH c' Hc'), (deliveries_snoc _ _ _ Ht). simpl. lia.
Qed.

End Funnel.

End Invariants.
(* ===================================================================== *)
(** ** Promises: settled once, or never *)
(* ===================================================================== *)

Module Settlement.
Import JS Client Properties ClientFacts Invariants.
#[local] Open Scope client_scope.

Lemma set_keeps_callback v k x v' :
  set v k x = Ret v' → k ≠ "callback" →
  get v' "callback" = get v "callback".
Proof.
  destruct v; simpl; try done; intros [= <-] Hk; try done;
    destruct (is_proto k); try done; simpl.
  - by rewrite lookup_insert_ne.
  - by rewrite lookup_insert_ne.
Qed.

Lemma set_keeps_completes p v k x v' :
  set v k x = Ret v' → k ≠ "callback" → ¬ completes p v → ¬ completes p v'.
Proof.
  intros Hset Hk Hv. unfold completes in *.
  by rewrite (set_keeps_callback _ _ _ _ Hset Hk).
Qed.

Create HintDb kept discriminated.

Section Kept.

Variable parser : string → res val.
Variable compiler : val → bool → bool → res (list string).
Variable p : nat.
Variable s : promise.

(** What is known about the fields the invariant reads, brought to it. *)
Ltac use_equations :=
  repeat match goal with
    | Heq : socket ?c = _, H : context [socket ?c] |- _ =>
        lazymatch type of H with
        | socket c = _ => fail
        | _ => rewrite Heq in H
        end
    | Heq : _socketOnData ?c = _, H : context [_socketOnData ?c] |- _ =>
        lazymatch type of H with
        | _socketOnData c = _ => fail
        | _ => rewrite Heq in H
        end
    | Heq : _clientQueue ?c = _, H : context [_clientQueue ?c] |- _ =>
        lazymatch type of H with
        | _clientQueue c = _ => fail
        | _ => rewrite Heq in H
        end
    | Heq : socket ?c = _ |- context [socket ?c] => rewrite Heq
    | Heq : _socketOnData ?c = _ |- context [_socketOnData ?c] => rewrite Heq
    | Heq : _clientQueue ?c = _ |- context [_clientQueue ?c] => rewrite Heq
    end.

(** The invariant after fields were assigned that it does not read, or
    that were given values it accepts. *)
Ltac kept_leaf :=
  first
    [ assumption
    | match goal with
      | H : status_kept p s _ |- status_kept p s _ =>
          let Hp := fresh "Hp" in
          let Hu := fresh "Hu" in
          let Hs := fresh "Hs" in
          destruct H as [Hp Hu];
          split;
          [ fsimpl; first [ exact Hp | apply lookup_app_l_Some; exact Hp ]
          | intros Hs; specialize (Hu Hs);
            unfold unreferenced in *; fsimpl in *;
            destruct Hu as (? & ? & ? & ? & ?);
            use_equations; cbn [socket_free default from_option id] in *;
            fsimpl;
            repeat split;
            solve [ eauto
                  | by constructor
                  | eauto 6 using set_keeps_completes with kept
                  | unfold completes in *; simpl; intuition (eauto; congruence)
                  | intuition (eauto; simpl; eauto) ] ]
      end ].

(** A promise made in a state where [p] exists is another one. *)
Ltac fresh_promise :=
  intros _;
  match goal with
  | H : status_kept p s ?c |- length (promises ?c) ≠ p =>
      let H' := fresh in
      destruct H as [H' _]; apply lookup_lt_Some in H'; lia
  end.

Ltac kept_known := solve [ eauto with kept ].
Ltac kept_auto := ha ltac:(kept_leaf) ltac:(kept_known).

Lemma settle_kept q o :
  (s = Pending → q ≠ p) → inv (status_kept p s) (settle q o).
Proof.
  intros Hq c [Hp Hu]. unfold settle. apply ha_write.
  destruct (promises c !! q) as [[]|] eqn:Hl; try done.
  split; [|done]. fsimpl.
  destruct (decide (q = p)) as [->|Hne].
  - rewrite Hp in Hl. injection Hl as ->. by destruct Hq.
  - by rewrite list_lookup_insert_ne.
Qed.

Lemma resolve_kept q v :
  (s = Pending → q ≠ p) → inv (status_kept p s) (resolve q v).
Proof. apply settle_kept. Qed.

Lemma reject_kept q v :
  (s = Pending → q ≠ p) → inv (status_kept p s) (reject q v).
Proof. apply settle_kept. Qed.

Hint Resolve settle_kept resolve_kept reject_kept : kept.
Hint Extern 1 (_ = Pending → length (promises _) ≠ _) => fresh_promise : kept.
Hint Extern 1 (_ ≠ "callback") => discriminate : kept.
Hint Extern 1 (_ = Pending → handler_free _ (HtearDown (ThenCaller _))) =>
  cbn [handler_free]; fresh_promise : kept.
Hint Extern 1 (_ = Pending → handler_free _ (HtearDown (ThenLogout _))) =>
  cbn [handler_free]; fresh_promise : kept.
Hint Extern 1 (_ = Pending → handler_free _ (HtearDown (ThenOnError _))) =>
  (by intros _) : kept.

Lemma push_promise_kept c :
  status_kept p s c →
  status_kept p s (set_promises (promises c ++ [Pending]) c).
Proof.
  intros [Hp Hu]. split; [|done]. fsimpl. by apply lookup_app_l_Some.
Qed.

Lemma _enterIdle_kept : inv (status_kept p s) _enterIdle.
Proof. unfold _enterIdle. kept_auto. Qed.

Lemma _clearIdle_kept : inv (status_kept p s) _clearIdle.
Proof. unfold _clearIdle. kept_auto. Qed.

Lemma schedule_kept : inv (status_kept p s) schedule.
Proof. unfold schedule. kept_auto. Qed.

Lemma send_kept str : inv (status_kept p s) (send str).
Proof. unfold send. kept_auto. Qed.

Lemma deliver_error_kept evt : inv (status_kept p s) (deliver_error evt).
Proof. unfold deliver_error. kept_auto. Qed.

Hint Resolve _enterIdle_kept _clearIdle_kept schedule_kept send_kept
  deliver_error_kept : kept.


Lemma setHandler_kept command callback :
  callback ≠ VFunction (FCompletion p) →
  inv (status_kept p s) (setHandler command callback).
Proof.
  intros Hcb c [Hp Hu]. unfold setHandler. apply ha_write.
  split; [done|]. intros Hs. destruct (Hu Hs) as (? & ? & Hh & ? & ?).
  unfold unreferenced. fsimpl. repeat split; try done.
  intros k. destruct (decide (trim (toUpperCase command) = k)) as [<-|Hne].
  - rewrite lookup_insert_eq. by intros [= ->].
  - by rewrite lookup_insert_ne.
Qed.

Lemma _disableCompression_kept : inv (status_kept p s) _disableCompression.
Proof. unfold _disableCompression. kept_auto. Qed.
Hint Resolve _disableCompression_kept : kept.

Lemma run_then_kept k :
  (s = Pending → handler_free p (HtearDown k)) →
  inv (status_kept p s) (run_then k).
Proof.
  intros Hk. destruct k; cbn [handler_free] in Hk; unfold run_then; kept_auto.
Qed.
Hint Resolve run_then_kept : kept.

Lemma tearDown_kept k :
  (s = Pending → handler_free p (HtearDown k)) →
  inv (status_kept p s) (tearDown k).
Proof. intros Hk. unfold tearDown. kept_auto. Qed.
Hint Resolve tearDown_kept : kept.

Lemma close_executor_kept k :
  (s = Pending → handler_free p (HtearDown k)) →
  inv (status_kept p s) (close_executor k).
Proof. intros Hk. unfold close_executor. kept_auto. Qed.
Hint Resolve close_executor_kept : kept.

Lemma close_kept : inv (status_kept p s) close.
Proof. unfold close, new_promise. kept_auto. Qed.

Lemma _onError_kept evt : inv (status_kept p s) (_onError evt).
Proof. unfold _onError. kept_auto. Qed.
Hint Resolve close_kept _onError_kept : kept.

Lemma completion_kept q response :
  (s = Pending → q ≠ p) → inv (status_kept p s) (completion q response).
Proof. intros Hq. unfold completion. kept_auto. Qed.

Lemma call_function_kept f args :
  (s = Pending → f ≠ VFunction (FCompletion p)) →
  inv (status_kept p s) (call_function f args).
Proof.
  intros Hf. unfold call_function.
  destruct f as [| | | | | | |[q| |id]|]; try (kept_auto; fail).
  apply completion_kept. intros Hs ->. by apply (Hf Hs).
Qed.
Hint Resolve call_function_kept : kept.


(** What the invariant says about the head of the queue. *)
Lemma queue_head_free c v l :
  status_kept p s c → _clientQueue c = v :: l →
  (s = Pending → ¬ completes p v) ∧
  (s = Pending → Forall (λ r, ¬ completes p r) l).
Proof.
  intros [_ Hu] Hq.
  split; intros Hs; destruct (Hu Hs) as (_ & HF & _); rewrite Hq in HF;
    by inversion HF.
Qed.

Lemma _sendRequest_kept : inv (status_kept p s) (_sendRequest compiler).
Proof.
  unfold _sendRequest, _clearIdle, _enterIdle. intros c H.
  apply ha_bind_read. destruct (_clientQueue c) as [|v l] eqn:Hq.
  { kept_auto. }
  destruct (queue_head_free _ _ _ H Hq) as [Hv Hl].
  kept_auto.
Qed.
Hint Resolve _sendRequest_kept : kept.


Lemma new_record_free tag request au q options data' :
  add_buckets au (apply_options (command_record tag request au q) options)
    = Ret data' →
  default ∅ options !! "callback" ≠ Some (VFunction (FCompletion p)) →
  q ≠ p →
  ¬ completes p (VObject data').
Proof.
  intros Hb Hopt Hq. unfold completes. simpl.
  rewrite (add_buckets_lookup _ _ _ "callback" Hb) by done.
  rewrite apply_options_lookup.
  destruct (default ∅ options !! "callback") as [v|] eqn:Hv.
  - simpl. intros [= ->]. by apply Hopt.
  - unfold command_record. rewrite !lookup_insert_ne by done.
    rewrite lookup_insert_eq. simpl. intros [= ->]. by apply Hq.
Qed.

Lemma enqueue_kept c r :
  status_kept p s c → ¬ completes p r →
  status_kept p s (set_clientQueue (_clientQueue c ++ [r]) c).
Proof.
  intros [Hp Hu] Hr. split; [done|]. intros Hs.
  destruct (Hu Hs) as (? & ? & ? & ? & ?). unfold unreferenced. fsimpl.
  repeat split; try done. apply Forall_app. split; [done|].
  by apply Forall_singleton.
Qed.

Lemma enqueueCommand_kept request acceptUntagged options :
  default ∅ options !! "callback" ≠ Some (VFunction (FCompletion p)) →
  inv (status_kept p s)
      (enqueueCommand compiler request acceptUntagged options).
Proof.
  intros Hopt c H. unfold enqueueCommand, draw_tag, new_promise.
  assert (length (promises c) ≠ p) as Hq.
  { destruct H as [H _]. apply lookup_lt_Some in H. lia. }
  repeat (lazymatch goal with
          | |- holds_after _ (bind (try_catch _ _) _) _ => fail
          | _ => cbv zeta; ha_step ltac:(kept_leaf) ltac:(kept_known)
          end).
  fsimpl.
  eapply ha_bind_inv; [|intros; kept_auto|kept_leaf].
  intros c1 H1. eapply ha_try_catch; [|intros; kept_auto|done].
  intros c2 H2. apply ha_bind_lift; [done|]. intros data' Hd.
  apply ha_bind_write.
  pose proof (new_record_free _ _ _ _ _ _ Hd Hopt Hq) as Hfree.
  pose proof (enqueue_kept _ _ H2 Hfree) as H3.
  kept_auto.
Qed.


Lemma callback_free cur a :
  (s = Pending → ¬ completes p cur) → get cur "callback" = Ret a →
  s = Pending → a ≠ VFunction (FCompletion p).
Proof. intros Hcur Hget Hs ->. by apply (Hcur Hs). Qed.

Lemma handler_value_free (handlers : gmap string val) k :
  (s = Pending → ∀ k, handlers !! k ≠ Some (VFunction (FCompletion p))) →
  s = Pending →
  default VUndefined (handlers !! k) ≠ VFunction (FCompletion p).
Proof.
  intros Hh Hs Heq. apply (Hh Hs k).
  destruct (handlers !! k); simpl in Heq; [by subst|done].
Qed.
Hint Resolve callback_free handler_value_free : kept.

Lemma _processServerResponse_kept response :
  inv (status_kept p s) (_processServerResponse response).
Proof.
  unfold _processServerResponse. intros c H.
  assert (s = Pending → ¬ completes p (_currentCommand c)) as Hcur
    by (intros Hs; apply H, Hs).
  assert (s = Pending →
          ∀ k, _globalAcceptUntagged c !! k ≠ Some (VFunction (FCompletion p)))
    as Hh by (intros Hs; apply H, Hs).
  kept_auto.
Qed.
Hint Resolve _processServerResponse_kept : kept.

Lemma after_response_kept response :
  inv (status_kept p s) (after_response compiler response).
Proof. unfold after_response. kept_auto. Qed.

Lemma continuation_kept : inv (status_kept p s) continuation.
Proof. unfold continuation. kept_auto. Qed.
Hint Resolve after_response_kept continuation_kept : kept.

Lemma _processServerQueue_kept :
  inv (status_kept p s) (_processServerQueue parser compiler).
Proof. unfold _processServerQueue, _clearIdle. kept_auto. Qed.
Hint Resolve _processServerQueue_kept : kept.

Lemma _addToServerQueue_kept cmd :
  inv (status_kept p s) (_addToServerQueue parser compiler cmd).
Proof. unfold _addToServerQueue. kept_auto. Qed.
Hint Resolve _addToServerQueue_kept : kept.

Lemma onData_loop_kept fuel :
  inv (status_kept p s) (onData_loop parser compiler fuel).
Proof. induction fuel as [|fuel IH]; simpl; kept_auto. Qed.
Hint Resolve onData_loop_kept : kept.

Lemma _onData_kept chunk :
  inv (status_kept p s) (_onData parser compiler chunk).
Proof. unfold _onData. kept_auto. Qed.
Hint Resolve _onData_kept : kept.


Lemma promise_exists c : status_kept p s c → length (promises c) ≠ p.
Proof. intros [H _]. apply lookup_lt_Some in H. lia. Qed.

Lemma connect_kept : inv (status_kept p s) connect.
Proof.
  unfold connect, new_promise. intros c H.
  pose proof (promise_exists _ H) as Hq. kept_auto.
Qed.

Lemma logout_kept : inv (status_kept p s) (logout compiler).
Proof.
  unfold logout, new_promise. intros c H.
  pose proof (promise_exists _ H) as Hq.
  assert (inv (status_kept p s)
            (enqueueCommand compiler (VString "LOGOUT") VUndefined None))
    as Henq by (by apply enqueueCommand_kept).
  kept_auto.
Qed.

Lemma upgrade_kept : inv (status_kept p s) upgrade.
Proof. unfold upgrade. kept_auto. Qed.

Lemma enableCompression_kept : inv (status_kept p s) enableCompression.
Proof. unfold enableCompression. kept_auto. Qed.

Lemma run_handler_kept h evt chunk :
  (s = Pending → handler_free p h) →
  inv (status_kept p s) (run_handler parser compiler h evt chunk).
Proof.
  intros Hh. destruct h; cbn [handler_free] in Hh; unfold run_handler;
    kept_auto.
Qed.

Lemma set_readyState_kept r : inv (status_kept p s) (set_readyState r).
Proof.
  intros c H. unfold set_readyState. apply ha_write.
  destruct (socket c) as [sk|] eqn:Hs; kept_leaf.
Qed.

Hint Resolve connect_kept logout_kept upgrade_kept enableCompression_kept
  run_handler_kept set_readyState_kept enqueueCommand_kept setHandler_kept
  : kept.

(** The closure an event of the socket runs is one the invariant covers. *)
Lemma socket_handler_free c (f : tcp_socket → handler) :
  status_kept p s c →
  (f = onopen ∨ f = onclose ∨ f = onerror ∨ f = ondata) →
  s = Pending →
  handler_free p (match socket c with Some sk => f sk | None => Hnoop end).
Proof.
  intros [_ Hu] Hf Hs. destruct (Hu Hs) as (_ & _ & _ & Hsock & _).
  destruct (socket c) as [sk|]; [|done]. simpl in Hsock.
  destruct Hf as [Hf|[Hf|[Hf|Hf]]]; subst f; tauto.
Qed.

Lemma socket_event_kept (f : tcp_socket → handler) evt chunk :
  (f = onopen ∨ f = onclose ∨ f = onerror ∨ f = ondata) →
  inv (status_kept p s)
      (let* h := socket_handler f in
       run_handler parser compiler h evt chunk).
Proof.
  intros Hf c H. unfold socket_handler.
  apply ha_bind_assoc, ha_bind_read, ha_bind_ret, ha_inv; [|done].
  apply run_handler_kept. by apply socket_handler_free.
Qed.

Lemma react_kept e :
  foreign p e → inv (status_kept p s) (react parser compiler e).
Proof.
  intros He. destruct e; cbn [foreign] in He; cbn [react];
    try (kept_auto; fail).
  - (* the socket opens *)
    intros c H. eapply ha_bind_inv; [apply set_readyState_kept| |done].
    intros _ c' H'. apply socket_event_kept; auto.
  - (* the socket closes *)
    intros c H. eapply ha_bind_inv; [apply set_readyState_kept| |done].
    intros _ c' H'. apply socket_event_kept; auto.
  - apply socket_event_kept; auto.
  - apply socket_event_kept; auto.
  - (* inflated data *)
    intros c H. apply ha_bind_read.
    destruct (_socketOnData c) as [h|] eqn:Hh; [|by apply ha_throw].
    apply ha_inv; [|done]. apply run_handler_kept. intros Hs.
    destruct H as [_ Hu]. destruct (Hu Hs) as (_ & _ & _ & _ & Hd).
    by rewrite Hh in Hd.
Qed.

Lemma step_kept c e :
  foreign p e → status_kept p s c → status_kept p s (step parser compiler c e).
Proof. intros He H. by apply (react_kept e He c H). Qed.

Lemma run_kept events c :
  Forall (foreign p) events → status_kept p s c →
  status_kept p s (run parser compiler events c).
Proof.
  intros Hall. revert c. induction Hall as [|e events He _ IH]; intros c H.
  - done.
  - apply IH. by apply step_kept.
Qed.


(** [tearDown] lets go of every command record and settles nothing but
    the promise of the [close()] call it belongs to. *)
Lemma tearDown_abandons k c :
  promises c !! p = Some s →
  (s = Pending → held_by_commands p c ∧ handler_free p (HtearDown k)) →
  holds_after (status_kept p s) (tearDown k) c.
Proof.
  intros Hp Hheld. unfold tearDown.
  do 5 (apply ha_bind_assoc || apply ha_bind_write).
  repeat (apply ha_bind_assoc || apply ha_bind_write).
  apply ha_bind_read. fsimpl.
  assert (∀ c1, promises c1 = promises c →
                _currentCommand c1 = VBool false → _clientQueue c1 = [] →
                _globalAcceptUntagged c1 = _globalAcceptUntagged c →
                _socketOnData c1 = _socketOnData c →
                (s = Pending → socket_free p (socket c1)) →
                holds_after (status_kept p s) (run_then k) c1) as Hend.
  { intros c1 Hps Hcur Hq Hh Hd Hsk.
    apply ha_inv; [apply run_then_kept; intros Hs; by apply Hheld|].
    split; [by rewrite Hps|]. intros Hs.
    destruct (Hheld Hs) as [(Hhandlers & _ & Hdata) _].
    unfold unreferenced. rewrite Hcur, Hq, Hh, Hd.
    repeat split; [by unfold completes|by constructor|done|by apply Hsk|done]. }
  destruct (socket c) as [sk|] eqn:Hsk.
  - apply ha_bind_write. apply Hend; fsimpl; try done.
    intros Hs. destruct (Hheld Hs) as [(_ & Hfree & _) _].
    rewrite Hsk in Hfree. cbn [socket_free] in *. by destruct Hfree.
  - apply ha_bind_ret. apply Hend; fsimpl; try done.
    intros _. by rewrite Hsk.
Qed.


End Kept.

End Settlement.
(* ===================================================================== *)
(** ** The theorems at work *)
(* ===================================================================== *)

Module Witnesses.
Import JS Client Properties Notions Scenarios ClientFacts Invariants
  Settlement.

(** *** Scenarios of the specification *)

(** Scenario 2: a simple command. *)
Example simple_command :
  let c := session (in_flight "CAPABILITY" ++ [line "W1 OK done"]) in
  trace c = [Eonready; Esend false ("W1 CAPABILITY" +:+ CRLF)] ∧
  promises c !! 1 =
    Some (Resolved (VObject (<["humanReadable" := VString "done"]>
                               (<["tag" := VString "W1"]>
                                  (<["command" := VString "OK"]>
                                     (<["attributes" :=
                                          VArray [text_attr "done"]]> ∅)))))) ∧
  _canSend c = true.
Proof. vm_compute. repeat split; reflexivity. Qed.

(** Scenario 7: an error response. *)
Example error_response :
  let c := session (in_flight "LOGIN" ++
                    [line "W1 NO [AUTHENTICATIONFAILED] bad creds"]) in
  promises c !! 1 =
    Some (Rejected (VError "bad creds"
                      {[ "code" := VString "AUTHENTICATIONFAILED" ]})).
Proof. vm_compute. reflexivity. Qed.

(** A response code is stored on the response under its own name in
    lower case, whatever that name is: one called [COMMAND] replaces the
    command name the completion callback is about to read. *)
Example response_code_named_command :
  let c := session (in_flight "LOGIN" ++ [line "W1 NO [COMMAND OK] denied"]) in
  ∃ r, promises c !! 1 = Some (Resolved (VObject r)) ∧
       r !! "command" = Some (VString "OK") ∧
       r !! "code" = Some (VString "COMMAND").
Proof. eexists. vm_compute. repeat split; reflexivity. Qed.

(** *** The dispatcher *)

(** A [+] line arrives before any command was sent. *)
Definition unsolicited : client :=
  set_serverQueue ["+ idling"] (session [Call_connect; Socket_open]).

Lemma continuation_without_command_throws_witness :
  _serverQueue unsolicited = ["+ idling"] ∧
  starts_with_plus "+ idling" = true ∧
  _currentCommand unsolicited = VBool false ∧
  _processServerQueue toy_parser toy_compiler unsolicited =
  Raise TypeError (set_serverQueue [] (set_idleTimer false unsolicited)).
Proof.
  split; [reflexivity|]. split; [reflexivity|]. split; [reflexivity|].
  apply (continuation_without_command_throws toy_parser toy_compiler
           unsolicited "+ idling" []); reflexivity.
Defined.

(** [W1 LOGIN] went out in one piece; the command has no
    [errorResponseExpectsEmptyLine]; the server sends a [+] line. *)
Definition login_sent : client :=
  set_serverQueue ["+ go ahead"] (session (in_flight "LOGIN")).

Definition login_record : gmap string val :=
  match _currentCommand login_sent with
  | VObject o => o
  | _ => ∅
  end.

Definition login_socket : tcp_socket :=
  default {| readyState := Closed; onopen := Hnoop; onclose := Hnoop;
             onerror := Hnoop; ondata := Hnoop |} (socket login_sent).

Lemma continuation_answer_witness :
  _serverQueue login_sent = ["+ go ahead"] ∧
  starts_with_plus "+ go ahead" = true ∧
  _currentCommand login_sent = VObject login_record ∧
  login_record !! "data" = Some (VArray []) ∧
  socket login_sent = Some login_socket ∧
  login_record !! "errorResponseExpectsEmptyLine" = None ∧
  trace (final (_processServerQueue toy_parser toy_compiler login_sent)) =
  trace login_sent ++ [Esend false CRLF].
Proof.
  assert (_serverQueue login_sent = ["+ go ahead"]) as H1 by reflexivity.
  assert (starts_with_plus "+ go ahead" = true) as H2 by reflexivity.
  assert (_currentCommand login_sent = VObject login_record) as H3
    by (vm_compute; reflexivity).
  assert (login_record !! "data" = Some (VArray [])) as H4
    by (vm_compute; reflexivity).
  assert (socket login_sent = Some login_socket) as H5
    by (vm_compute; reflexivity).
  repeat (split; [assumption|]).
  split; [vm_compute; reflexivity|].
  destruct (continuation_answer toy_parser toy_compiler login_sent
              "+ go ahead" [] login_record [] login_socket H1 H2 H3 H4 H5)
    as (c' & -> & _ & Htrace & _).
  exact Htrace.
Defined.

(** *** The framer and a dispatch that throws *)

(** C1, the code at work. A [+] line arrives while no command is current,
    so that its dispatch throws, and another line follows. The loop of
    [_onData] alone makes two responses of them. In the client the
    exception leaves [_onData] before [_command] is cleared: when the two
    lines come in one chunk the second stays in the buffer and is not handed
    over; when they come in two chunks the second is handed over behind the
    first, in one piece with it. *)
Lemma thrown_dispatch_glues_lines :
  let c := session [Call_connect; Socket_open] in
  let first := Framer.txt "+ idling" ++ [Framer.CR; Framer.LF] in
  let second :=
    Framer.txt "* OK IMAP4rev1 ready" ++ [Framer.CR; Framer.LF] in
  let at_once :=
    step toy_parser toy_compiler c (Socket_data (first ++ second)) in
  let apart :=
    step toy_parser toy_compiler
      (step toy_parser toy_compiler c (Socket_data first))
      (Socket_data second) in
  _currentCommand c = VBool false ∧
  Notions.framed Framer.new_framer (first ++ second) =
    ["+ idling"; "* OK IMAP4rev1 ready"] ∧
  (∃ c', react toy_parser toy_compiler (Socket_data first) c
         = Raise TypeError c') ∧
  _serverQueue at_once = [] ∧
  framer at_once =
    {| Framer._incomingBuffer := second;
       Framer._command := Framer.txt "+ idling";
       Framer._literalRemaining := 0 |} ∧
  _serverQueue apart = ["+ idling* OK IMAP4rev1 ready"] ∧
  framer apart = Framer.new_framer.
Proof.
  split; [reflexivity|]. split; [vm_compute; reflexivity|].
  split; [eexists; vm_compute; reflexivity|].
  repeat split; vm_compute; reflexivity.
Qed.

(** *** The completion callback *)

Definition failed_login : gmap string val :=
  <["tag" := VString "W1"]>
    (<["command" := VString " no "]>
       (<["code" := VString "AUTHENTICATIONFAILED"]>
          (<["humanReadable" := VString "bad creds"]> ∅))).

Lemma completion_settles_witness :
  let c := set_promises [Pending] (ImapClient VUndefined VUndefined None) in
  promises c !! 0 = Some Pending ∧
  promises (final (completion 0 (VObject failed_login) c)) =
  [Rejected (VError "bad creds"
               {[ "code" := VString "AUTHENTICATIONFAILED" ]})].
Proof.
  intros c. split; [reflexivity|].
  rewrite (completion_settles 0 failed_login c eq_refl).
  vm_compute. reflexivity.
Defined.

(** *** Options *)

Definition overriding : option (gmap string val) :=
  Some (<["tag" := VString "X"]>
          (<["errorResponseExpectsEmptyLine" := VBool true]> ∅)).

Definition noop : gmap string val := {[ "command" := VString "NOOP" ]}.



(** *** Tags *)



(** *** The error funnel *)

Definition hung_up : client := session closed.

Lemma hung_up_closed : is_closed hung_up.
Proof. unfold is_closed. vm_compute. discriminate. Qed.

Lemma onError_delivers_each_time_witness :
  let evts := [new_Error (VString "first"); VString "second"] in
  is_closed hung_up ∧
  Forall (λ evt, evt ≠ VUndefined ∧ evt ≠ VNull) evts ∧
  deliveries (run toy_parser toy_compiler (map Call_onError evts) hung_up) =
  deliveries hung_up + 2.
Proof.
  intros evts.
  assert (Forall (λ evt, evt ≠ VUndefined ∧ evt ≠ VNull) evts) as Hall
    by (repeat constructor; discriminate).
  split; [exact hung_up_closed|]. split; [exact Hall|].
  exact (onError_delivers_each_time toy_parser toy_compiler hung_up evts
           hung_up_closed Hall).
Defined.

(** C5, the claim as stated fails: after the connection was closed, two
    invocations of the error path reach [onerror] twice. *)
Lemma onError_twice_after_close :
  is_closed hung_up ∧
  deliveries hung_up = 0 ∧
  deliveries (run toy_parser toy_compiler
                [Call_onError (new_Error (VString "first"));
                 Call_onError (new_Error (VString "second"))] hung_up) = 2.
Proof.
  split; [exact hung_up_closed|]. split; vm_compute; reflexivity.
Qed.

(** The same with what really happens: the server hangs up, which is
    reported; a command enqueued afterwards is written to the dead socket,
    and its timeout is reported too. *)
Example two_reports_for_one_dead_connection :
  trace (session (greeted ++
                  [Socket_close;
                   Call_enqueueCommand (VString "NOOP") VUndefined None;
                   Timer_socket])) =
  [Eonready;
   Eonerror (VError "Socket closed unexceptedly!" ∅);
   Esend false ("W1 NOOP" +:+ CRLF);
   Eonerror (VError "undefined Socket timed out!" ∅)].
Proof. vm_compute. reflexivity. Qed.

(** *** Completions *)

(** A command is in flight when the client is closed. Promise 1 is its
    completion. *)
Definition abandoned : client :=
  session (in_flight "NOOP" ++ [Call_close; Socket_close]).

Lemma abandoned_unreferenced : unreferenced 1 abandoned.
Proof.
  unfold unreferenced.
  assert (_currentCommand abandoned = VBool false) as -> by reflexivity.
  assert (_clientQueue abandoned = []) as -> by reflexivity.
  assert (_globalAcceptUntagged abandoned = ∅) as -> by reflexivity.
  assert (_socketOnData abandoned = None) as -> by reflexivity.
  assert (socket abandoned =
          Some {| readyState := Closed; onopen := Honopen 0;
                  onclose := Hnoop; onerror := Hnoop; ondata := Hnoop |})
    as -> by (vm_compute; reflexivity).
  repeat split; try done.
Qed.

(** A command is in flight when [close()] is called, and the socket has
    not closed yet. Promise 1 is the completion of the command, promise 2
    the one of [close()], which [tearDown] resolves. *)
Definition closing_down : client := session (in_flight "NOOP" ++ [Call_close]).

Lemma closing_down_held : held_by_commands 1 closing_down.
Proof.
  unfold held_by_commands.
  assert (_globalAcceptUntagged closing_down = ∅) as -> by reflexivity.
  assert (_socketOnData closing_down = None) as -> by reflexivity.
  assert (socket closing_down =
          Some {| readyState := Closing; onopen := Honopen 0;
                  onclose := HtearDown (ThenCaller 2);
                  onerror := HtearDown (ThenCaller 2); ondata := HonData |})
    as -> by (vm_compute; reflexivity).
  repeat split; try done.
Qed.



End Witnesses.
(* ===================================================================== *)
(** ** The framer, line by line *)
(* ===================================================================== *)

Module FramerLines.
Import Framer Lines FramerFacts.

#[local] Arguments eol_here : simpl never.
#[local] Arguments match_here : simpl never.

Implicit Types s p l b d rest ds plus term body : text.
Implicit Types st : framer.

(** *** Where the expression matches *)

Lemma regex_exec_none s : LF ∉ s → regex_exec s = None.
Proof.
  intros H. destruct (regex_exec s) as [m|] eqn:Hm; [|done].
  by destruct (regex_exec_bounds _ _ Hm) as (_ & _ & ?).
Qed.

Lemma match_here_LF s : match_here (LF :: s) = Some (1, None).
Proof. reflexivity. Qed.

Lemma regex_exec_is_Some s : LF ∈ s → is_Some (regex_exec s).
Proof.
  induction s as [|c t IH]; [by intros ?%elem_of_nil|].
  intros Hin. cbn [regex_exec].
  destruct (match_here (c :: t)) as [[n g]|] eqn:Hm; [by eexists|].
  apply elem_of_cons in Hin as [<-|Hin]; [by rewrite match_here_LF in Hm|].
  destruct (IH Hin) as [m ->]. by eexists.
Qed.

(** The expression matches nowhere inside [p]: the leftmost match of
    [p ++ s] is the leftmost match of [s]. *)
Lemma regex_exec_skip p s :
  (∀ i, i < length p → match_here (drop i (p ++ s)) = None) →
  regex_exec (p ++ s) = shifted (length p) <$> regex_exec s.
Proof.
  induction p as [|c p IH]; intros Hp.
  - simpl. by destruct (regex_exec s) as [[]|].
  - change ((c :: p) ++ s) with (c :: (p ++ s)). cbn [regex_exec].
    pose proof (Hp 0 ltac:(simpl; lia)) as H0. simpl in H0. rewrite H0.
    rewrite IH by (intros i Hi; apply (Hp (S i)); simpl; lia).
    by destruct (regex_exec s) as [[]|].
Qed.

Lemma regex_exec_here s n g :
  match_here s = Some (n, g) →
  regex_exec s = Some {| index := 0; match0 := n; match2 := g |}.
Proof. destruct s; cbn [regex_exec]; by intros ->. Qed.

Lemma regex_exec_match_here s m :
  regex_exec s = Some m →
  match_here (drop (index m) s) = Some (match0 m, match2 m).
Proof.
  revert m. induction s as [|c t IH]; intros m; [done|].
  cbn [regex_exec].
  destruct (match_here (c :: t)) as [[n g]|] eqn:Hm.
  - by intros [= <-].
  - destruct (regex_exec t) as [m'|]; [|done]. intros [= <-]. simpl.
    by apply IH.
Qed.

Lemma terminator_split term :
  is_terminator term → ∃ cr, term = cr ++ [LF] ∧ (cr = [] ∨ cr = [CR]).
Proof. intros [-> | ->]; [exists [] | exists [CR]]; auto. Qed.

Lemma eol_here_terminator term rest :
  is_terminator term → eol_here (term ++ rest) = Some (length term).
Proof. by intros [-> | ->]. Qed.

Lemma skip_digits_run ds s :
  Forall (λ c, is_digit c = true) ds →
  match s with c :: _ => is_digit c = false | [] => True end →
  skip_digits (ds ++ s) = (length ds, s).
Proof.
  intros Hds Hs. induction Hds as [|c ds Hc _ IH]; simpl.
  - destruct s as [|c t]; [done|]. simpl. by rewrite Hs.
  - by rewrite Hc, IH.
Qed.

(** What the expression accepts at the head of a string, exactly. *)
Lemma match_here_inv s n g :
  match_here s = Some (n, g) →
  ∃ pre cr rest,
    s = pre ++ cr ++ LF :: rest ∧ (cr = [] ∨ cr = [CR]) ∧
    n = length pre + length cr + 1 ∧
    ((pre = [] ∧ g = None) ∨
     ∃ ds plus, pre = literal_prefix ds plus ∧ ds ≠ [] ∧
                Forall (λ c, is_digit c = true) ds ∧ is_plus plus ∧
                g = Some ds).
Proof.
  unfold match_here. destruct s as [|c t]; [done|].
  destruct (Ascii.eqb_spec c "{") as [->|Hc].
  - destruct (skip_digits t) as [k r] eqn:Hsk.
    destruct k as [|k]; [done|].
    destruct (skip_digits_count _ _ _ Hsk) as (Heq & Hle & Hall).
    assert (length (take (S k) t) = S k) as Hlen by (rewrite length_take; lia).
    set (ds := take (S k) t) in *. clearbody ds.
    assert (ds ≠ []) as Hne by (by destruct ds).
    unfold skip_plus. destruct r as [|q r]; [done|].
    destruct (Ascii.eqb_spec q "+") as [->|_].
    + destruct r as [|d r2]; [done|].
      destruct (Ascii.eqb_spec d "}") as [->|_]; [|done].
      destruct (eol_here r2) as [e|] eqn:He; [|done]. intros [= <- <-].
      destruct (eol_here_shape _ _ He) as (cr & rest & -> & Hcr & ->).
      exists (literal_prefix ds ["+"%char]), cr, rest.
      split; [|split; [done|split]].
      * subst t. unfold literal_prefix, brace. simpl.
        by rewrite <- !app_assoc.
      * unfold literal_prefix. simpl. rewrite !length_app. simpl. lia.
      * right. exists ds, ["+"%char]. repeat split; auto. by right.
    + destruct (Ascii.eqb_spec q "}") as [->|_]; [|done].
      destruct (eol_here r) as [e|] eqn:He; [|done]. intros [= <- <-].
      destruct (eol_here_shape _ _ He) as (cr & rest & -> & Hcr & ->).
      exists (literal_prefix ds []), cr, rest.
      split; [|split; [done|split]].
      * subst t. unfold literal_prefix, brace. simpl.
        by rewrite <- !app_assoc.
      * unfold literal_prefix. simpl. rewrite !length_app. simpl. lia.
      * right. exists ds, []. repeat split; auto. by left.
  - destruct (eol_here (c :: t)) as [e|] eqn:He; [|done]. intros [= <- <-].
    destruct (eol_here_shape _ _ He) as (cr & rest & -> & Hcr & ->).
    exists [], cr, rest. repeat split; auto; simpl; lia.
Qed.

(** And it accepts every literal prefix that a terminator follows. *)
Lemma match_here_literal ds plus term rest :
  ds ≠ [] → Forall (λ c, is_digit c = true) ds → is_plus plus →
  is_terminator term →
  match_here (literal_prefix ds plus ++ term ++ rest) =
  Some (length (literal_prefix ds plus) + length term, Some ds).
Proof.
  intros Hne Hds Hplus Hterm. unfold literal_prefix, match_here, brace.
  cbn [app]. cbn [Ascii.eqb Bool.eqb].
  rewrite <- !app_assoc.
  rewrite skip_digits_run; [|done|by destruct Hplus as [-> | ->]].
  destruct (length ds) as [|k] eqn:Hk; [by destruct ds|].
  rewrite <- Hk.
  assert (take (length ds) (ds ++ plus ++ ["}"%char] ++ term ++ rest) = ds)
    as -> by (by rewrite take_app_length).
  destruct Hplus as [-> | ->]; cbn [app skip_plus Ascii.eqb Bool.eqb];
    rewrite (eol_here_terminator _ _ Hterm); do 2 f_equal;
    simpl; rewrite ?length_app; simpl; lia.
Qed.

Lemma literal_prefix_no_LF ds plus :
  Forall (λ c, is_digit c = true) ds → is_plus plus →
  LF ∉ literal_prefix ds plus.
Proof.
  intros Hds Hplus. unfold literal_prefix, brace.
  rewrite not_elem_of_cons, !not_elem_of_app, not_elem_of_cons.
  repeat split; try done.
  - by apply digits_no_LF.
  - destruct Hplus as [-> | ->]; [apply not_elem_of_nil|].
    rewrite not_elem_of_cons. split; [done|apply not_elem_of_nil].
  - apply not_elem_of_nil.
Qed.

Lemma cr_no_LF cr : cr = [] ∨ cr = [CR] → LF ∉ cr.
Proof.
  intros [-> | ->]; [apply not_elem_of_nil|].
  rewrite not_elem_of_cons. split; [done|apply not_elem_of_nil].
Qed.

Lemma literal_prefix_snoc ds plus :
  literal_prefix ds plus = (brace :: ds ++ plus) ++ ["}"%char].
Proof. unfold literal_prefix. simpl. by rewrite <- app_assoc. Qed.

Lemma literal_prefix_last ds plus :
  last (literal_prefix ds plus) = Some "}"%char.
Proof. rewrite literal_prefix_snoc. apply last_snoc. Qed.

(** No match starts inside a plain line that a terminator follows. *)
Lemma plain_no_match d term rest :
  plain d → d ≠ [] → is_terminator term →
  match_here (d ++ term ++ rest) = None.
Proof.
  intros (HLF & Hbr & Hcr) Hne Hterm.
  destruct (match_here (d ++ term ++ rest)) as [[n g]|] eqn:Hm; [|done].
  exfalso.
  destruct (match_here_inv _ _ _ Hm) as (pre & cr & r & Heq & Hc & _ & Hpre).
  destruct (terminator_split _ Hterm) as (cr' & -> & Hc').
  assert (d ++ cr' = pre ++ cr) as Hsame.
  { eapply (first_LF_unique _ _ rest r).
    - rewrite <- !app_assoc. simpl. by rewrite <- !app_assoc in Heq.
    - rewrite not_elem_of_app. split; [done|by apply cr_no_LF].
    - rewrite not_elem_of_app. split; [|by apply cr_no_LF].
      destruct Hpre as [[-> _]|(ds & plus & -> & _ & Hds & Hplus & _)];
        [apply not_elem_of_nil|by apply literal_prefix_no_LF]. }
  assert (pre = [] ∨ last pre = Some "}"%char) as Hpre'.
  { destruct Hpre as [[-> _]|(ds & plus & -> & _)]; [by left|right].
    apply literal_prefix_last. }
  clear Hpre Heq Hm.
  destruct Hc' as [-> | ->], Hc as [-> | ->];
    rewrite ?app_nil_r in Hsame.
  - subst pre. by destruct Hpre' as [->|?].
  - apply Hcr. rewrite Hsame. apply last_snoc.
  - destruct Hpre' as [->|Hlast]; [by destruct d|].
    rewrite <- Hsame, last_snoc in Hlast. by injection Hlast.
  - apply app_inj_tail in Hsame as [-> _].
    by destruct Hpre' as [->|?].
Qed.

Lemma plain_drop b i : plain b → i < length b → plain (drop i b) ∧ drop i b ≠ [].
Proof.
  intros (HLF & Hbr & Hcr) Hi.
  assert (drop i b ≠ []) as Hne.
  { intros Heq. apply (f_equal length) in Heq. rewrite length_drop in Heq.
    simpl in Heq. lia. }
  assert (last (drop i b) = last b) as Hlast.
  { rewrite <- (take_drop i b) at 2. rewrite last_app.
    destruct (last (drop i b)) eqn:Hl; [done|].
    by apply last_None in Hl. }
  split; [|done]. unfold plain. rewrite Hlast. repeat split; try done.
  intros Hin. apply HLF. rewrite <- (take_drop i b).
  apply elem_of_app. by right.
Qed.

(** The leftmost match after a plain line is its terminator. *)
Lemma regex_exec_plain b term rest :
  plain b → is_terminator term →
  regex_exec (b ++ term ++ rest) =
  Some {| index := length b; match0 := length term; match2 := None |}.
Proof.
  intros Hb Hterm. rewrite regex_exec_skip.
  - erewrite (regex_exec_here (term ++ rest)).
    + unfold shifted. simpl. by rewrite Nat.add_0_r.
    + unfold match_here.
      destruct Hterm as [-> | ->]; reflexivity.
  - intros i Hi. rewrite drop_app_le by lia.
    destruct (plain_drop _ _ Hb Hi) as [Hd Hne].
    by apply plain_no_match.
Qed.

(** No match starts before a literal prefix when no line feed does. *)
Lemma regex_exec_literal p ds plus term rest :
  LF ∉ p → ds ≠ [] → Forall (λ c, is_digit c = true) ds → is_plus plus →
  is_terminator term →
  regex_exec (p ++ literal_prefix ds plus ++ term ++ rest) =
  Some {| index := length p;
          match0 := length (literal_prefix ds plus) + length term;
          match2 := Some ds |}.
Proof.
  intros Hp Hne Hds Hplus Hterm. rewrite regex_exec_skip.
  - rewrite (regex_exec_here _ _ _
               (match_here_literal _ _ _ rest Hne Hds Hplus Hterm)).
    unfold shifted. simpl. by rewrite Nat.add_0_r.
  - intros i Hi. rewrite drop_app_le by lia.
    destruct (match_here (drop i p ++ literal_prefix ds plus ++ term ++ rest))
      as [[n g]|] eqn:Hm; [|done].
    exfalso.
    destruct (match_here_shape _ _ _ Hm) as (pre & r & Heq & H1 & H2).
    destruct (terminator_split _ Hterm) as (cr & -> & Hcr).
    assert (pre = drop i p ++ literal_prefix ds plus ++ cr) as ->.
    { symmetry. eapply (first_LF_unique _ _ rest r); [| |done].
      - rewrite <- Heq. by rewrite <- !app_assoc.
      - rewrite !not_elem_of_app. repeat split.
        + intros Hin. apply Hp. rewrite <- (take_drop i p).
          apply elem_of_app. by right.
        + by apply literal_prefix_no_LF.
        + by apply cr_no_LF. }
    apply H2.
    destruct (drop i p) as [|c d] eqn:Hd.
    { apply (f_equal length) in Hd. rewrite length_drop in Hd.
      simpl in Hd. lia. }
    simpl. apply elem_of_app. right. unfold literal_prefix. left.
Qed.

(** *** One turn of the loop *)

Lemma iterate_emit st m :
  _literalRemaining st = 0%N →
  regex_exec (_incomingBuffer st) = Some m → match2 m = None →
  iterate st =
  Next (idle_framer (drop (index m + match0 m) (_incomingBuffer st)))
       (Some (_command st ++ take (index m) (_incomingBuffer st))).
Proof.
  intros Hlr Hm Hg. unfold iterate. by rewrite Hm, Hlr, Hg.
Qed.

Lemma iterate_prefix st m ds :
  _literalRemaining st = 0%N →
  regex_exec (_incomingBuffer st) = Some m → match2 m = Some ds →
  iterate st =
  Next {| _incomingBuffer := drop (index m + match0 m) (_incomingBuffer st);
          _command :=
            _command st ++ take (index m + match0 m) (_incomingBuffer st);
          _literalRemaining := Number_of_digits ds |} None.
Proof.
  intros Hlr Hm Hg. unfold iterate. by rewrite Hm, Hlr, Hg.
Qed.

Lemma iterate_body st :
  (0 < _literalRemaining st)%N →
  (_literalRemaining st ≤ N.of_nat (length (_incomingBuffer st)))%N →
  LF ∈ _incomingBuffer st →
  iterate st =
  Next {| _incomingBuffer :=
            drop (N.to_nat (_literalRemaining st)) (_incomingBuffer st);
          _command :=
            _command st ++
            take (N.to_nat (_literalRemaining st)) (_incomingBuffer st);
          _literalRemaining := 0 |} None.
Proof.
  intros Hpos Hle Hin. unfold iterate.
  destruct (regex_exec_is_Some _ Hin) as [m ->].
  apply N.ltb_lt in Hpos. rewrite Hpos.
  by replace (N.of_nat _ <? _)%N with false by (symmetry; by apply N.ltb_ge).
Qed.

(** The loop after its first turn. *)
Lemma loop_unroll st st' e :
  iterate st = Next st' e →
  loop (length (_incomingBuffer st)) st =
  let '(out, fin) := loop (length (_incomingBuffer st')) st' in
  (match e with Some r => r :: out | None => out end, fin).
Proof.
  intros Hit. pose proof (iterate_shrinks _ _ _ Hit) as Hlt.
  destruct (length (_incomingBuffer st)) as [|k] eqn:Hk; [lia|].
  cbn [loop]. rewrite Hit.
  by rewrite (loop_fuel k (length (_incomingBuffer st'))) by lia.
Qed.

Lemma _onData_idle rest :
  _onData (idle_framer []) rest = loop (length rest) (idle_framer rest).
Proof. reflexivity. Qed.

(** A plain line and its terminator arrive: the line goes out, with what
    was pending before it, and the framer starts afresh on the rest. *)
Lemma plain_line_first st l term rest :
  _literalRemaining st = 0%N →
  plain (_incomingBuffer st ++ l) → is_terminator term →
  _onData st (l ++ term ++ rest) =
  let '(out, fin) := _onData (idle_framer []) rest in
  ((_command st ++ _incomingBuffer st ++ l) :: out, fin).
Proof.
  intros Hlr Hb Hterm. rewrite _onData_idle. unfold _onData.
  set (st1 := append_chunk st (l ++ term ++ rest)).
  assert (_incomingBuffer st1 = (_incomingBuffer st ++ l) ++ term ++ rest)
    as HB by (subst st1; simpl; by rewrite <- app_assoc).
  assert (iterate st1 =
          Next (idle_framer rest)
               (Some (_command st ++ _incomingBuffer st ++ l))) as Hit.
  { rewrite (iterate_emit st1 _ Hlr (eq_trans (f_equal regex_exec HB)
               (regex_exec_plain _ term rest Hb Hterm)) eq_refl).
    cbn [index match0]. rewrite HB. f_equal.
    - f_equal. rewrite drop_app_ge by lia.
      replace (_ + _ - _) with (length term) by lia.
      apply drop_app_length.
    - f_equal. f_equal. by rewrite take_app_length. }
  by rewrite (loop_unroll _ _ _ Hit).
Qed.

(** The loop on plain lines, each followed by CRLF or by a bare line feed:
    one response a line, and a last line without its terminator yet stays
    in the buffer. *)
Lemma plain_lines_framed (lines : list (text * text)) (partial : text) :
  Forall (λ lt, plain lt.1 ∧ is_terminator lt.2) lines →
  LF ∉ partial →
  _onData new_framer (joined lines ++ partial) =
  (lines.*1, idle_framer partial).
Proof.
  intros Hall Hpartial.
  change new_framer with (idle_framer []).
  induction Hall as [|[l term] lines [Hl Hterm] _ IH].
  - simpl. rewrite _onData_idle.
    destruct (length partial) as [|k] eqn:Hk; [done|].
    cbn [loop]. unfold iterate. simpl. by rewrite regex_exec_none.
  - unfold joined in *. cbn [map concat fst snd fmap list_fmap].
    rewrite <- !app_assoc.
    rewrite (plain_line_first (idle_framer []) l term); [|done|done|done].
    by rewrite IH.
Qed.

(** X3. Until the buffer holds a line feed the framer does nothing but
    append: this is so even when it waits for a literal body and the body
    has arrived in full. *)
Theorem no_line_feed_no_progress st chunk :
  LF ∉ _incomingBuffer st ++ chunk →
  _onData st chunk = ([], append_chunk st chunk).
Proof.
  intros H. unfold _onData.
  destruct (length (_incomingBuffer (append_chunk st chunk))) as [|k];
    [done|].
  cbn [loop]. unfold iterate.
  change (_incomingBuffer (append_chunk st chunk))
    with (_incomingBuffer st ++ chunk).
  by rewrite regex_exec_none.
Qed.

(** The loop on a literal prefix [{n}] or [{n+}], its terminator, and the
    [n] characters after it: one response, which ends at the terminator of
    the plain text that follows the body. *)
Lemma literal_body_framed st l ds plus term body tail term2 rest :
  _literalRemaining st = 0%N →
  LF ∉ _incomingBuffer st ++ l →
  ds ≠ [] → Forall (λ c, is_digit c = true) ds → is_plus plus →
  is_terminator term →
  N.of_nat (length body) = Number_of_digits ds →
  plain tail → is_terminator term2 →
  _onData st (l ++ literal_prefix ds plus ++ term ++ body ++ tail ++ term2
                ++ rest) =
  let '(out, fin) := _onData (idle_framer []) rest in
  ((_command st ++ _incomingBuffer st ++ l ++ literal_prefix ds plus ++ term
      ++ body ++ tail) :: out, fin).
Proof.
  intros Hlr Hl Hne Hds Hplus Hterm Hlen Htail Hterm2.
  set (after := body ++ tail ++ term2 ++ rest).
  set (head := _command st ++ (_incomingBuffer st ++ l) ++
               literal_prefix ds plus ++ term).
  (* the prefix and its terminator join the pending command *)
  set (st1 := append_chunk st (l ++ literal_prefix ds plus ++ term ++ after)).
  assert (_incomingBuffer st1 =
          (_incomingBuffer st ++ l) ++ literal_prefix ds plus ++ term ++ after)
    as HB by (subst st1; unfold append_chunk; cbn [_incomingBuffer];
              by rewrite <- app_assoc).
  set (st2 := {| _incomingBuffer := after; _command := head;
                 _literalRemaining := Number_of_digits ds |}).
  assert (iterate st1 = Next st2 None) as Hit1.
  { rewrite (iterate_prefix st1 _ ds Hlr
               (eq_trans (f_equal regex_exec HB)
                  (regex_exec_literal _ _ _ _ after Hl Hne Hds Hplus Hterm))
               eq_refl).
    cbn [index match0]. rewrite HB. subst st2 head. f_equal. f_equal.
    - rewrite drop_app_ge by lia.
      replace (_ + _ - _)
        with (length (literal_prefix ds plus ++ term))
        by (rewrite length_app; lia).
      rewrite (app_assoc (literal_prefix ds plus)). apply drop_app_length.
    - f_equal. rewrite take_app_ge by lia.
      replace (_ + _ - _)
        with (length (literal_prefix ds plus ++ term))
        by (rewrite length_app; lia).
      rewrite (app_assoc (literal_prefix ds plus)).
      by rewrite take_app_length. }
  (* then the body does *)
  set (st3 := {| _incomingBuffer := tail ++ term2 ++ rest;
                 _command := head ++ body; _literalRemaining := 0 |}).
  assert (loop (length (_incomingBuffer st2)) st2 =
          loop (length (_incomingBuffer st3)) st3) as Hbody.
  { destruct (N.eq_dec (Number_of_digits ds) 0%N) as [Hz|Hnz].
    - assert (body = []) as -> by (destruct body; [done|simpl in Hlen; lia]).
      subst st2 st3 after. rewrite Hz. simpl. by rewrite app_nil_r.
    - assert (iterate st2 = Next st3 None) as Hit2.
      { rewrite iterate_body.
        - subst st2 st3 after. cbn [_incomingBuffer _command _literalRemaining].
          rewrite <- Hlen, Nat2N.id.
          by rewrite drop_app_length, take_app_length.
        - subst st2. simpl. lia.
        - subst st2 after. simpl. rewrite <- Hlen, !length_app. lia.
        - subst st2 after. simpl.
          destruct (terminator_split _ Hterm2) as (cr & -> & _).
          rewrite !elem_of_app. right. right. left. right.
          apply list_elem_of_here. }
      by rewrite (loop_unroll _ _ _ Hit2), (surjective_pairing (loop _ st3)). }
  (* and the plain text up to its terminator ends the response *)
  assert (iterate st3 =
          Next (idle_framer rest) (Some ((head ++ body) ++ tail))) as Hit3.
  { rewrite (iterate_emit st3 _ eq_refl
               (regex_exec_plain _ term2 rest Htail Hterm2) eq_refl).
    cbn [index match0]. subst st3. cbn [_incomingBuffer _command]. f_equal.
    - f_equal. rewrite drop_app_ge by lia.
      replace (_ + _ - _) with (length term2) by lia.
      apply drop_app_length.
    - by rewrite take_app_length. }
  rewrite _onData_idle. unfold _onData. fold after. fold st1.
  rewrite (loop_unroll _ _ _ Hit1), Hbody, (loop_unroll _ _ _ Hit3).
  change (length (_incomingBuffer (idle_framer rest))) with (length rest).
  destruct (loop _ (idle_framer rest)) as [out fin].
  f_equal. f_equal. subst head. by rewrite <- !app_assoc.
Qed.

(** *** Nothing is lost *)

Lemma match_here_terminator s n :
  match_here s = Some (n, None) → is_terminator (take n s).
Proof.
  intros Hm.
  destruct (match_here_inv _ _ _ Hm) as (pre & cr & r & -> & Hcr & -> & Hpre).
  destruct Hpre as [[-> _]|(? & ? & _ & _ & _ & _ & [=])].
  destruct Hcr as [-> | ->]; [by left|by right].
Qed.

Lemma loop_conserves fuel st :
  ∃ terms,
    length terms = length (loop fuel st).1 ∧ Forall is_terminator terms ∧
    glue (loop fuel st).1 terms ++ _command (loop fuel st).2 ++
      _incomingBuffer (loop fuel st).2 =
    _command st ++ _incomingBuffer st.
Proof.
  revert st. induction fuel as [|fuel IH]; intros st.
  { exists []. by repeat split. }
  cbn [loop]. destruct (iterate st) as [|st' e] eqn:Hit.
  { exists []. by repeat split. }
  destruct (IH st') as (terms & Hlen & Hterms & Heq).
  destruct (loop fuel st') as [out fin]. cbn [fst snd] in *.
  revert Hit. unfold iterate.
  destruct (regex_exec (_incomingBuffer st)) as [m|] eqn:Hm; [|done].
  destruct ((0 <? _literalRemaining st)%N && _)%bool; [done|].
  destruct (0 <? _literalRemaining st)%N.
  { intros [= <- <-]. exists terms. repeat split; [done..|].
    rewrite Heq. simpl. by rewrite <- app_assoc, take_drop. }
  destruct (match2 m) as [ds|] eqn:Hg.
  { intros [= <- <-]. exists terms. repeat split; [done..|].
    rewrite Heq. simpl. by rewrite <- app_assoc, take_drop. }
  intros [= <- <-].
  pose proof (regex_exec_match_here _ _ Hm) as Hhere. rewrite Hg in Hhere.
  exists (take (match0 m) (drop (index m) (_incomingBuffer st)) :: terms).
  repeat split.
  - simpl. by rewrite Hlen.
  - constructor; [by apply match_here_terminator|done].
  - unfold glue in *. cbn [zip_with concat]. rewrite <- !app_assoc.
    rewrite Heq. simpl. rewrite <- drop_drop.
    by rewrite take_drop, take_drop.
Qed.

(** The loop neither drops nor reorders a character, the terminator that
    ends each response apart. *)
Lemma framer_text_conserved st chunk :
  ∃ terms,
    length terms = length (_onData st chunk).1 ∧
    Forall is_terminator terms ∧
    glue (_onData st chunk).1 terms ++ _command (_onData st chunk).2 ++
      _incomingBuffer (_onData st chunk).2 =
    _command st ++ _incomingBuffer st ++ chunk.
Proof. apply loop_conserves. Qed.

(** *** The theorems at work *)

(** The framer waits for five characters, and has them: it goes on
    waiting, for a line feed. *)
Lemma no_line_feed_no_progress_witness :
  let st := {| _incomingBuffer := [];
               _command := txt "* 1 FETCH (BODY[] {5}" ++ [CR; LF];
               _literalRemaining := 5 |} in
  (LF ∉ _incomingBuffer st ++ txt "hello") ∧
  _onData st (txt "hello") =
  ([], {| _incomingBuffer := txt "hello";
          _command := txt "* 1 FETCH (BODY[] {5}" ++ [CR; LF];
          _literalRemaining := 5 |}).
Proof.
  intros st.
  assert (LF ∉ _incomingBuffer st ++ txt "hello") as H
    by (apply (bool_decide_unpack _); vm_compute; exact I).
  split; [exact H|].
  exact (no_line_feed_no_progress st (txt "hello") H).
Defined.

End FramerLines.
(* ===================================================================== *)
(** ** From the socket to the handlers *)
(* ===================================================================== *)

Module Dispatching.
Import JS Client Properties Notions Scenarios ClientFacts Invariants.
#[local] Open Scope client_scope.

Section Queueing.

Variable parser : string → res val.
Variable compiler : val → bool → bool → res (list string).

Lemma _addToServerQueue_busy cmd c :
  _processingServerData c = true →
  _addToServerQueue parser compiler cmd c =
  Done tt (set_serverQueue (_serverQueue c ++ [cmd]) c).
Proof.
  intros Hb. unfold _addToServerQueue. msimpl. fsimpl. by rewrite Hb.
Qed.

Lemma onData_loop_busy fuel c :
  _processingServerData c = true →
  onData_loop parser compiler fuel c =
  Done tt
    (set_framer (Framer.loop fuel (framer c)).2
       (set_serverQueue
          (_serverQueue c ++
           (string_of_list_ascii <$> (Framer.loop fuel (framer c)).1)) c)).
Proof.
  revert c. induction fuel as [|fuel IH]; intros c Hb.
  { simpl. rewrite app_nil_r. by destruct c. }
  cbn [onData_loop Framer.loop]. rewrite run_read.
  destruct (Framer.iterate (framer c)) as [|fr' [line|]] eqn:Hit.
  - simpl. rewrite app_nil_r. by destruct c.
  - rewrite run_write.
    erewrite run_Done by (apply _addToServerQueue_busy; exact Hb).
    rewrite run_write. rewrite IH by done. fsimpl.
    destruct (Framer.loop fuel fr') as [out fin]. simpl.
    by rewrite <- app_assoc.
  - rewrite run_write. rewrite IH by done. fsimpl.
    by destruct (Framer.loop fuel fr') as [out fin].
Qed.

Lemma _onData_busy c chunk :
  _processingServerData c = true →
  _onData parser compiler chunk c =
  Done tt
    (set_framer (Framer._onData (framer c) chunk).2
       (set_serverQueue (_serverQueue c ++ framed (framer c) chunk)
          (set_socketTimeoutTimer false c))).
Proof.
  intros Hb. unfold _onData. msimpl. fsimpl.
  by rewrite onData_loop_busy.
Qed.

(** X5. While the dispatcher is busy, the lines the framer makes of a
    chunk join the server queue in the order they came in, and nothing is
    dispatched in the turn the chunk arrived: the client's [_onData] is the
    framer, and a write to the queue. *)
Theorem busy_dispatcher_queues_lines c chunk :
  _processingServerData c = true →
  _onData parser compiler chunk c =
  Done tt
    (set_framer (Framer._onData (framer c) chunk).2
       (set_serverQueue (_serverQueue c ++ framed (framer c) chunk)
          (set_socketTimeoutTimer false c))).
Proof. apply _onData_busy. Qed.

End Queueing.

(** *** Untagged responses *)

Lemma upper_name s :
  call_toUpperCase (js_or (VString s) (VString "")) = Ret (toUpperCase s).
Proof.
  unfold js_or. simpl. by destruct (String.eqb_spec s "") as [->|].
Qed.

Lemma upper_string s :
  toString (js_or (VString s) (VString "")) = Ret s.
Proof.
  unfold js_or. simpl. by destruct (String.eqb_spec s "") as [->|].
Qed.

Lemma command_name r s :
  r !! "command" = Some (VString s) →
  and_get (VObject r) "command" = Ret (VString s).
Proof. intros H. unfold and_get. simpl. by rewrite H. Qed.

(** X6. A handler set for a command name, a name of ASCII text, is the one
    an untagged response of that name reaches when no command is current,
    whatever the case and the white space around the two names: both are
    upper-cased and trimmed. The handler is called once, with the response
    as [_processResponse] left it, and nothing else is done. *)
Theorem handler_gets_untagged c name id r s r' :
  ascii_text name = true →
  _currentCommand c = VBool false →
  r !! "command" = Some (VString s) →
  trim (toUpperCase s) = trim (toUpperCase name) →
  _processResponse (VObject r) = Ret r' →
  get r' "tag" = Ret (VString "*") →
  (setHandler name (VFunction (FUser id)) >>
   _processServerResponse (VObject r)) c =
  Done r'
    (set_trace (trace c ++ [Ecall id [r']])
       (set_globalAcceptUntagged
          (<[trim (toUpperCase name) := VFunction (FUser id)]>
             (_globalAcceptUntagged c)) c)).
Proof.
  intros _ Hcur Hcmd Hname Hpr Htag.
  unfold setHandler, _processServerResponse. msimpl.
  rewrite (command_name _ _ Hcmd). msimpl.
  rewrite upper_name. msimpl. rewrite Hpr. msimpl. fsimpl.
  rewrite Hcur, Htag. msimpl. cbn [truthy negb strict_eq].
  rewrite String.eqb_refl, Hname, lookup_insert_eq.
  rewrite bool_decide_eq_true_2 by eauto.
  cbn [andb default from_option]. msimpl.
  cbn [call_function]. msimpl. done.
Qed.

(** X7. While a command is current whose [payload] has a bucket for the
    name of an untagged response, the response is appended to that bucket
    and nothing else is done: no handler is called, whatever handlers are
    set, and no callback. *)
Theorem payload_collects_untagged c cur payload bucket r s r' :
  _currentCommand c = VObject cur →
  cur !! "payload" = Some (VObject payload) →
  r !! "command" = Some (VString s) →
  payload !! trim (toUpperCase s) = Some (VArray bucket) →
  _processResponse (VObject r) = Ret r' →
  get r' "tag" = Ret (VString "*") →
  _processServerResponse (VObject r) c =
  Done r'
    (set_currentCommand
       (VObject (<["payload" :=
                     VObject (<[trim (toUpperCase s) :=
                                  VArray (bucket ++ [r'])]> payload)]> cur))
       c).
Proof.
  intros Hcur Hpl Hcmd Hb Hpr Htag.
  unfold _processServerResponse. msimpl.
  rewrite (command_name _ _ Hcmd). msimpl.
  rewrite upper_name. msimpl. rewrite Hpr. msimpl. fsimpl.
  rewrite Hcur, Htag. msimpl. cbn [truthy negb strict_eq].
  rewrite String.eqb_refl.
  rewrite (get_object_Some _ _ _ Hpl). msimpl.
  cbn [truthy andb js_in]. msimpl.
  rewrite bool_decide_eq_true_2 by eauto.
  rewrite (get_object_Some _ _ _ Hb). msimpl.
  cbn [push]. msimpl. rewrite set_upper. msimpl.
  cbn [set is_proto String.eqb Ascii.eqb Bool.eqb]. msimpl. done.
Qed.

Lemma tagged_response_callback c cur t f r s r' :
  _currentCommand c = VObject cur →
  cur !! "tag" = Some (VString t) →
  cur !! "callback" = Some (VFunction f) →
  r !! "command" = Some (VString s) →
  _processResponse (VObject r) = Ret (VObject r') →
  r' !! "tag" = Some (VString t) →
  t ≠ "*" →
  let response :=
    match cur !! "payload" with
    | Some (VObject payload) =>
        if decide (payload = ∅) then r'
        else <["payload" := VObject payload]> r'
    | _ => r'
    end in
  (cur !! "payload" = None ∨ cur !! "payload" = Some VUndefined ∨
   ∃ payload, cur !! "payload" = Some (VObject payload)) →
  _processServerResponse (VObject r) c =
  (call_function (VFunction f) [VObject response] >>
   ret (VObject response)) c.
Proof.
  intros Hcur Htag Hcb Hcmd Hpr Hrtag Hne response Hpl.
  unfold _processServerResponse. msimpl.
  rewrite (command_name _ _ Hcmd). msimpl.
  rewrite upper_name. msimpl. rewrite Hpr. msimpl. fsimpl.
  rewrite Hcur. rewrite (get_object_Some _ _ _ Hrtag). msimpl.
  cbn [truthy negb strict_eq].
  assert ((t =? "*")%string = false) as -> by (by apply String.eqb_neq).
  subst response.
  assert (∃ pv, get (VObject cur) "payload" = Ret pv ∧
                default VUndefined (cur !! "payload") = pv ∧
                (pv = VUndefined ∨ ∃ payload, pv = VObject payload))
    as (pv & -> & Hpv & Hcase).
  { eexists. split; [reflexivity|]. split; [reflexivity|].
    destruct Hpl as [->|[->|[payload ->]]]; simpl; eauto. }
  msimpl.
  assert ((if truthy pv && false then lift (js_in (trim (toUpperCase s)) pv)
           else ret false) = ret false) as ->
    by (by destruct (truthy pv)).
  msimpl. rewrite (get_object_Some _ _ _ Htag). cbn [andb]. msimpl.
  cbn [strict_eq]. rewrite String.eqb_refl.
  rewrite (get_object_Some _ _ _ Hcb). msimpl.
  cbn [typeof String.eqb Ascii.eqb Bool.eqb].
  destruct Hcase as [->|[payload ->]].
  { cbn [truthy andb]. msimpl.
    by destruct Hpl as [->|[->|[payload Hpl]]];
      [| |rewrite Hpl in Hpv; simpl in Hpv]. }
  assert (cur !! "payload" = Some (VObject payload)) as ->.
  { destruct Hpl as [Hpl|[Hpl|[pl Hpl]]]; rewrite Hpl in Hpv |- *;
      simpl in Hpv; congruence. }
  cbn [truthy andb]. msimpl.
  cbn [keys_length entries]. msimpl.
  destruct (decide (payload = ∅)) as [->|Hne'].
  - rewrite map_to_list_empty. cbn [length Nat.eqb negb]. msimpl. done.
  - destruct (map_to_list payload) as [|kv l] eqn:Hl.
    { by apply map_to_list_empty_iff in Hl. }
    cbn [length Nat.eqb negb set is_proto String.eqb Ascii.eqb Bool.eqb]. msimpl. done.
Qed.

(** X8. The tagged response of the current command reaches its callback,
    after [_processResponse] and with the [payload] of the command put on
    it when that has a bucket at least; without buckets the response goes
    as it is. Nothing else is done. *)
Theorem tagged_response_reaches_callback c cur t f r s r' :
  _currentCommand c = VObject cur →
  cur !! "tag" = Some (VString t) →
  cur !! "callback" = Some (VFunction f) →
  r !! "command" = Some (VString s) →
  _processResponse (VObject r) = Ret (VObject r') →
  r' !! "tag" = Some (VString t) →
  t ≠ "*" →
  let response :=
    match cur !! "payload" with
    | Some (VObject payload) =>
        if decide (payload = ∅) then r'
        else <["payload" := VObject payload]> r'
    | _ => r'
    end in
  (cur !! "payload" = None ∨ cur !! "payload" = Some VUndefined ∨
   ∃ payload, cur !! "payload" = Some (VObject payload)) →
  _processServerResponse (VObject r) c =
  (call_function (VFunction f) [VObject response] >>
   ret (VObject response)) c.
Proof. apply tagged_response_callback. Qed.

(** C3, as the code has it. The tagged response of the command in flight
    settles the promise of that command, by the command name the response
    has after [_processResponse]: when that name, upper-cased and trimmed,
    is NO or BAD the promise is rejected with an [Error] whose message is
    [humanReadable], or ["Error"] when that is missing or empty, and which
    has a [code] property equal to the response's [code] when that is there
    (and not empty); for any other name, OK among them, the promise is
    resolved with the response object. [_processResponse] stores a response
    code under its own name in lower case: a code named COMMAND replaces the
    command name the server sent. *)
Theorem tagged_response_settles c cur t p r s r' :
  _currentCommand c = VObject cur →
  cur !! "tag" = Some (VString t) →
  cur !! "callback" = Some (VFunction (FCompletion p)) →
  (cur !! "payload" = None ∨ cur !! "payload" = Some VUndefined ∨
   ∃ payload, cur !! "payload" = Some (VObject payload)) →
  promises c !! p = Some Pending →
  r !! "command" = Some (VString s) →
  _processResponse (VObject r) = Ret (VObject r') →
  r' !! "tag" = Some (VString t) →
  t ≠ "*" →
  let response :=
    match cur !! "payload" with
    | Some (VObject payload) =>
        if decide (payload = ∅) then r'
        else <["payload" := VObject payload]> r'
    | _ => r'
    end in
  let name :=
    trim (toUpperCase (ToString
      (js_or (default VUndefined (response !! "command")) (VString "")))) in
  let hr := default VUndefined (response !! "humanReadable") in
  let code := default VUndefined (response !! "code") in
  let outcome :=
    if bool_decide (name ∈ ["NO"; "BAD"]) then
      Rejected (VError (if truthy hr then ToString hr else "Error")
                       (if truthy code then {[ "code" := code ]} else ∅))
    else Resolved (VObject response) in
  _processServerResponse (VObject r) c =
  Done (VObject response) (set_promises (<[p := outcome]> (promises c)) c).
Proof.
  intros Hcur Htag Hcb Hpl Hp Hcmd Hpr Hrtag Hne response name hr code outcome.
  rewrite (tagged_response_callback c cur t (FCompletion p) r s r'
             Hcur Htag Hcb Hcmd Hpr Hrtag Hne Hpl).
  fold response. cbn [call_function head default from_option]. unfold id.
  rewrite run_bind, (completion_settles p response c Hp). reflexivity.
Qed.



(** *** What the dispatcher makes of a parsed response *)

Lemma get_index_head x l : get_index (VArray (x :: l)) 0 = Ret x.
Proof. reflexivity. Qed.

Lemma all_digits_string ds :
  ds ≠ [] → Forall (λ c, Framer.is_digit c = true) ds →
  all_digits (VString (string_of_list_ascii ds)) = true.
Proof.
  intros Hne Hds. unfold all_digits. cbn [ToString].
  rewrite list_ascii_of_string_of_list_ascii.
  destruct ds as [|d ds]; [done|]. simpl.
  apply Forall_cons in Hds as [-> Hds]. simpl.
  clear Hne. induction Hds as [|x l Hx _ IH]; simpl; [done|].
  by rewrite Hx, IH.
Qed.

(** X9. An untagged response whose name is a number and whose first
    attribute is an atom, as the parser gives for [* 42 EXISTS], is
    renamed before it is dispatched: the number, one that [Number] gives
    exactly, goes to [nr], the atom, upper-cased and trimmed, becomes the
    command name and leaves the attributes. Nothing else of the response
    changes. *)
Theorem numeric_response_renamed r ds a0 v attrs :
  r !! "tag" = Some (VString "*") →
  r !! "command" = Some (VString (string_of_list_ascii ds)) →
  ds ≠ [] → Forall (λ c, Framer.is_digit c = true) ds →
  (Framer.Number_of_digits ds ≤ 2 ^ 53)%N →
  r !! "attributes" = Some (VArray (VObject a0 :: attrs)) →
  a0 !! "type" = Some (VString "ATOM") →
  a0 !! "value" = Some (VString v) →
  normalize_numeric (VObject r) =
  Ret (VObject
         (<["command" := VString (trim (toUpperCase v))]>
            (<["attributes" := VArray attrs]>
               (<["nr" := VNumber (Z.of_N (Framer.Number_of_digits ds))]>
                  r)))).
Proof.
  intros Htag Hcmd Hne Hds _ Hattrs Hty Hv. unfold normalize_numeric.
  rewrite (get_object_Some _ _ _ Htag). cbn [res_bind strict_eq].
  cbn [String.eqb Ascii.eqb Bool.eqb negb].
  rewrite (get_object_Some _ _ _ Hcmd). cbn [res_bind].
  rewrite (all_digits_string _ Hne Hds). cbn [negb].
  rewrite (get_object_Some _ _ _ Hattrs). cbn [res_bind and_get truthy].
  rewrite get_array_length. cbn [res_bind]. rewrite truthy_length.
  cbn [negb]. rewrite get_index_head. cbn [res_bind].
  rewrite (get_object_Some _ _ _ Hty). cbn [res_bind strict_eq].
  cbn [String.eqb Ascii.eqb Bool.eqb negb set res_bind shift is_proto].
  rewrite (get_object_Some _ _ _ Hv). cbn [res_bind].
  rewrite upper_string. cbn [res_bind ToString]. unfold Number_of_string.
  by rewrite list_ascii_of_string_of_list_ascii.
Qed.

Lemma res_bind_Ret {A B} (a : A) (k : A → res B) : res_bind (Ret a) k = k a.
Proof. reflexivity. Qed.

Lemma res_bind_Thr {A B} e (k : A → res B) : res_bind (Thr e) k = Thr e.
Proof. reflexivity. Qed.

Lemma res_bind_assoc {A B C} (m : res A) (k : A → res B) (h : B → res C) :
  res_bind (res_bind m k) h = res_bind m (λ a, res_bind (k a) h).
Proof. by destruct m. Qed.

Lemma res_bind_pair {A B C} (a : A) (b : B) (k : A → B → res C) :
  res_bind (Ret (a, b)) (λ '(x, y), k x y) = k a b.
Proof. reflexivity. Qed.

(** Running a computation without state, one step at a time. *)
Ltac rsimpl :=
  repeat first
    [ rewrite res_bind_assoc
    | rewrite res_bind_Ret
    | rewrite res_bind_Thr ];
  cbn beta.

Lemma and_get_array_length l :
  and_get (VArray l) "length" = Ret (VNumber (Z.of_nat (length l))).
Proof. reflexivity. Qed.

Lemma section_key_keyed x v :
  keyed x v → section_key x = Ret (VString (trim (toUpperCase v))).
Proof.
  intros (o & -> & Hv). unfold section_key. cbn [truthy negb].
  rewrite (get_object_Some _ _ _ Hv). cbn [res_bind].
  by rewrite upper_string.
Qed.

Lemma map_res_section_key section args :
  Forall2 keyed section args →
  map_res section_key section =
  Ret ((λ a, VString (trim (toUpperCase a))) <$> args).
Proof.
  induction 1 as [|x v section args Hx _ IH]; [done|].
  cbn [map_res]. by rewrite (section_key_keyed _ _ Hx), IH.
Qed.

Lemma last_attribute_last (l : list val) x :
  last l = Some x →
  last_attribute (VArray l) (VNumber (Z.of_nat (length l))) = Ret x.
Proof.
  intros Hl. unfold last_attribute.
  destruct l as [|y l]; [done|].
  replace (0 <? Z.of_nat (length (y :: l)))%Z with true
    by (symmetry; apply Z.ltb_lt; simpl; lia).
  unfold get_index.
  replace (Z.to_nat (Z.of_nat (length (y :: l)) - 1))
    with (pred (length (y :: l))) by (simpl; lia).
  by rewrite <- last_lookup, Hl.
Qed.


(** *** The theorems at work *)

(** Two lines arrive in one chunk while the dispatcher is busy. *)
Lemma busy_dispatcher_queues_lines_witness :
  let c := set_processingServerData true (session [Call_connect; Socket_open]) in
  let chunk := Framer.txt "* OK a" ++ [Framer.CR; Framer.LF] ++
               Framer.txt "* OK b" ++ [Framer.LF] ++ Framer.txt "* O" in
  _processingServerData c = true ∧
  _serverQueue (final (_onData toy_parser toy_compiler chunk c)) =
    ["* OK a"; "* OK b"] ∧
  trace (final (_onData toy_parser toy_compiler chunk c)) = trace c.
Proof.
  intros c chunk. split; [reflexivity|].
  rewrite (busy_dispatcher_queues_lines toy_parser toy_compiler c chunk eq_refl).
  split; vm_compute; reflexivity.
Defined.

Definition exists_line : gmap string val :=
  <["tag" := VString "*"]> (<["command" := VString "Exists"]> ∅).

Lemma handler_gets_untagged_witness :
  let c := session greeted in
  ascii_text " exists " = true ∧
  _currentCommand c = VBool false ∧
  exists_line !! "command" = Some (VString "Exists") ∧
  trim (toUpperCase "Exists") = trim (toUpperCase " exists ") ∧
  _processResponse (VObject exists_line) = Ret (VObject exists_line) ∧
  get (VObject exists_line) "tag" = Ret (VString "*") ∧
  trace (final ((setHandler " exists " (VFunction (FUser 7)) >>
                 _processServerResponse (VObject exists_line)) c)) =
  trace c ++ [Ecall 7 [VObject exists_line]].
Proof.
  intros c.
  assert (ascii_text " exists " = true) as H0 by reflexivity.
  assert (_currentCommand c = VBool false) as H1 by reflexivity.
  assert (exists_line !! "command" = Some (VString "Exists")) as H2
    by reflexivity.
  assert (trim (toUpperCase "Exists") = trim (toUpperCase " exists ")) as H3
    by reflexivity.
  assert (_processResponse (VObject exists_line) = Ret (VObject exists_line))
    as H4 by reflexivity.
  assert (get (VObject exists_line) "tag" = Ret (VString "*")) as H5
    by reflexivity.
  repeat (split; [assumption|]).
  by rewrite (handler_gets_untagged c " exists " 7 exists_line "Exists"
                (VObject exists_line) H0 H1 H2 H3 H4 H5).
Defined.

(** SELECT is in flight and collects the EXISTS responses. *)
Definition selecting : client :=
  session (greeted ++
           [Call_enqueueCommand (VString "SELECT") (VString "exists") None]).

Definition select_record : gmap string val :=
  match _currentCommand selecting with
  | VObject o => o
  | _ => ∅
  end.

Lemma payload_collects_untagged_witness :
  let payload : gmap string val := {[ "EXISTS" := VArray [] ]} in
  _currentCommand selecting = VObject select_record ∧
  select_record !! "payload" = Some (VObject payload) ∧
  exists_line !! "command" = Some (VString "Exists") ∧
  payload !! trim (toUpperCase "Exists") = Some (VArray []) ∧
  _processResponse (VObject exists_line) = Ret (VObject exists_line) ∧
  get (VObject exists_line) "tag" = Ret (VString "*") ∧
  _currentCommand
    (final (_processServerResponse (VObject exists_line) selecting)) =
  VObject (<["payload" :=
               VObject {[ "EXISTS" := VArray [VObject exists_line] ]}]>
             select_record).
Proof.
  intros payload.
  assert (_currentCommand selecting = VObject select_record) as H1
    by (vm_compute; reflexivity).
  assert (select_record !! "payload" = Some (VObject payload)) as H2
    by (vm_compute; reflexivity).
  assert (exists_line !! "command" = Some (VString "Exists")) as H3
    by reflexivity.
  assert (payload !! trim (toUpperCase "Exists") = Some (VArray [])) as H4
    by reflexivity.
  assert (_processResponse (VObject exists_line) = Ret (VObject exists_line))
    as H5 by reflexivity.
  assert (get (VObject exists_line) "tag" = Ret (VString "*")) as H6
    by reflexivity.
  split; [exact H1|]. split; [exact H2|]. split; [exact H3|].
  split; [exact H4|]. split; [exact H5|]. split; [exact H6|].
  rewrite (payload_collects_untagged selecting select_record payload []
             exists_line "Exists" (VObject exists_line) H1 H2 H3 H4 H5 H6).
  cbn [final]. fsimpl. vm_compute. reflexivity.
Defined.

Definition select_done : gmap string val :=
  <["tag" := VString "W1"]> (<["command" := VString "OK"]> ∅).

Lemma tagged_response_reaches_callback_witness :
  let payload : gmap string val := {[ "EXISTS" := VArray [] ]} in
  let response := <["payload" := VObject payload]> select_done in
  _currentCommand selecting = VObject select_record ∧
  select_record !! "tag" = Some (VString "W1") ∧
  select_record !! "callback" = Some (VFunction (FCompletion 1)) ∧
  select_done !! "command" = Some (VString "OK") ∧
  _processResponse (VObject select_done) = Ret (VObject select_done) ∧
  select_done !! "tag" = Some (VString "W1") ∧
  "W1" ≠ "*" ∧
  select_record !! "payload" = Some (VObject payload) ∧
  _processServerResponse (VObject select_done) selecting =
  (call_function (VFunction (FCompletion 1)) [VObject response] >>
   ret (VObject response)) selecting.
Proof.
  intros payload response.
  assert (_currentCommand selecting = VObject select_record) as H1
    by (vm_compute; reflexivity).
  assert (select_record !! "tag" = Some (VString "W1")) as H2
    by (vm_compute; reflexivity).
  assert (select_record !! "callback" = Some (VFunction (FCompletion 1)))
    as H3 by (vm_compute; reflexivity).
  assert (select_done !! "command" = Some (VString "OK")) as H4
    by reflexivity.
  assert (_processResponse (VObject select_done) = Ret (VObject select_done))
    as H5 by reflexivity.
  assert (select_done !! "tag" = Some (VString "W1")) as H6 by reflexivity.
  assert ("W1" ≠ "*") as H7 by discriminate.
  assert (select_record !! "payload" = Some (VObject payload)) as H8
    by (vm_compute; reflexivity).
  split; [exact H1|]. split; [exact H2|]. split; [exact H3|].
  split; [exact H4|]. split; [exact H5|]. split; [exact H6|].
  split; [exact H7|]. split; [exact H8|].
  rewrite (tagged_response_reaches_callback selecting select_record "W1"
             (FCompletion 1) select_done "OK" select_done
             H1 H2 H3 H4 H5 H6 H7 (or_intror (or_intror (ex_intro _ _ H8)))).
  rewrite H8.
  assert ((if decide (payload = ∅) then select_done
           else <["payload" := VObject payload]> select_done) = response)
    as -> by (vm_compute; reflexivity).
  reflexivity.
Defined.

(** LOGIN is in flight, as promise 1, and the server refuses it with a
    response code named COMMAND. *)
Definition login_flying : client := session (in_flight "LOGIN").

Definition login_flying_record : gmap string val :=
  match _currentCommand login_flying with
  | VObject o => o
  | _ => ∅
  end.

Definition denied : gmap string val :=
  <["tag" := VString "W1"]>
    (<["command" := VString "NO"]>
       (<["attributes" :=
            VArray [code_attr [atom "COMMAND"; atom "OK"];
                    text_attr "denied"]]> ∅)).

Definition denied_processed : gmap string val :=
  <["humanReadable" := VString "denied"]>
    (<["command" := VString "OK"]> (<["code" := VString "COMMAND"]> denied)).

Lemma tagged_response_settles_witness :
  toy_parser "W1 NO [COMMAND OK] denied" = Ret (VObject denied) ∧
  _currentCommand login_flying = VObject login_flying_record ∧
  login_flying_record !! "tag" = Some (VString "W1") ∧
  login_flying_record !! "callback" = Some (VFunction (FCompletion 1)) ∧
  login_flying_record !! "payload" = Some VUndefined ∧
  promises login_flying !! 1 = Some Pending ∧
  denied !! "command" = Some (VString "NO") ∧
  _processResponse (VObject denied) = Ret (VObject denied_processed) ∧
  denied_processed !! "tag" = Some (VString "W1") ∧
  "W1" ≠ "*" ∧
  _processServerResponse (VObject denied) login_flying =
  Done (VObject denied_processed)
    (set_promises (<[1 := Resolved (VObject denied_processed)]>
                     (promises login_flying)) login_flying).
Proof.
  assert (_currentCommand login_flying = VObject login_flying_record) as H1
    by (vm_compute; reflexivity).
  assert (login_flying_record !! "tag" = Some (VString "W1")) as H2
    by (vm_compute; reflexivity).
  assert (login_flying_record !! "callback" = Some (VFunction (FCompletion 1)))
    as H3 by (vm_compute; reflexivity).
  assert (login_flying_record !! "payload" = Some VUndefined) as H4
    by (vm_compute; reflexivity).
  assert (promises login_flying !! 1 = Some Pending) as H5
    by (vm_compute; reflexivity).
  assert (denied !! "command" = Some (VString "NO")) as H6 by reflexivity.
  assert (_processResponse (VObject denied) = Ret (VObject denied_processed))
    as H7 by (vm_compute; reflexivity).
  assert (denied_processed !! "tag" = Some (VString "W1")) as H8
    by (vm_compute; reflexivity).
  assert ("W1" ≠ "*") as H9 by discriminate.
  split; [vm_compute; reflexivity|].
  split; [exact H1|]. split; [exact H2|]. split; [exact H3|].
  split; [exact H4|]. split; [exact H5|]. split; [exact H6|].
  split; [exact H7|]. split; [exact H8|]. split; [exact H9|].
  rewrite (tagged_response_settles login_flying login_flying_record "W1" 1
             denied "NO" denied_processed
             H1 H2 H3 (or_intror (or_introl H4)) H5 H6 H7 H8 H9).
  rewrite H4.
  assert (bool_decide
            (trim (toUpperCase (ToString
               (js_or (default VUndefined (denied_processed !! "command"))
                      (VString "")))) ∈ ["NO"; "BAD"]) = false) as ->
    by (vm_compute; reflexivity).
  reflexivity.
Defined.

Definition exists_42 : gmap string val :=
  <["tag" := VString "*"]>
    (<["command" := VString "42"]>
       (<["attributes" := VArray [atom " exists"]]> ∅)).

Definition atom_fields (value : string) : gmap string val :=
  <["type" := VString "ATOM"]> (<["value" := VString value]> ∅).

Lemma numeric_response_renamed_witness :
  exists_42 !! "tag" = Some (VString "*") ∧
  exists_42 !! "command" =
    Some (VString (string_of_list_ascii (Framer.txt "42"))) ∧
  Framer.txt "42" ≠ [] ∧
  Forall (λ c, Framer.is_digit c = true) (Framer.txt "42") ∧
  (Framer.Number_of_digits (Framer.txt "42") ≤ 2 ^ 53)%N ∧
  exists_42 !! "attributes" =
    Some (VArray [VObject (atom_fields " exists")]) ∧
  atom_fields " exists" !! "type" = Some (VString "ATOM") ∧
  atom_fields " exists" !! "value" = Some (VString " exists") ∧
  normalize_numeric (VObject exists_42) =
  Ret (VObject (<["tag" := VString "*"]>
                  (<["command" := VString "EXISTS"]>
                     (<["attributes" := VArray []]>
                        (<["nr" := VNumber 42]> ∅))))).
Proof.
  assert (Framer.txt "42" ≠ []) as H3 by discriminate.
  assert (Forall (λ c, Framer.is_digit c = true) (Framer.txt "42")) as H4
    by (repeat constructor).
  assert (Framer.Number_of_digits (Framer.txt "42") ≤ 2 ^ 53)%N as H5
    by (vm_compute; discriminate).
  repeat (split; [assumption || reflexivity|]).
  rewrite (numeric_response_renamed exists_42 (Framer.txt "42")
             (atom_fields " exists") " exists" []
             eq_refl eq_refl H3 H4 H5 eq_refl eq_refl eq_refl).
  vm_compute. reflexivity.
Defined.

(** The example of the source: [* OK [CAPABILITY ID NAMESPACE] All ready]. *)
Definition capability_fields : gmap string val :=
  <["type" := VString "ATOM"]>
    (<["value" := VString ""]>
       (<["section" := VArray [atom "Capability"; atom "id"; atom "NAMESPACE"]]>
          ∅)).

Definition all_ready_fields : gmap string val :=
  <["type" := VString "TEXT"]> (<["value" := VString "All ready"]> ∅).

Definition all_ready : gmap string val :=
  <["tag" := VString "*"]>
    (<["command" := VString "ok"]>
       (<["attributes" :=
            VArray [VObject capability_fields; VObject all_ready_fields]]> ∅)).


End Dispatching.
(* ===================================================================== *)
(** ** Lines that arrive while the dispatcher is busy *)
(* ===================================================================== *)

Module Arrivals.
Import JS Client Properties Notions Lines Scenarios ClientFacts FramerLines
  Dispatching.
#[local] Open Scope client_scope.

Section Busy.

Variable parser : string → res val.
Variable compiler : val → bool → bool → res (list string).

(** X1. While the dispatcher is busy, plain lines that arrive in one chunk,
    each followed by CRLF or by a bare line feed, join the server queue one
    by one, as they are and in order; a last line without its terminator
    yet stays in the buffer. *)
Theorem plain_lines_round_trip c (lines : list (Framer.text * Framer.text))
    (partial : Framer.text) :
  _processingServerData c = true →
  framer c = Framer.new_framer →
  Forall (λ lt, plain lt.1 ∧ Framer.is_terminator lt.2) lines →
  Framer.LF ∉ partial →
  _onData parser compiler (joined lines ++ partial) c =
  Done tt
    (set_framer (idle_framer partial)
       (set_serverQueue
          (_serverQueue c ++ (string_of_list_ascii <$> lines.*1))
          (set_socketTimeoutTimer false c))).
Proof.
  intros Hb Hf Hlines Hpartial. rewrite _onData_busy by done.
  unfold framed. by rewrite Hf, (plain_lines_framed _ _ Hlines Hpartial).
Qed.

(** X2. While the dispatcher is busy, a literal prefix [{n}] or [{n+}], its
    terminator, and the [n] characters after it, whatever they are, line
    terminators and literal prefixes among them, join the server queue as
    one response, which ends at the terminator of the plain text that
    follows the body; what comes after is framed from a clean state. [n]
    is a count that [Number] gives exactly. *)
Theorem literal_body_kept_whole c l ds plus term body tail term2 rest :
  _processingServerData c = true →
  Framer._literalRemaining (framer c) = 0%N →
  Framer.LF ∉ Framer._incomingBuffer (framer c) ++ l →
  ds ≠ [] → Forall (λ c, Framer.is_digit c = true) ds → is_plus plus →
  Framer.is_terminator term →
  N.of_nat (length body) = Framer.Number_of_digits ds →
  (Framer.Number_of_digits ds ≤ 2 ^ 53)%N →
  plain tail → Framer.is_terminator term2 →
  _onData parser compiler
    (l ++ literal_prefix ds plus ++ term ++ body ++ tail ++ term2 ++ rest) c =
  Done tt
    (set_framer (Framer._onData (idle_framer []) rest).2
       (set_serverQueue
          (_serverQueue c ++
           string_of_list_ascii
             (Framer._command (framer c) ++
              Framer._incomingBuffer (framer c) ++ l ++
              literal_prefix ds plus ++ term ++ body ++ tail) ::
           framed (idle_framer []) rest)
          (set_socketTimeoutTimer false c))).
Proof.
  intros Hb Hz Hl Hne Hds Hplus Hterm Hbody _ Htail Hterm2.
  rewrite _onData_busy by done. unfold framed.
  rewrite (literal_body_framed _ _ _ _ _ _ _ _ _
             Hz Hl Hne Hds Hplus Hterm Hbody Htail Hterm2).
  by destruct (Framer._onData (idle_framer []) rest).
Qed.

(** X4. While the dispatcher is busy, no character that arrives is dropped
    or put elsewhere, the terminator that ends each response apart: the
    responses that joined the server queue, with their terminators, then
    the pending command and the buffer, are all the text the framer held
    and was given. *)
Theorem framer_conserves_text c chunk :
  _processingServerData c = true →
  ∃ c' out terms,
    _onData parser compiler chunk c = Done tt c' ∧
    _serverQueue c' = _serverQueue c ++ (string_of_list_ascii <$> out) ∧
    length terms = length out ∧
    Forall Framer.is_terminator terms ∧
    glue out terms ++ Framer._command (framer c') ++
      Framer._incomingBuffer (framer c') =
    Framer._command (framer c) ++ Framer._incomingBuffer (framer c) ++ chunk.
Proof.
  intros Hb.
  destruct (framer_text_conserved (framer c) chunk) as (terms & Hlen & Hall & Heq).
  eexists _, (Framer._onData (framer c) chunk).1, terms.
  split; [by apply _onData_busy|]. fsimpl. done.
Qed.

End Busy.

(** *** The theorems at work *)

(** The greeting has just come in: the dispatcher has handled it and its
    next turn is scheduled, so it is busy. *)
Definition busy : client :=
  session [Call_connect; Socket_open; line "* OK IMAP4rev1 ready"].

Lemma busy_busy : _processingServerData busy = true.
Proof. vm_compute. reflexivity. Qed.

Lemma plain_lines_round_trip_witness :
  let lines := [(Framer.txt "* OK ready", [Framer.CR; Framer.LF]);
                (Framer.txt "W1 OK done", [Framer.LF])] in
  let partial := Framer.txt "* 1 FETCH (BO" in
  _processingServerData busy = true ∧
  framer busy = Framer.new_framer ∧
  Forall (λ lt, plain lt.1 ∧ Framer.is_terminator lt.2) lines ∧
  (Framer.LF ∉ partial) ∧
  _onData toy_parser toy_compiler (joined lines ++ partial) busy =
  Done tt
    (set_framer (idle_framer partial)
       (set_serverQueue
          (_serverQueue busy ++ (string_of_list_ascii <$> lines.*1))
          (set_socketTimeoutTimer false busy))).
Proof.
  intros lines partial.
  assert (Forall (λ lt, plain lt.1 ∧ Framer.is_terminator lt.2) lines) as H1.
  { repeat constructor; try (by left); try (by right);
      try (apply (bool_decide_unpack _); vm_compute; exact I);
      vm_compute; discriminate. }
  assert (Framer.LF ∉ partial) as H2
    by (apply (bool_decide_unpack _); vm_compute; exact I).
  assert (framer busy = Framer.new_framer) as H0 by (vm_compute; reflexivity).
  split; [exact busy_busy|]. split; [exact H0|]. split; [exact H1|].
  split; [exact H2|].
  exact (plain_lines_round_trip toy_parser toy_compiler busy lines partial
           busy_busy H0 H1 H2).
Defined.

Lemma literal_body_kept_whole_witness :
  let l := Framer.txt "* 1 FETCH (BODY[] " in
  let body := Framer.txt "hello" ++ [Framer.CR; Framer.LF] ++
              Framer.txt "{3}" ++ [Framer.CR; Framer.LF] in
  let ds := Framer.txt "12" in
  _processingServerData busy = true ∧
  Framer._literalRemaining (framer busy) = 0%N ∧
  (Framer.LF ∉ Framer._incomingBuffer (framer busy) ++ l) ∧
  ds ≠ [] ∧
  Forall (λ c, Framer.is_digit c = true) ds ∧
  is_plus ["+"%char] ∧
  Framer.is_terminator [Framer.CR; Framer.LF] ∧
  N.of_nat (length body) = Framer.Number_of_digits ds ∧
  (Framer.Number_of_digits ds ≤ 2 ^ 53)%N ∧
  plain (Framer.txt ")") ∧
  Framer.is_terminator [Framer.LF] ∧
  _serverQueue
    (final (_onData toy_parser toy_compiler
              (l ++ literal_prefix ds ["+"%char] ++ [Framer.CR; Framer.LF] ++
               body ++ Framer.txt ")" ++ [Framer.LF] ++ Framer.txt "W3 OK")
              busy)) =
  [string_of_list_ascii
     (Framer.txt "* 1 FETCH (BODY[] {12+}" ++ [Framer.CR; Framer.LF] ++
      body ++ Framer.txt ")")].
Proof.
  intros l body ds.
  assert (ds ≠ []) as H3 by discriminate.
  assert (Forall (λ c, Framer.is_digit c = true) ds) as H4
    by (repeat constructor).
  assert (is_plus ["+"%char]) as H5 by (by right).
  assert (Framer.is_terminator [Framer.CR; Framer.LF]) as H6 by (by right).
  assert (N.of_nat (length body) = Framer.Number_of_digits ds) as H7
    by reflexivity.
  assert (Framer.Number_of_digits ds ≤ 2 ^ 53)%N as H8
    by (vm_compute; discriminate).
  assert (plain (Framer.txt ")")) as H9.
  { repeat split; try (apply (bool_decide_unpack _); vm_compute; exact I);
      vm_compute; discriminate. }
  assert (Framer.is_terminator [Framer.LF]) as H10 by (by left).
  assert (Framer._literalRemaining (framer busy) = 0%N) as H1
    by (vm_compute; reflexivity).
  assert (Framer.LF ∉ Framer._incomingBuffer (framer busy) ++ l) as H2
    by (apply (bool_decide_unpack _); vm_compute; exact I).
  split; [exact busy_busy|]. split; [exact H1|]. split; [exact H2|].
  split; [exact H3|]. split; [exact H4|]. split; [exact H5|].
  split; [exact H6|]. split; [exact H7|]. split; [exact H8|].
  split; [exact H9|]. split; [exact H10|].
  rewrite (literal_body_kept_whole toy_parser toy_compiler busy l ds
             ["+"%char] [Framer.CR; Framer.LF] body (Framer.txt ")")
             [Framer.LF] (Framer.txt "W3 OK")
             busy_busy H1 H2 H3 H4 H5 H6 H7 H8 H9 H10).
  cbn [final]. fsimpl. vm_compute. reflexivity.
Defined.

Lemma framer_conserves_text_witness :
  let chunk := Framer.txt "* OK a" ++ [Framer.CR; Framer.LF] ++
               Framer.txt "* O" in
  _processingServerData busy = true ∧
  ∃ c' out terms,
    _onData toy_parser toy_compiler chunk busy = Done tt c' ∧
    _serverQueue c' = _serverQueue busy ++ (string_of_list_ascii <$> out) ∧
    length terms = length out ∧
    Forall Framer.is_terminator terms ∧
    glue out terms ++ Framer._command (framer c') ++
      Framer._incomingBuffer (framer c') =
    Framer._command (framer busy) ++ Framer._incomingBuffer (framer busy) ++
      chunk.
Proof.
  intros chunk. split; [exact busy_busy|].
  exact (framer_conserves_text toy_parser toy_compiler busy chunk busy_busy).
Defined.

End Arrivals.
(* ===================================================================== *)
(** ** Connecting, closing, logging out *)
(* ===================================================================== *)

Module Lifecycle.
Import JS Client Properties Notions Scenarios ClientFacts Invariants.
#[local] Open Scope client_scope.

Section Closing.

Variable parser : string → res val.
Variable compiler : val → bool → bool → res (list string).

Lemma resolve_new (ps : list promise) v c :
  promises c = ps ++ [Pending] →
  resolve (length ps) v c =
  Done tt (set_promises (ps ++ [Resolved v]) c).
Proof.
  intros Hp. unfold resolve, settle, write. rewrite Hp.
  rewrite list_lookup_middle by done.
  rewrite insert_app_r_alt by lia. by rewrite Nat.sub_diag.
Qed.

Lemma reject_new (ps : list promise) e c :
  promises c = ps ++ [Pending] →
  reject (length ps) e c =
  Done tt (set_promises (ps ++ [Rejected e]) c).
Proof.
  intros Hp. unfold reject, settle, write. rewrite Hp.
  rewrite list_lookup_middle by done.
  rewrite insert_app_r_alt by lia. by rewrite Nat.sub_diag.
Qed.

(** [_disableCompression] on a connection that is not open. *)
Lemma _disableCompression_closed c :
  is_closed c →
  ∃ c', _disableCompression c = Done tt c' ∧ is_closed c' ∧
        compressed c' = false ∧
        match socket c, socket c' with
        | Some sk, Some sk' =>
            readyState sk' = readyState sk ∧ onopen sk' = onopen sk
        | None, None => True
        | _, _ => False
        end ∧
        promises c' = promises c ∧ trace c' = trace c ∧
        _canSend c' = _canSend c ∧
        _connectionReady c' = _connectionReady c ∧
        _processingServerData c' = _processingServerData c ∧
        _tagCounter c' = _tagCounter c ∧ framer c' = framer c ∧
        timers c' = timers c ∧
        _globalAcceptUntagged c' = _globalAcceptUntagged c.
Proof.
  intros Hc. unfold _disableCompression. msimpl. unfold is_closed in *.
  destruct (compressed c) eqn:Hcmp; cbn [negb].
  - destruct (socket c) as [sk|] eqn:Hs; [|done].
    msimpl. fsimpl. rewrite Hs. msimpl. fsimpl.
    eexists. split; [reflexivity|]. fsimpl. by rewrite ?Hs.
  - eexists. split; [reflexivity|]. rewrite Hcmp.
    destruct (socket c); by repeat split.
Qed.

(** X11. [close()] on a connection that is not open, because there is no
    socket or its state is not [open], tears the client down at once and
    resolves: both queues are empty, no command is current, both timers are
    cleared, compression is off, and the close, error and data listeners of
    the socket are no-ops. It does nothing to the outside, and it leaves
    [_canSend], [_connectionReady], [_processingServerData], the tag
    counter, the framer with what it holds, the pending zero-delay timers
    and the handlers as they were. *)
Theorem close_when_not_open c :
  is_closed c →
  ∃ c', close c = Done (length (promises c)) c' ∧
        promises c' = promises c ++ [Resolved VUndefined] ∧
        _serverQueue c' = [] ∧ _clientQueue c' = [] ∧
        _currentCommand c' = VBool false ∧
        _idleTimer c' = false ∧ _socketTimeoutTimer c' = false ∧
        compressed c' = false ∧
        listeners_removed (socket c) (socket c') ∧
        trace c' = trace c ∧
        _canSend c' = _canSend c ∧
        _connectionReady c' = _connectionReady c ∧
        _processingServerData c' = _processingServerData c ∧
        _tagCounter c' = _tagCounter c ∧ framer c' = framer c ∧
        timers c' = timers c ∧
        _globalAcceptUntagged c' = _globalAcceptUntagged c.
Proof.
  intros Hc. unfold close, new_promise. msimpl. fsimpl.
  set (c0 := set_promises _ c).
  assert (is_closed c0) as Hc0 by exact Hc.
  destruct (_disableCompression_closed c0 Hc0)
    as (c1 & Hd & Hc1 & Hcmp & Hsock & Hp & Ht & H1 & H2 & H3 & H4 & H5 & H6
        & H7).
  unfold try_catch, close_executor. rewrite run_bind.
  rewrite (run_Done _ _ _ _ _ Hd). rewrite run_read.
  unfold is_closed in Hc1. subst c0. fsimpl in *.
  destruct (socket c1) as [sk1|] eqn:Hs1.
  - assert (tearDown (ThenCaller (length (promises c))) c1 =
            Done tt
              (set_promises (promises c ++ [Resolved VUndefined])
                 (set_socket
                    (Some {| readyState := readyState sk1;
                             onopen := onopen sk1; onclose := Hnoop;
                             onerror := Hnoop; ondata := Hnoop |})
                    (set_socketTimeoutTimer false
                       (set_idleTimer false
                          (set_currentCommand (VBool false)
                             (set_clientQueue []
                                (set_serverQueue [] c1)))))))) as Htd.
    { unfold tearDown. msimpl. fsimpl. rewrite Hs1. msimpl.
      cbn [run_then]. by rewrite (resolve_new (promises c)). }
    assert ((match readyState sk1 with
             | Open =>
                 write (set_socket
                          (Some {| readyState := Closing;
                                   onopen := onopen sk1;
                                   onclose :=
                                     HtearDown
                                       (ThenCaller (length (promises c)));
                                   onerror :=
                                     HtearDown
                                       (ThenCaller (length (promises c)));
                                   ondata := ondata sk1 |})) >>
                 emit Esocket_close
             | _ => tearDown (ThenCaller (length (promises c)))
             end) = tearDown (ThenCaller (length (promises c)))) as ->
      by (by destruct (readyState sk1)).
    rewrite Htd. eexists. split; [reflexivity|]. fsimpl.
    destruct (socket c) as [sk|]; [|done].
    destruct Hsock as [Hr Ho]. unfold listeners_removed. by repeat split.
  - assert (tearDown (ThenCaller (length (promises c))) c1 =
            Done tt
              (set_promises (promises c ++ [Resolved VUndefined])
                 (set_socketTimeoutTimer false
                    (set_idleTimer false
                       (set_currentCommand (VBool false)
                          (set_clientQueue []
                             (set_serverQueue [] c1))))))) as Htd.
    { unfold tearDown. msimpl. fsimpl. rewrite Hs1. msimpl.
      cbn [run_then]. by rewrite (resolve_new (promises c)). }
    rewrite Htd. eexists. split; [reflexivity|]. fsimpl. rewrite Hs1.
    destruct (socket c) as [sk|]; [done|]. by repeat split.
Qed.

Lemma close_executor_open k c sk :
  socket c = Some sk → readyState sk = Open → compressed c = false →
  close_executor k c =
  Done tt (set_trace (trace c ++ [Esocket_close])
             (set_socket (Some (closing k sk)) c)).
Proof.
  intros Hs Hr Hcmp. unfold close_executor, _disableCompression.
  msimpl. rewrite Hcmp. cbn [negb]. msimpl. rewrite Hs, Hr. msimpl. done.
Qed.

(** The socket reports that it has closed, to the [tearDown] of the
    [close()] call that asked for it. *)
Lemma closing_socket_closes k c sk :
  socket c = Some (closing k sk) →
  react parser compiler Socket_close c =
  run_then k
    (set_socket (Some (torn_down Closed sk))
       (set_socketTimeoutTimer false
          (set_idleTimer false
             (set_currentCommand (VBool false)
                (set_clientQueue []
                   (set_serverQueue [] c)))))).
Proof.
  intros Hs. cbn [react]. unfold set_readyState, socket_handler.
  msimpl. rewrite Hs. fsimpl. msimpl. fsimpl.
  cbn [closing onclose run_handler]. unfold tearDown. msimpl. fsimpl.
  msimpl. done.
Qed.

(** X12. [close()] on an open socket asks the socket to close and waits:
    its promise is pending, and the queues and the current command are
    still there. When the socket reports that it has closed the client is
    torn down and the promise resolves. *)
Theorem close_waits_for_the_socket c sk :
  socket c = Some sk → readyState sk = Open → compressed c = false →
  let c1 := step parser compiler c Call_close in
  let c2 := step parser compiler c1 Socket_close in
  (promises c1 = promises c ++ [Pending] ∧
   trace c1 = trace c ++ [Esocket_close] ∧
   _clientQueue c1 = _clientQueue c ∧ _serverQueue c1 = _serverQueue c ∧
   _currentCommand c1 = _currentCommand c) ∧
  (promises c2 = promises c ++ [Resolved VUndefined] ∧
   trace c2 = trace c1 ∧
   _clientQueue c2 = [] ∧ _serverQueue c2 = [] ∧
   _currentCommand c2 = VBool false ∧
   socket c2 = Some (torn_down Closed sk)).
Proof.
  intros Hs Hr Hcmp c1 c2.
  assert (c1 = set_trace (trace c ++ [Esocket_close])
                 (set_socket
                    (Some (closing (ThenCaller (length (promises c))) sk))
                    (set_promises (promises c ++ [Pending]) c))) as Hc1.
  { subst c1. unfold step. cbn [react]. unfold close, new_promise.
    msimpl. fsimpl. unfold try_catch. rewrite run_bind.
    by rewrite (close_executor_open _ _ sk). }
  split; [by rewrite Hc1|].
  assert (socket c1 =
          Some (closing (ThenCaller (length (promises c))) sk)) as Hs1
    by (by rewrite Hc1).
  subst c2. unfold step. rewrite (closing_socket_closes _ _ _ Hs1).
  cbn [run_then]. rewrite (resolve_new (promises c)) by (by rewrite Hc1).
  cbn [final]. fsimpl. by rewrite Hc1.
Qed.

(** X13. An error on an open connection is not reported at once: the error
    path asks the socket to close, and [onerror] is called when the socket
    reports that it has closed, after the client was torn down. *)
Theorem error_reported_when_socket_closes c sk evt :
  socket c = Some sk → readyState sk = Open → compressed c = false →
  evt ≠ VUndefined → evt ≠ VNull →
  let c1 := step parser compiler c (Call_onError evt) in
  let c2 := step parser compiler c1 Socket_close in
  trace c1 = trace c ++ [Esocket_close] ∧
  _clientQueue c1 = _clientQueue c ∧
  _currentCommand c1 = _currentCommand c ∧
  (∃ e, trace c2 = trace c1 ++ [Eonerror e]) ∧
  _clientQueue c2 = [] ∧ _serverQueue c2 = [] ∧
  _currentCommand c2 = VBool false.
Proof.
  intros Hs Hr Hcmp H1 H2 c1 c2.
  assert (c1 = set_trace (trace c ++ [Esocket_close])
                 (set_socket (Some (closing (ThenOnError evt) sk)) c))
    as Hc1.
  { subst c1. unfold step. cbn [react]. unfold _onError, try_catch.
    by rewrite (close_executor_open _ _ sk). }
  repeat (split; [by rewrite Hc1|]).
  assert (socket c1 = Some (closing (ThenOnError evt) sk)) as Hs1
    by (by rewrite Hc1).
  subst c2. unfold step. rewrite (closing_socket_closes _ _ _ Hs1).
  cbn [run_then]. unfold try_catch.
  match goal with
  | |- context [deliver_error evt ?c0] =>
      destruct (deliver_error_delivers evt c0 H1 H2) as [e ->]
  end.
  cbn [final]. fsimpl. split; [by exists e|]. done.
Qed.

End Closing.

Section Connecting.

Variable parser : string → res val.
Variable compiler : val → bool → bool → res (list string).

(** X14. [connect()] gives a pending promise. It resolves when the socket
    opens. When the socket fails before it opens, the promise is rejected
    with an error that has the message of the event, the [onerror] sink is
    not called, and the client is not torn down. *)
Theorem connect_outcomes c m d :
  let c1 := step parser compiler c Call_connect in
  let evt := VObject {[ "data" := VObject (<["message" := m]> d) ]} in
  let opened := step parser compiler c1 Socket_open in
  let failed := step parser compiler c1 (Socket_error evt) in
  promises c1 = promises c ++ [Pending] ∧
  promises opened = promises c ++ [Resolved VUndefined] ∧
  (onerror <$> socket opened) = Some HonError ∧
  promises failed =
    promises c ++
    [Rejected (VError ("Could not open socket: " +:+ ToString m) ∅)] ∧
  trace failed = trace c ∧
  _clientQueue failed = _clientQueue c.
Proof.
  intros c1 evt opened failed.
  assert (c1 = set_socket
                 (Some {| readyState := Connecting;
                          onopen := Honopen (length (promises c));
                          onclose := Hunexpected_close;
                          onerror := Hconnect_failed (length (promises c));
                          ondata := HonData |})
                 (set_promises (promises c ++ [Pending]) c)) as Hc1.
  { subst c1. unfold step. cbn [react]. unfold connect, new_promise.
    msimpl. done. }
  split; [by rewrite Hc1|].
  assert (opened =
          set_promises (promises c ++ [Resolved VUndefined])
            (set_socket
               (Some {| readyState := Open;
                        onopen := Honopen (length (promises c));
                        onclose := Hunexpected_close;
                        onerror := HonError;
                        ondata := HonData |}) c1)) as Ho.
  { subst opened. unfold step. cbn [react].
    unfold set_readyState, socket_handler. msimpl. rewrite Hc1. fsimpl.
    msimpl. fsimpl. cbn [run_handler]. msimpl. fsimpl. msimpl.
    by rewrite (resolve_new (promises c)). }
  split; [by rewrite Ho|]. split; [by rewrite Ho|].
  assert (failed =
          set_promises
            (promises c ++
             [Rejected (VError ("Could not open socket: " +:+ ToString m) ∅)])
            c1) as Hf.
  { subst failed. unfold step. cbn [react]. unfold socket_handler. msimpl.
    rewrite Hc1. fsimpl. cbn [run_handler]. subst evt.
    erewrite get_object_Some by apply lookup_singleton_eq. msimpl.
    erewrite get_object_Some by apply lookup_insert_eq. msimpl.
    by rewrite (reject_new (promises c)). }
  rewrite Hf, Hc1. by fsimpl.
Qed.

(** X15. [logout()] before [connect()]: there is no socket to put the
    listeners on, the promise is rejected with the [TypeError], and
    nothing else happens: no tag is drawn and no LOGOUT is queued. *)
Theorem logout_without_socket c :
  socket c = None →
  logout compiler c =
  Done (length (promises c))
       (set_promises (promises c ++ [Rejected TypeError]) c).
Proof.
  intros Hs. unfold logout, new_promise. msimpl. fsimpl.
  unfold try_catch. rewrite run_bind. msimpl. fsimpl. rewrite Hs.
  unfold throw. by rewrite (reject_new (promises c)).
Qed.

Lemma settle_first_of_two (ps : list promise) s c :
  promises c = ps ++ [Pending; Pending] →
  settle (length ps) s c = Done tt (set_promises (ps ++ [s; Pending]) c).
Proof.
  intros Hp. unfold settle, write. rewrite Hp.
  rewrite list_lookup_middle by done.
  rewrite insert_app_r_alt by lia. by rewrite Nat.sub_diag.
Qed.

(** X16. [logout()] while the client may not send: LOGOUT waits in the
    queue with the next tag, and the close and error listeners of the
    socket now belong to the logout. When the socket closes the client is
    torn down and the promise of [logout()] resolves; [onerror] is not
    called, and the completion of LOGOUT itself stays pending. *)
Theorem logout_resolves_when_socket_closes c sk :
  socket c = Some sk → _canSend c = false →
  let p := length (promises c) in
  let c1 := step parser compiler c Call_logout in
  let c2 := step parser compiler c1 Socket_close in
  promises c1 = promises c ++ [Pending; Pending] ∧
  (∃ r, _clientQueue c1 = _clientQueue c ++ [VObject r] ∧
        r !! "tag" = Some (VString (next_tag c)) ∧
        r !! "callback" = Some (VFunction (FCompletion (S p)))) ∧
  trace c1 = trace c ∧
  promises c2 = promises c ++ [Resolved VUndefined; Pending] ∧
  trace c2 = trace c ∧
  _clientQueue c2 = [] ∧ _currentCommand c2 = VBool false.
Proof.
  intros Hs Hcan p c1 c2.
  set (tag := next_tag c).
  set (record :=
         command_record tag
           (VObject (<["tag" := VString tag]> {[ "command" := VString "LOGOUT" ]}))
           [] (S p)).
  assert (c1 =
          set_clientQueue (_clientQueue c ++ [VObject record])
            (set_promises (promises c ++ [Pending; Pending])
               (set_tagCounter (increment (_tagCounter c))
                  (set_socket
                     (Some {| readyState := readyState sk;
                              onopen := onopen sk; onclose := Hlogout p;
                              onerror := Hlogout p; ondata := ondata sk |})
                     c)))) as Hc1.
  { subst c1. unfold step. cbn [react]. unfold logout, new_promise.
    msimpl. fsimpl. unfold try_catch at 1. rewrite run_bind. msimpl.
    fsimpl. rewrite Hs. msimpl.
    unfold enqueueCommand, draw_tag, new_promise.
    cbn [typeof String.eqb Ascii.eqb Bool.eqb]. msimpl. fsimpl.
    cbn [set is_proto String.eqb Ascii.eqb Bool.eqb]. msimpl. fsimpl.
    rewrite length_app. cbn [length].
    replace (length (promises c) + 1) with (S p) by (subst p; lia).
    unfold try_catch. rewrite run_bind.
    change (normalize_accept VUndefined) with (@nil string).
    unfold apply_options. cbn [default from_option].
    rewrite map_to_list_empty. cbn [fold_left add_buckets]. msimpl.
    fsimpl. rewrite Hcan. cbn [when]. msimpl. cbn [final ret]. fsimpl.
    by rewrite <- app_assoc. }
  split; [by rewrite Hc1|]. split.
  { exists record. rewrite Hc1. fsimpl. by repeat split. }
  split; [by rewrite Hc1|].
  subst c2. unfold step. cbn [react].
  unfold set_readyState, socket_handler. msimpl. rewrite Hc1. fsimpl.
  msimpl. fsimpl. cbn [run_handler]. unfold try_catch, close_executor.
  rewrite run_bind.
  match goal with
  | |- context [_disableCompression ?c0] =>
      destruct (_disableCompression_closed c0)
        as (c3 & Hd & Hc3 & _ & Hsock & Hp3 & Ht3 & _);
        [unfold is_closed; fsimpl; discriminate|]
  end.
  rewrite Hd. msimpl. fsimpl in *.
  destruct (socket c3) as [sk3|] eqn:Hs3; [|done].
  destruct Hsock as [Hr3 _]. rewrite Hr3.
  unfold tearDown. msimpl. fsimpl. rewrite Hs3. msimpl. cbn [run_then].
  unfold resolve. rewrite (settle_first_of_two (promises c)) by (by fsimpl).
  cbn [final]. fsimpl. by rewrite Ht3.
Qed.

End Connecting.

Section Errors.

Variable parser : string → res val.
Variable compiler : val → bool → bool → res (list string).

(** On a connection that is not open the error path comes to the delivery
    at once, with nothing done to the outside before it. *)
Lemma _onError_closed_delivery c :
  is_closed c →
  ∃ c1, trace c1 = trace c ∧
        ∀ evt, _onError evt c =
               try_catch (deliver_error evt) (λ e, emit (Eunhandled e)) c1.
Proof.
  intros Hc.
  destruct (_disableCompression_closed c Hc)
    as (c0 & Hd & Hc0 & _ & _ & _ & Ht & _).
  unfold is_closed in Hc0.
  destruct (socket c0) as [sk0|] eqn:Hs0.
  - eexists (set_socket (Some (torn_down (readyState sk0) sk0))
               (set_socketTimeoutTimer false
                  (set_idleTimer false
                     (set_currentCommand (VBool false)
                        (set_clientQueue [] (set_serverQueue [] c0)))))).
    split; [done|]. intros evt.
    unfold _onError, try_catch at 1, close_executor. rewrite run_bind.
    rewrite Hd. msimpl. rewrite Hs0.
    assert (∀ (a b : M unit),
              (match readyState sk0 with Open => a | _ => b end) = b)
      as -> by (intros; by destruct (readyState sk0)).
    unfold tearDown. msimpl. fsimpl. rewrite Hs0. msimpl. cbn [run_then].
    unfold try_catch. by destruct (deliver_error evt _).
  - eexists (set_socketTimeoutTimer false
               (set_idleTimer false
                  (set_currentCommand (VBool false)
                     (set_clientQueue [] (set_serverQueue [] c0))))).
    split; [done|]. intros evt.
    unfold _onError, try_catch at 1, close_executor. rewrite run_bind.
    rewrite Hd. msimpl. rewrite Hs0.
    unfold tearDown. msimpl. fsimpl. rewrite Hs0. msimpl. cbn [run_then].
    unfold try_catch. by destruct (deliver_error evt _).
Qed.

(** X17. What the [onerror] sink is given, on a connection that is not
    open. An error object is passed as it is. An event whose [data] is an
    error object gives that object. An event whose [data] has a [message]
    gives a new error with that message, and a string gives a new error
    with that string as message. Without an event, [undefined] or [null],
    the delivery throws before it reaches the sink: [onerror] is not
    called, and the exception is left in a promise nobody holds. *)
Theorem onError_normalises c :
  is_closed c →
  let delivered evt := since c (final (_onError evt c)) in
  (∀ m props, delivered (VError m props) = [Eonerror (VError m props)]) ∧
  (∀ o m props, o !! "data" = Some (VError m props) →
                delivered (VObject o) = [Eonerror (VError m props)]) ∧
  (∀ o d m, o !! "data" = Some (VObject d) → d !! "message" = Some m →
            truthy m = true →
            delivered (VObject o) = [Eonerror (VError (ToString m) ∅)]) ∧
  (∀ s, s ≠ "" → delivered (VString s) = [Eonerror (VError s ∅)]) ∧
  delivered VUndefined = [Eunhandled TypeError] ∧
  delivered VNull = [Eunhandled TypeError].
Proof.
  intros Hc delivered.
  destruct (_onError_closed_delivery c Hc) as (c1 & Ht & Heq).
  assert (∀ x c', trace c' = trace c1 ++ [x] → since c c' = [x]) as Hsince.
  { intros x c' Hx. unfold since. rewrite Hx, <- Ht.
    by rewrite drop_app_length. }
  subst delivered. cbn beta. repeat split.
  - intros m props. rewrite Heq. by apply Hsince.
  - intros o m props Hdata. rewrite Heq. apply Hsince.
    unfold try_catch, deliver_error. cbn [isError and_get truthy].
    rewrite (get_object_Some _ _ _ Hdata). msimpl. done.
  - intros o d m Hdata Hmsg Hm. rewrite Heq. apply Hsince.
    unfold try_catch, deliver_error. cbn [isError and_get truthy].
    rewrite (get_object_Some _ _ _ Hdata). msimpl.
    cbn [isError andb and_get truthy].
    rewrite (get_object_Some _ _ _ Hmsg). msimpl. rewrite Hm. msimpl.
    unfold js_or. rewrite !Hm. unfold emit, write. cbn [final]. fsimpl.
    by destruct m.
  - intros s Hs. rewrite Heq. apply Hsince.
    assert ((s =? "")%string = false) as Hne by (by apply String.eqb_neq).
    assert (and_get (VString s) "data" = Ret VUndefined) as Hd
      by (unfold and_get; simpl; by rewrite Hne).
    unfold try_catch, deliver_error. cbn [isError]. rewrite Hd. msimpl.
    cbn [isError andb and_get truthy]. rewrite Hne. cbn [negb andb].
    msimpl. cbn [truthy]. msimpl.
    change (get (VString s) "data") with (Ret VUndefined : res val).
    msimpl. unfold js_or. cbn [truthy]. rewrite Hne. done.
  - rewrite Heq. by apply Hsince.
  - rewrite Heq. by apply Hsince.
Qed.

End Errors.

Section Compression.

(** X18. [enableCompression()] and then [_disableCompression()] leave the
    client as it was: the data listener of the socket is put back. Enabling
    twice loses that listener: the second call saves the inflating listener
    over it, and after [_disableCompression()] the socket delivers its data
    to a listener that drops them, since compression is off. *)
Theorem compression_round_trip c sk :
  socket c = Some sk → compressed c = false → _socketOnData c = None →
  (enableCompression >> _disableCompression) c = Done tt c ∧
  ∃ c2, (enableCompression >> enableCompression >> _disableCompression) c
          = Done tt c2 ∧
        socket c2 = Some (with_ondata Hinflate sk) ∧
        compressed c2 = false ∧
        ∀ parser compiler chunk,
          react parser compiler (Socket_data chunk) c2 = Done tt c2.
Proof.
  intros Hs Hcmp Hd. split.
  - unfold enableCompression, _disableCompression. msimpl. rewrite Hs.
    msimpl. fsimpl. msimpl. fsimpl. cbn [default from_option].
    destruct c, sk. simpl in *. by subst.
  - unfold enableCompression, _disableCompression. msimpl. rewrite Hs.
    msimpl. fsimpl. msimpl. fsimpl. msimpl. fsimpl.
    cbn [default from_option]. eexists. split; [reflexivity|].
    fsimpl. repeat split.
Qed.

End Compression.

(** *** The theorems at work *)

(** A command was enqueued, and [close()] is called, before [connect()]. *)
Definition never_connected : client :=
  session [Call_enqueueCommand (VString "NOOP") VUndefined None].

Lemma never_connected_closed : is_closed never_connected.
Proof. unfold is_closed. vm_compute. reflexivity. Qed.

Lemma close_when_not_open_witness :
  is_closed never_connected ∧
  length (_clientQueue never_connected) = 1 ∧
  ∃ c', close never_connected = Done 1 c' ∧
        promises c' = promises never_connected ++ [Resolved VUndefined] ∧
        _clientQueue c' = [] ∧
        _tagCounter c' = _tagCounter never_connected.
Proof.
  split; [exact never_connected_closed|]. split; [reflexivity|].
  destruct (close_when_not_open never_connected never_connected_closed)
    as (c' & H1 & H2 & _ & H3 & _ & _ & _ & _ & _ & _ & _ & _ & _ & H4 & _).
  exists c'. split; [exact H1|]. split; [exact H2|]. split; [exact H3|].
  exact H4.
Defined.

(** The socket of a client that has connected. *)
Definition open_socket : tcp_socket :=
  {| readyState := Open; onopen := Honopen 0; onclose := Hunexpected_close;
     onerror := HonError; ondata := HonData |}.

Definition connected : client := session [Call_connect; Socket_open].

Lemma connected_socket : socket connected = Some open_socket.
Proof. vm_compute. reflexivity. Qed.

Lemma close_waits_for_the_socket_witness :
  socket connected = Some open_socket ∧ readyState open_socket = Open ∧
  compressed connected = false ∧
  promises (step toy_parser toy_compiler connected Call_close) =
    promises connected ++ [Pending] ∧
  promises (step toy_parser toy_compiler
              (step toy_parser toy_compiler connected Call_close)
              Socket_close) =
    promises connected ++ [Resolved VUndefined].
Proof.
  split; [exact connected_socket|]. split; [reflexivity|].
  split; [reflexivity|].
  destruct (close_waits_for_the_socket toy_parser toy_compiler connected
              open_socket connected_socket eq_refl eq_refl)
    as [(H1 & _) (H2 & _)].
  split; [exact H1|exact H2].
Defined.

Lemma error_reported_when_socket_closes_witness :
  socket connected = Some open_socket ∧ readyState open_socket = Open ∧
  compressed connected = false ∧
  VString "boom" ≠ VUndefined ∧ VString "boom" ≠ VNull ∧
  trace (step toy_parser toy_compiler connected
           (Call_onError (VString "boom"))) =
    trace connected ++ [Esocket_close] ∧
  ∃ e, trace (step toy_parser toy_compiler
                (step toy_parser toy_compiler connected
                   (Call_onError (VString "boom")))
                Socket_close) =
       trace (step toy_parser toy_compiler connected
                (Call_onError (VString "boom"))) ++ [Eonerror e].
Proof.
  assert (VString "boom" ≠ VUndefined) as H4 by discriminate.
  assert (VString "boom" ≠ VNull) as H5 by discriminate.
  split; [exact connected_socket|]. split; [reflexivity|].
  split; [reflexivity|]. split; [exact H4|]. split; [exact H5|].
  destruct (error_reported_when_socket_closes toy_parser toy_compiler
              connected open_socket (VString "boom") connected_socket
              eq_refl eq_refl H4 H5)
    as (H1 & _ & _ & H2 & _).
  split; [exact H1|exact H2].
Defined.

Lemma logout_without_socket_witness :
  let c := ImapClient VUndefined VUndefined None in
  socket c = None ∧
  logout toy_compiler c =
  Done 0 (set_promises [Rejected TypeError] c).
Proof.
  intros c. split; [reflexivity|].
  exact (logout_without_socket toy_compiler c eq_refl).
Defined.

Lemma logout_resolves_when_socket_closes_witness :
  socket connected = Some open_socket ∧ _canSend connected = false ∧
  promises (step toy_parser toy_compiler
              (step toy_parser toy_compiler connected Call_logout)
              Socket_close) =
    promises connected ++ [Resolved VUndefined; Pending] ∧
  trace (step toy_parser toy_compiler
           (step toy_parser toy_compiler connected Call_logout)
           Socket_close) = trace connected.
Proof.
  split; [exact connected_socket|]. split; [reflexivity|].
  destruct (logout_resolves_when_socket_closes toy_parser toy_compiler
              connected open_socket connected_socket eq_refl)
    as (_ & _ & _ & H1 & H2 & _).
  split; [exact H1|exact H2].
Defined.

Lemma onError_normalises_witness :
  is_closed never_connected ∧
  since never_connected (final (_onError (VString "boom") never_connected)) =
    [Eonerror (VError "boom" ∅)] ∧
  since never_connected (final (_onError VUndefined never_connected)) =
    [Eunhandled TypeError].
Proof.
  split; [exact never_connected_closed|].
  destruct (onError_normalises never_connected never_connected_closed)
    as (_ & _ & _ & H4 & H5 & _).
  split; [|exact H5].
  apply (H4 "boom"). discriminate.
Defined.

Lemma compression_round_trip_witness :
  socket connected = Some open_socket ∧ compressed connected = false ∧
  _socketOnData connected = None ∧
  (enableCompression >> _disableCompression) connected = Done tt connected.
Proof.
  split; [exact connected_socket|]. split; [reflexivity|].
  split; [reflexivity|].
  destruct (compression_round_trip connected open_socket connected_socket
              eq_refl eq_refl) as [H _].
  exact H.
Defined.

End Lifecycle.
(* ===================================================================== *)
(** ** Commands on their way out *)
(* ===================================================================== *)

Module Sending.
Import JS Client Properties Notions Scenarios ClientFacts Invariants
  Lifecycle.
#[local] Open Scope client_scope.

Definition noop_request : gmap string val := {[ "command" := VString "NOOP" ]}.

Lemma append_empty s : s +:+ "" = s.
Proof.
  induction s as [|a s IH]; [done|].
  change (String a s +:+ "") with (String a (s +:+ "")). by rewrite IH.
Qed.

Lemma append_assoc (a b c : string) : (a +:+ b) +:+ c = a +:+ b +:+ c.
Proof.
  induction a as [|x a IH]; [done|].
  change ((String x a +:+ b) +:+ c) with (String x ((a +:+ b) +:+ c)).
  by rewrite IH.
Qed.

Lemma together_written chunks :
  chunks ≠ [] → together (written chunks) = together chunks +:+ CRLF.
Proof.
  induction chunks as [|x [|y t] IH]; [done| |]; intros _.
  - simpl. by rewrite !append_empty.
  - change (together (written (x :: y :: t)))
      with ((x +:+ "") +:+ together (written (y :: t))).
    rewrite IH by done. rewrite append_empty.
    change (together (x :: y :: t)) with (x +:+ together (y :: t)).
    by rewrite append_assoc.
Qed.

Section Chunks.

Variable compiler : val → bool → bool → res (list string).

Lemma send_to_socket str c sk :
  socket c = Some sk →
  send str c =
  Done tt (set_trace (trace c ++ [Esend (compressed c) str])
             (set_socketTimeoutTimer true c)).
Proof.
  intros Hs. unfold send. msimpl. fsimpl.
  destruct (compressed c); [done|]. msimpl. fsimpl. by rewrite Hs.
Qed.

Lemma truthy_length_fmap (x : string) (l : list string) :
  truthy (VNumber (Z.of_nat (length (VString <$> x :: l)))) = true.
Proof. cbn [fmap list_fmap]. apply truthy_length. Qed.

(** One continuation response while chunks are left. *)
Lemma continuation_next c cur chunk more sk :
  _currentCommand c = VObject cur →
  cur !! "data" = Some (VArray (VString <$> chunk :: more)) →
  socket c = Some sk →
  continuation c =
  Done tt
    (set_timers (S (timers c))
       (set_trace
          (trace c ++
           [Esend (compressed c)
              (chunk +:+ match more with [] => CRLF | _ => "" end)])
          (set_socketTimeoutTimer true
             (set_currentCommand
                (VObject (<["data" := VArray (VString <$> more)]> cur)) c)))).
Proof.
  intros Hcur Hdata Hs. unfold continuation. msimpl. rewrite Hcur.
  rewrite (get_object_Some _ _ _ Hdata). msimpl.
  rewrite get_array_length. msimpl. rewrite truthy_length_fmap.
  cbn [fmap list_fmap shift set is_proto String.eqb Ascii.eqb Bool.eqb].
  msimpl. rewrite get_array_length. msimpl.
  erewrite run_Done by (eapply send_to_socket; fsimpl; exact Hs).
  unfold schedule, write. fsimpl. cbn [ToString].
  by destruct more.
Qed.

Lemma continuations_all chunks : ∀ c cur sk,
  _currentCommand c = VObject cur →
  cur !! "data" = Some (VArray (VString <$> chunks)) →
  socket c = Some sk →
  ∃ c', continuations (length chunks) c = Done tt c' ∧
        trace c' = trace c ++ (Esend (compressed c) <$> written chunks) ∧
        (∃ cur', _currentCommand c' = VObject cur' ∧
                 cur' !! "data" = Some (VArray [])) ∧
        timers c' = timers c + length chunks ∧
        _canSend c' = _canSend c ∧ _clientQueue c' = _clientQueue c.
Proof.
  induction chunks as [|chunk more IH]; intros c cur sk Hcur Hdata Hs.
  - exists c. cbn [continuations length written fmap list_fmap].
    rewrite app_nil_r, Nat.add_0_r. repeat split; eauto.
  - cbn [continuations length].
    rewrite (run_Done _ _ _ _ _ (continuation_next _ _ _ _ _ Hcur Hdata Hs)).
    match goal with
    | |- context [continuations _ ?c1] =>
        destruct (IH c1 (<["data" := VArray (VString <$> more)]> cur) sk)
          as (c' & Hrun & Ht & Hc & Hn & Hcan & Hq);
          [reflexivity|apply lookup_insert_eq|exact Hs|]
    end.
    exists c'. split; [exact Hrun|]. fsimpl in *.
    rewrite Ht, Hn, Hcan, Hq. cbn [written fmap list_fmap].
    rewrite <- app_assoc. repeat split; try done. lia.
Qed.

(** X19. A command that the compiler gives in several chunks goes out
    chunk by chunk: [_sendRequest] writes the first, every continuation
    response of the server the next one, in order, and CRLF follows the last
    chunk only. What was written, put together, is the chunks put together
    and one CRLF. [_canSend] stays off all the while. *)
Theorem chunks_go_out_in_order c r request rest chunk more logged sk :
  _clientQueue c = VObject r :: rest →
  r !! "request" = Some request →
  compiler request true false = Ret (chunk :: more) →
  compiler request false true = Ret logged →
  socket c = Some sk →
  ∃ c', (_sendRequest compiler >> continuations (length more)) c
          = Done tt c' ∧
        trace c' =
          trace c ++ (Esend (compressed c) <$> written (chunk :: more)) ∧
        together (written (chunk :: more)) =
          together (chunk :: more) +:+ CRLF ∧
        _canSend c' = false ∧ _clientQueue c' = rest.
Proof.
  intros Hq Hreq Hdata Hlog Hs.
  set (cur := <["data" := VArray (VString <$> more)]>
                (<["data" := VArray (VString <$> chunk :: more)]> r)).
  set (c1 := set_trace
               (trace c ++
                [Esend (compressed c)
                   (chunk +:+ match more with [] => CRLF | _ => "" end)])
               (set_socketTimeoutTimer true
                  (set_currentCommand (VObject cur)
                     (set_clientQueue rest
                        (set_canSend false (set_idleTimer false c)))))).
  assert (_sendRequest compiler c = Done tt c1) as Hsend.
  { unfold _sendRequest, _clearIdle. msimpl. rewrite Hq. msimpl. fsimpl.
    unfold try_catch. rewrite run_bind.
    rewrite (get_object_Some _ _ _ Hreq). msimpl. rewrite Hdata. msimpl.
    cbn [set is_proto String.eqb Ascii.eqb Bool.eqb]. msimpl. rewrite Hlog.
    msimpl. unfold ret at 1.
    msimpl. fsimpl.
    erewrite get_object_Some by apply lookup_insert_eq.
    msimpl. cbn [fmap list_fmap shift set is_proto String.eqb Ascii.eqb Bool.eqb]. msimpl.
    rewrite get_array_length. msimpl.
    erewrite send_to_socket by (fsimpl; exact Hs).
    cbn [ToString]. subst c1 cur. fsimpl.
    destruct more; reflexivity. }
  rewrite (run_Done _ _ _ _ _ Hsend).
  destruct (continuations_all more c1 cur sk)
    as (c' & Hrun & Ht & _ & _ & Hcan & Hq');
    [reflexivity|apply lookup_insert_eq|exact Hs|].
  exists c'. split; [exact Hrun|]. subst c1. fsimpl in *.
  rewrite Ht, Hcan, Hq', <- app_assoc. repeat split.
  by apply together_written.
Qed.

(** X20. A request that is neither a string nor an object, [undefined]
    among them, with names of ASCII text to accept: [enqueueCommand] throws
    the [TypeError] to its caller instead of returning a promise. The tag is
    drawn before that and is not given back; nothing else has changed. *)
Theorem enqueue_without_request c request acceptUntagged options :
  no_request request = true →
  plain_names acceptUntagged = true →
  enqueueCommand compiler request acceptUntagged options c =
  Raise TypeError (set_tagCounter (increment (_tagCounter c)) c).
Proof.
  intros Hr _. unfold enqueueCommand, draw_tag.
  destruct request; try discriminate Hr;
    cbn [typeof String.eqb Ascii.eqb Bool.eqb]; msimpl; fsimpl; reflexivity.
Qed.


End Chunks.

Section Refused.

Variable parser : string → res val.
Variable compiler : val → bool → bool → res (list string).

Lemma _sendRequest_refused c record request rest e sk :
  _clientQueue c = VObject record :: rest →
  record !! "request" = Some request →
  compiler request true false = Thr e →
  e ≠ VUndefined → e ≠ VNull →
  socket c = Some sk → readyState sk = Open → compressed c = false →
  _sendRequest compiler c =
  Done tt
    (set_trace (trace c ++ [Econsole_error; Esocket_close])
       (set_socket (Some (closing (ThenOnError e) sk))
          (set_currentCommand (VObject record)
             (set_clientQueue rest
                (set_canSend false (set_idleTimer false c)))))).
Proof.
  intros Hq Hreq Hcompile H1 H2 Hs Hr Hcmp.
  unfold _sendRequest, _clearIdle. msimpl. rewrite Hq. msimpl. fsimpl.
  match goal with
  | |- bind (try_catch ?m ?h) ?k ?s = Done tt ?s' =>
      assert (try_catch m h s = Done false s') as Htry
  end.
  { unfold try_catch. rewrite (get_object_Some _ _ _ Hreq). msimpl.
    rewrite Hcompile. msimpl.
    destruct (get_total e "stack" H1 H2) as [x ->]. msimpl.
    unfold _onError, try_catch. rewrite run_bind.
    erewrite close_executor_open by (fsimpl; eassumption).
    cbn [ret]. fsimpl. by rewrite <- app_assoc. }
  by rewrite (run_Done _ _ _ _ _ Htry).
Qed.

(** X22. A command that the compiler refuses, on an open connection that
    was free to send: its completion is not rejected. The error is logged
    and goes to the error path, which asks the socket to close; when the
    socket has closed, [onerror] is called and the client is torn down:
    the completion is still pending, and the record that held its callback
    is gone. *)
Theorem refused_command_stays_pending c r e sk :
  _clientQueue c = [] → _canSend c = true →
  socket c = Some sk → readyState sk = Open → compressed c = false →
  compiler (VObject (<["tag" := VString (next_tag c)]> r)) true false
    = Thr e →
  e ≠ VUndefined → e ≠ VNull →
  let p := length (promises c) in
  let c1 := step parser compiler c
              (Call_enqueueCommand (VObject r) VUndefined None) in
  let c2 := step parser compiler c1 Socket_close in
  promises c1 = promises c ++ [Pending] ∧
  trace c1 = trace c ++ [Econsole_error; Esocket_close] ∧
  _canSend c1 = false ∧
  promises c2 = promises c ++ [Pending] ∧
  (∃ e', trace c2 = trace c1 ++ [Eonerror e']) ∧
  _clientQueue c2 = [] ∧ _currentCommand c2 = VBool false.
Proof.
  intros Hq Hcan Hs Hr Hcmp Hcompile H1 H2 p c1 c2.
  unfold next_tag in Hcompile.
  set (tag := "W" +:+ pretty (increment (_tagCounter c))) in *.
  set (request := VObject (<["tag" := VString tag]> r)) in *.
  set (record := command_record tag request [] p).
  assert (c1 =
          set_trace (trace c ++ [Econsole_error; Esocket_close])
            (set_socket (Some (closing (ThenOnError e) sk))
               (set_currentCommand (VObject record)
                  (set_clientQueue []
                     (set_canSend false
                        (set_idleTimer false
                           (set_clientQueue [VObject record]
                              (set_promises (promises c ++ [Pending])
                                 (set_tagCounter (increment (_tagCounter c))
                                    c))))))))) as Hc1.
  { subst c1. unfold step. cbn [react].
    unfold enqueueCommand, draw_tag, new_promise.
    cbn [typeof String.eqb Ascii.eqb Bool.eqb]. msimpl. fsimpl.
    cbn [set is_proto String.eqb Ascii.eqb Bool.eqb]. msimpl. fsimpl.
    change (normalize_accept VUndefined) with (@nil string).
    unfold apply_options. cbn [default from_option].
    rewrite map_to_list_empty. cbn [fold_left add_buckets].
    fold tag. fold p. fold request. fold record.
    match goal with
    | |- final (bind (try_catch ?m ?h) ?k ?s) = ?s' =>
        assert (try_catch m h s = Done tt s') as Htry
    end.
    { unfold try_catch. msimpl. fsimpl. rewrite Hcan, Hq. cbn [when app].
      erewrite (_sendRequest_refused _ record request [] e sk);
        [reflexivity|reflexivity|reflexivity|exact Hcompile|exact H1
        |exact H2|exact Hs|exact Hr|exact Hcmp]. }
    by rewrite (run_Done _ _ _ _ _ Htry). }
  split; [by rewrite Hc1|]. split; [by rewrite Hc1|].
  split; [by rewrite Hc1|].
  assert (socket c1 = Some (closing (ThenOnError e) sk)) as Hs1
    by (by rewrite Hc1).
  subst c2. unfold step. rewrite (closing_socket_closes _ _ _ _ _ Hs1).
  cbn [run_then]. unfold try_catch.
  match goal with
  | |- context [deliver_error e ?c0] =>
      destruct (deliver_error_delivers e c0 H1 H2) as [e' ->]
  end.
  cbn [final]. fsimpl. rewrite Hc1. fsimpl.
  split; [done|]. split; [by exists e'|]. done.
Qed.

End Refused.

(** *** The theorems at work *)

(** A compiler that gives LOGIN with the user name as a literal. *)
Definition login_compiler (request : val) (asArray isLogging : bool)
  : res (list string) :=
  Ret ["W1 LOGIN {5}"; "alice"; " secret"].

Definition login_first : client :=
  set_clientQueue [VObject {[ "request" := VString "LOGIN" ]}] connected.

Lemma chunks_go_out_in_order_witness :
  _clientQueue login_first = [VObject {[ "request" := VString "LOGIN" ]}] ∧
  ({[ "request" := VString "LOGIN" ]} : gmap string val) !! "request" =
    Some (VString "LOGIN") ∧
  login_compiler (VString "LOGIN") true false =
    Ret ["W1 LOGIN {5}"; "alice"; " secret"] ∧
  login_compiler (VString "LOGIN") false true =
    Ret ["W1 LOGIN {5}"; "alice"; " secret"] ∧
  socket login_first = Some open_socket ∧
  ∃ c', (_sendRequest login_compiler >> continuations 2) login_first
          = Done tt c' ∧
        trace c' =
          trace login_first ++
          [Esend false "W1 LOGIN {5}"; Esend false "alice";
           Esend false (" secret" +:+ CRLF)].
Proof.
  assert (socket login_first = Some open_socket) as Hs
    by (vm_compute; reflexivity).
  split; [reflexivity|]. split; [reflexivity|]. split; [reflexivity|].
  split; [reflexivity|]. split; [exact Hs|].
  destruct (chunks_go_out_in_order login_compiler login_first
              {[ "request" := VString "LOGIN" ]} (VString "LOGIN") []
              "W1 LOGIN {5}" ["alice"; " secret"]
              ["W1 LOGIN {5}"; "alice"; " secret"] open_socket
              eq_refl eq_refl eq_refl eq_refl Hs)
    as (c' & Hrun & Ht & _).
  exists c'. split; [exact Hrun|]. rewrite Ht. reflexivity.
Defined.

Lemma enqueue_without_request_witness :
  let c := ImapClient VUndefined VUndefined None in
  no_request VUndefined = true ∧
  plain_names (VString "exists") = true ∧
  enqueueCommand toy_compiler VUndefined (VString "exists") None c =
  Raise TypeError (set_tagCounter 1 c).
Proof.
  intros c. split; [reflexivity|]. split; [reflexivity|].
  exact (enqueue_without_request toy_compiler c VUndefined (VString "exists")
           None eq_refl eq_refl).
Defined.


Definition refusal : val := new_Error (VString "Unknown command").

Definition ready : client := session greeted.

Lemma ready_socket : socket ready = Some open_socket.
Proof. vm_compute. reflexivity. Qed.

Lemma refused_command_stays_pending_witness :
  _clientQueue ready = [] ∧ _canSend ready = true ∧
  socket ready = Some open_socket ∧ readyState open_socket = Open ∧
  compressed ready = false ∧
  toy_compiler (VObject (<["tag" := VString (next_tag ready)]> ∅)) true false
    = Thr refusal ∧
  refusal ≠ VUndefined ∧ refusal ≠ VNull ∧
  promises (step toy_parser toy_compiler
              (step toy_parser toy_compiler ready
                 (Call_enqueueCommand (VObject ∅) VUndefined None))
              Socket_close) =
  promises ready ++ [Pending].
Proof.
  assert (_clientQueue ready = []) as H1 by (vm_compute; reflexivity).
  assert (_canSend ready = true) as H2 by (vm_compute; reflexivity).
  assert (compressed ready = false) as H5 by (vm_compute; reflexivity).
  assert (toy_compiler (VObject (<["tag" := VString (next_tag ready)]> ∅))
            true false = Thr refusal) as H6 by (vm_compute; reflexivity).
  assert (refusal ≠ VUndefined) as H7 by discriminate.
  assert (refusal ≠ VNull) as H8 by discriminate.
  split; [exact H1|]. split; [exact H2|]. split; [exact ready_socket|].
  split; [reflexivity|]. split; [exact H5|]. split; [exact H6|].
  split; [exact H7|]. split; [exact H8|].
  destruct (refused_command_stays_pending toy_parser toy_compiler ready ∅
              refusal open_socket H1 H2 ready_socket eq_refl H5 H6 H7 H8)
    as (_ & _ & _ & H & _).
  exact H.
Defined.

End Sending.
(* ===================================================================== *)
(** ** What every event keeps *)
(* ===================================================================== *)

Module Turns.
Import JS Client Properties Notions Scenarios ClientFacts Invariants
  Dispatching.
#[local] Open Scope client_scope.

Lemma ha_weaken {A} (I J : client → Prop) (m : M A) c :
  (∀ c', I c' → J c') → holds_after I m c → holds_after J m c.
Proof. intros HIJ. unfold holds_after. apply HIJ. Qed.

Lemma ha_bind_any {A B} (I : client → Prop) (m : M A) (k : A → M B) c :
  (∀ c', holds_after I m c') → (∀ a c', I c' → holds_after I (k a) c') →
  holds_after I (bind m k) c.
Proof.
  intros Hm Hk. specialize (Hm c). unfold holds_after, bind in *.
  destruct (m c); [by apply Hk|done].
Qed.

Lemma ha_bind_from {A B} (I P : client → Prop) (m : M A) (k : A → M B) c :
  (∀ c', P c' → holds_after I m c') → P c →
  (∀ a c', I c' → holds_after I (k a) c') →
  holds_after I (bind m k) c.
Proof.
  intros Hm Hc Hk. specialize (Hm c Hc). unfold holds_after, bind in *.
  destruct (m c); [by apply Hk|done].
Qed.

(** *** The error path schedules nothing *)

Create HintDb samedb discriminated.

Ltac split_ands :=
  repeat match goal with
         | H : _ ∧ _ |- _ => destruct H
         end.

Ltac same_leaf :=
  unfold same_turn in *; fsimpl; split_ands;
  first [ assumption | repeat split; solve [ assumption | congruence ] ].

Ltac same_auto :=
  ha ltac:(same_leaf) ltac:(solve [ eauto with samedb ]).

Section SameTurn.

Variable t : nat.
Variable b : bool.

Lemma settle_same p s : inv (same_turn t b) (settle p s).
Proof.
  intros c H. unfold settle. apply ha_write.
  by destruct (promises c !! p) as [[]|].
Qed.
Hint Resolve settle_same : samedb.

Lemma set_readyState_same rs : inv (same_turn t b) (set_readyState rs).
Proof.
  intros c H. unfold set_readyState. apply ha_write. by destruct (socket c).
Qed.
Hint Resolve set_readyState_same : samedb.

Lemma send_same str : inv (same_turn t b) (send str).
Proof. unfold send; same_auto. Qed.
Hint Resolve send_same : samedb.

Lemma resolve_same p v : inv (same_turn t b) (resolve p v).
Proof. apply settle_same. Qed.
Hint Resolve resolve_same : samedb.

Lemma reject_same p v : inv (same_turn t b) (reject p v).
Proof. apply settle_same. Qed.
Hint Resolve reject_same : samedb.

Lemma new_promise_same : inv (same_turn t b) (new_promise).
Proof. unfold new_promise; same_auto. Qed.
Hint Resolve new_promise_same : samedb.

Lemma _enterIdle_same : inv (same_turn t b) (_enterIdle).
Proof. unfold _enterIdle; same_auto. Qed.
Hint Resolve _enterIdle_same : samedb.

Lemma _clearIdle_same : inv (same_turn t b) (_clearIdle).
Proof. unfold _clearIdle; same_auto. Qed.
Hint Resolve _clearIdle_same : samedb.

Lemma setHandler_same command callback :
  inv (same_turn t b) (setHandler command callback).
Proof. unfold setHandler; same_auto. Qed.
Hint Resolve setHandler_same : samedb.

Lemma _disableCompression_same : inv (same_turn t b) (_disableCompression).
Proof. unfold _disableCompression; same_auto. Qed.
Hint Resolve _disableCompression_same : samedb.

Lemma deliver_error_same evt : inv (same_turn t b) (deliver_error evt).
Proof. unfold deliver_error; same_auto. Qed.
Hint Resolve deliver_error_same : samedb.

Lemma run_then_same k : inv (same_turn t b) (run_then k).
Proof. destruct k; unfold run_then; same_auto. Qed.
Hint Resolve run_then_same : samedb.

Lemma tearDown_same k : inv (same_turn t b) (tearDown k).
Proof. unfold tearDown; same_auto. Qed.
Hint Resolve tearDown_same : samedb.

Lemma close_executor_same k : inv (same_turn t b) (close_executor k).
Proof. unfold close_executor; same_auto. Qed.
Hint Resolve close_executor_same : samedb.

Lemma close_same : inv (same_turn t b) (close).
Proof. unfold close; same_auto. Qed.
Hint Resolve close_same : samedb.

Lemma _onError_same evt : inv (same_turn t b) (_onError evt).
Proof. unfold _onError; same_auto. Qed.
Hint Resolve _onError_same : samedb.

End SameTurn.

(** *** No command waits while the client may send *)

Create HintDb waitsdb discriminated.

Ltac waits_leaf :=
  unfold never_waits in *; fsimpl in *;
  first
    [ assumption
    | left; solve [ reflexivity | assumption ]
    | right; solve [ reflexivity | assumption ] ].

Ltac waits_plain :=
  ha ltac:(waits_leaf) ltac:(solve [ eauto with waitsdb ]).

Section NeverWaits.

Variable parser : string → res val.
Variable compiler : val → bool → bool → res (list string).

Lemma settle_waits p s : inv (never_waits) (settle p s).
Proof.
  intros c H. unfold settle. apply ha_write.
  by destruct (promises c !! p) as [[]|].
Qed.
Hint Resolve settle_waits : waitsdb.

Lemma set_readyState_waits rs : inv (never_waits) (set_readyState rs).
Proof.
  intros c H. unfold set_readyState. apply ha_write. by destruct (socket c).
Qed.
Hint Resolve set_readyState_waits : waitsdb.

Lemma send_waits str : inv (never_waits) (send str).
Proof. unfold send; waits_plain. Qed.
Hint Resolve send_waits : waitsdb.

Lemma resolve_waits p v : inv (never_waits) (resolve p v).
Proof. apply settle_waits. Qed.
Hint Resolve resolve_waits : waitsdb.

Lemma reject_waits p v : inv (never_waits) (reject p v).
Proof. apply settle_waits. Qed.
Hint Resolve reject_waits : waitsdb.

Lemma new_promise_waits : inv (never_waits) (new_promise).
Proof. unfold new_promise; waits_plain. Qed.
Hint Resolve new_promise_waits : waitsdb.

Lemma _enterIdle_waits : inv (never_waits) (_enterIdle).
Proof. unfold _enterIdle; waits_plain. Qed.
Hint Resolve _enterIdle_waits : waitsdb.

Lemma _clearIdle_waits : inv (never_waits) (_clearIdle).
Proof. unfold _clearIdle; waits_plain. Qed.
Hint Resolve _clearIdle_waits : waitsdb.

Lemma schedule_waits : inv (never_waits) (schedule).
Proof. unfold schedule; waits_plain. Qed.
Hint Resolve schedule_waits : waitsdb.

Lemma setHandler_waits command callback :
  inv (never_waits) (setHandler command callback).
Proof. unfold setHandler; waits_plain. Qed.
Hint Resolve setHandler_waits : waitsdb.

Lemma _disableCompression_waits : inv (never_waits) (_disableCompression).
Proof. unfold _disableCompression; waits_plain. Qed.
Hint Resolve _disableCompression_waits : waitsdb.

Lemma deliver_error_waits evt : inv (never_waits) (deliver_error evt).
Proof. unfold deliver_error; waits_plain. Qed.
Hint Resolve deliver_error_waits : waitsdb.

Lemma run_then_waits k : inv (never_waits) (run_then k).
Proof. destruct k; unfold run_then; waits_plain. Qed.
Hint Resolve run_then_waits : waitsdb.

Lemma tearDown_waits k : inv (never_waits) (tearDown k).
Proof. unfold tearDown; waits_plain. Qed.
Hint Resolve tearDown_waits : waitsdb.

Lemma close_executor_waits k : inv (never_waits) (close_executor k).
Proof. unfold close_executor; waits_plain. Qed.
Hint Resolve close_executor_waits : waitsdb.

Lemma close_waits : inv (never_waits) (close).
Proof. unfold close; waits_plain. Qed.
Hint Resolve close_waits : waitsdb.

Lemma _onError_waits evt : inv (never_waits) (_onError evt).
Proof. unfold _onError; waits_plain. Qed.
Hint Resolve _onError_waits : waitsdb.

Lemma completion_waits p response : inv (never_waits) (completion p response).
Proof. unfold completion; waits_plain. Qed.
Hint Resolve completion_waits : waitsdb.

Lemma call_function_waits f args : inv (never_waits) (call_function f args).
Proof. unfold call_function; waits_plain. Qed.
Hint Resolve call_function_waits : waitsdb.

(** Whatever the client was like, [_sendRequest] leaves it with an empty
    queue or unable to send. *)
Lemma _sendRequest_settles c :
  holds_after never_waits (_sendRequest compiler) c.
Proof.
  unfold _sendRequest. apply ha_bind_read.
  destruct (_clientQueue c) as [|cmd rest] eqn:Hq.
  - apply ha_write. unfold never_waits. fsimpl. by right.
  - unfold _clearIdle. do 2 apply ha_bind_write. waits_plain.
Qed.

Ltac waits_step :=
  lazymatch goal with
  | |- holds_after _ (bind (_sendRequest _) _) _ =>
      eapply ha_bind_any; [apply _sendRequest_settles | intros ? ? ?]
  | |- holds_after _ (_sendRequest _) _ => apply _sendRequest_settles
  | |- _ =>
      ha_step ltac:(waits_leaf) ltac:(solve [ eauto with waitsdb ])
  end.

Ltac waits_auto := repeat (cbv zeta; waits_step).

Lemma _sendRequest_waits : inv never_waits (_sendRequest compiler).
Proof. intros c _. apply _sendRequest_settles. Qed.

Hint Resolve _sendRequest_waits : waitsdb.

Lemma _processServerResponse_waits response :
  inv (never_waits) (_processServerResponse response).
Proof. unfold _processServerResponse; waits_auto. Qed.
Hint Resolve _processServerResponse_waits : waitsdb.

Lemma after_response_waits response :
  inv (never_waits) (after_response compiler response).
Proof. unfold after_response; waits_auto. Qed.
Hint Resolve after_response_waits : waitsdb.

Lemma continuation_waits : inv (never_waits) (continuation).
Proof. unfold continuation; waits_auto. Qed.
Hint Resolve continuation_waits : waitsdb.

Lemma _processServerQueue_waits :
  inv (never_waits) (_processServerQueue parser compiler).
Proof. unfold _processServerQueue; waits_auto. Qed.
Hint Resolve _processServerQueue_waits : waitsdb.

Lemma _addToServerQueue_waits cmd :
  inv (never_waits) (_addToServerQueue parser compiler cmd).
Proof. unfold _addToServerQueue; waits_auto. Qed.
Hint Resolve _addToServerQueue_waits : waitsdb.

Lemma onData_loop_waits fuel :
  inv (never_waits) (onData_loop parser compiler fuel).
Proof. induction fuel as [|fuel IH]; simpl; waits_auto. Qed.
Hint Resolve onData_loop_waits : waitsdb.

Lemma _onData_waits chunk : inv (never_waits) (_onData parser compiler chunk).
Proof. unfold _onData; waits_auto. Qed.
Hint Resolve _onData_waits : waitsdb.

Lemma connect_waits : inv (never_waits) (connect).
Proof. unfold connect; waits_auto. Qed.
Hint Resolve connect_waits : waitsdb.

Lemma upgrade_waits : inv (never_waits) (upgrade).
Proof. unfold upgrade; waits_auto. Qed.
Hint Resolve upgrade_waits : waitsdb.

Lemma enableCompression_waits : inv (never_waits) (enableCompression).
Proof. unfold enableCompression; waits_auto. Qed.
Hint Resolve enableCompression_waits : waitsdb.

Lemma run_handler_waits h evt chunk :
  inv (never_waits) (run_handler parser compiler h evt chunk).
Proof. destruct h; unfold run_handler; waits_auto. Qed.
Hint Resolve run_handler_waits : waitsdb.

Lemma socket_handler_waits f : inv (never_waits) (socket_handler f).
Proof. unfold socket_handler; waits_auto. Qed.
Hint Resolve socket_handler_waits : waitsdb.

Lemma enqueueCommand_waits request acceptUntagged options :
  inv (never_waits) (enqueueCommand compiler request acceptUntagged options).
Proof. unfold enqueueCommand, draw_tag; waits_auto. Qed.
Hint Resolve enqueueCommand_waits : waitsdb.

Lemma logout_waits : inv (never_waits) (logout compiler).
Proof. unfold logout; waits_auto. Qed.
Hint Resolve logout_waits : waitsdb.

Lemma react_waits e : inv (never_waits) (react parser compiler e).
Proof. destruct e; cbn [react]; waits_auto. Qed.
Hint Resolve react_waits : waitsdb.

Lemma run_waits events c :
  never_waits c → never_waits (run parser compiler events c).
Proof.
  revert c. induction events as [|e events IH]; intros c H; [done|].
  apply IH. by apply (react_waits e c H).
Qed.

End NeverWaits.

(** *** [onready] is called once *)

Create HintDb oncedb discriminated.

Ltac once_leaf :=
  unfold ready_once, onready_calls in *; fsimpl;
  repeat match goal with
         | H : negb ?b = _ |- _ => destruct b; simpl in H; try discriminate
         end;
  rewrite ?List.filter_app, ?length_app;
  cbn [List.filter is_onready length Nat.b2n] in *;
  first [ assumption | lia ].

Ltac once_auto :=
  ha ltac:(once_leaf) ltac:(solve [ eauto with oncedb ]).

Section ReadyOnce.

Variable parser : string → res val.
Variable compiler : val → bool → bool → res (list string).

Lemma settle_once p s : inv (ready_once) (settle p s).
Proof.
  intros c H. unfold settle. apply ha_write.
  by destruct (promises c !! p) as [[]|].
Qed.
Hint Resolve settle_once : oncedb.

Lemma set_readyState_once rs : inv (ready_once) (set_readyState rs).
Proof.
  intros c H. unfold set_readyState. apply ha_write. by destruct (socket c).
Qed.
Hint Resolve set_readyState_once : oncedb.

Lemma send_once str : inv (ready_once) (send str).
Proof. unfold send; once_auto. Qed.
Hint Resolve send_once : oncedb.

Lemma resolve_once p v : inv (ready_once) (resolve p v).
Proof. apply settle_once. Qed.
Hint Resolve resolve_once : oncedb.

Lemma reject_once p v : inv (ready_once) (reject p v).
Proof. apply settle_once. Qed.
Hint Resolve reject_once : oncedb.

Lemma new_promise_once : inv (ready_once) (new_promise).
Proof. unfold new_promise; once_auto. Qed.
Hint Resolve new_promise_once : oncedb.

Lemma _enterIdle_once : inv (ready_once) (_enterIdle).
Proof. unfold _enterIdle; once_auto. Qed.
Hint Resolve _enterIdle_once : oncedb.

Lemma _clearIdle_once : inv (ready_once) (_clearIdle).
Proof. unfold _clearIdle; once_auto. Qed.
Hint Resolve _clearIdle_once : oncedb.

Lemma schedule_once : inv (ready_once) (schedule).
Proof. unfold schedule; once_auto. Qed.
Hint Resolve schedule_once : oncedb.

Lemma setHandler_once command callback :
  inv (ready_once) (setHandler command callback).
Proof. unfold setHandler; once_auto. Qed.
Hint Resolve setHandler_once : oncedb.

Lemma _disableCompression_once : inv (ready_once) (_disableCompression).
Proof. unfold _disableCompression; once_auto. Qed.
Hint Resolve _disableCompression_once : oncedb.

Lemma deliver_error_once evt : inv (ready_once) (deliver_error evt).
Proof. unfold deliver_error; once_auto. Qed.
Hint Resolve deliver_error_once : oncedb.

Lemma run_then_once k : inv (ready_once) (run_then k).
Proof. destruct k; unfold run_then; once_auto. Qed.
Hint Resolve run_then_once : oncedb.

Lemma tearDown_once k : inv (ready_once) (tearDown k).
Proof. unfold tearDown; once_auto. Qed.
Hint Resolve tearDown_once : oncedb.

Lemma close_executor_once k : inv (ready_once) (close_executor k).
Proof. unfold close_executor; once_auto. Qed.
Hint Resolve close_executor_once : oncedb.

Lemma close_once : inv (ready_once) (close).
Proof. unfold close; once_auto. Qed.
Hint Resolve close_once : oncedb.

Lemma _onError_once evt : inv (ready_once) (_onError evt).
Proof. unfold _onError; once_auto. Qed.
Hint Resolve _onError_once : oncedb.

Lemma completion_once p response : inv (ready_once) (completion p response).
Proof. unfold completion; once_auto. Qed.
Hint Resolve completion_once : oncedb.

Lemma call_function_once f args : inv (ready_once) (call_function f args).
Proof. unfold call_function; once_auto. Qed.
Hint Resolve call_function_once : oncedb.

Lemma _sendRequest_once : inv (ready_once) (_sendRequest compiler).
Proof. unfold _sendRequest; once_auto. Qed.
Hint Resolve _sendRequest_once : oncedb.

Lemma _processServerResponse_once response :
  inv (ready_once) (_processServerResponse response).
Proof. unfold _processServerResponse; once_auto. Qed.
Hint Resolve _processServerResponse_once : oncedb.

Lemma after_response_once response :
  inv (ready_once) (after_response compiler response).
Proof. unfold after_response; once_auto. Qed.
Hint Resolve after_response_once : oncedb.

Lemma continuation_once : inv (ready_once) (continuation).
Proof. unfold continuation; once_auto. Qed.
Hint Resolve continuation_once : oncedb.

Lemma _processServerQueue_once :
  inv (ready_once) (_processServerQueue parser compiler).
Proof. unfold _processServerQueue; once_auto. Qed.
Hint Resolve _processServerQueue_once : oncedb.

Lemma _addToServerQueue_once cmd :
  inv (ready_once) (_addToServerQueue parser compiler cmd).
Proof. unfold _addToServerQueue; once_auto. Qed.
Hint Resolve _addToServerQueue_once : oncedb.

Lemma onData_loop_once fuel :
  inv (ready_once) (onData_loop parser compiler fuel).
Proof. induction fuel as [|fuel IH]; simpl; once_auto. Qed.
Hint Resolve onData_loop_once : oncedb.

Lemma _onData_once chunk : inv (ready_once) (_onData parser compiler chunk).
Proof. unfold _onData; once_auto. Qed.
Hint Resolve _onData_once : oncedb.

Lemma connect_once : inv (ready_once) (connect).
Proof. unfold connect; once_auto. Qed.
Hint Resolve connect_once : oncedb.

Lemma upgrade_once : inv (ready_once) (upgrade).
Proof. unfold upgrade; once_auto. Qed.
Hint Resolve upgrade_once : oncedb.

Lemma enableCompression_once : inv (ready_once) (enableCompression).
Proof. unfold enableCompression; once_auto. Qed.
Hint Resolve enableCompression_once : oncedb.

Lemma run_handler_once h evt chunk :
  inv (ready_once) (run_handler parser compiler h evt chunk).
Proof. destruct h; unfold run_handler; once_auto. Qed.
Hint Resolve run_handler_once : oncedb.

Lemma socket_handler_once f : inv (ready_once) (socket_handler f).
Proof. unfold socket_handler; once_auto. Qed.
Hint Resolve socket_handler_once : oncedb.

Lemma enqueueCommand_once request acceptUntagged options :
  inv (ready_once) (enqueueCommand compiler request acceptUntagged options).
Proof. unfold enqueueCommand, draw_tag; once_auto. Qed.
Hint Resolve enqueueCommand_once : oncedb.

Lemma logout_once : inv (ready_once) (logout compiler).
Proof. unfold logout; once_auto. Qed.
Hint Resolve logout_once : oncedb.

Lemma react_once e : inv (ready_once) (react parser compiler e).
Proof. destruct e; cbn [react]; once_auto. Qed.
Hint Resolve react_once : oncedb.

Lemma run_once events c :
  ready_once c → ready_once (run parser compiler events c).
Proof.
  revert c. induction events as [|e events IH]; intros c H; [done|].
  apply IH. by apply (react_once e c H).
Qed.

End ReadyOnce.

(** *** The idle timer *)

Create HintDb idledb discriminated.

Ltac idle_leaf :=
  unfold idle_when_free in *; fsimpl in *;
  first
    [ assumption
    | intros; discriminate
    | let Hi := fresh in
      intros Hi;
      match goal with
      | H : _ = true → _ ∧ _ |- _ => destruct (H Hi) as [? ?]
      end;
      first
        [ congruence
        | split; first [ assumption | reflexivity | congruence ] ] ].

Ltac idle_plain :=
  ha ltac:(idle_leaf) ltac:(solve [ eauto with idledb ]).

Section IdleWhenFree.

Variable parser : string → res val.
Variable compiler : val → bool → bool → res (list string).

Lemma settle_armed p s : inv (idle_when_free) (settle p s).
Proof.
  intros c H. unfold settle. apply ha_write.
  by destruct (promises c !! p) as [[]|].
Qed.
Hint Resolve settle_armed : idledb.

Lemma set_readyState_armed rs : inv (idle_when_free) (set_readyState rs).
Proof.
  intros c H. unfold set_readyState. apply ha_write. by destruct (socket c).
Qed.
Hint Resolve set_readyState_armed : idledb.

Lemma send_armed str : inv (idle_when_free) (send str).
Proof. unfold send; idle_plain. Qed.
Hint Resolve send_armed : idledb.

Lemma resolve_armed p v : inv (idle_when_free) (resolve p v).
Proof. apply settle_armed. Qed.
Hint Resolve resolve_armed : idledb.

Lemma reject_armed p v : inv (idle_when_free) (reject p v).
Proof. apply settle_armed. Qed.
Hint Resolve reject_armed : idledb.

Lemma new_promise_armed : inv (idle_when_free) (new_promise).
Proof. unfold new_promise; idle_plain. Qed.
Hint Resolve new_promise_armed : idledb.

Lemma _clearIdle_armed : inv (idle_when_free) (_clearIdle).
Proof. unfold _clearIdle; idle_plain. Qed.
Hint Resolve _clearIdle_armed : idledb.

Lemma schedule_armed : inv (idle_when_free) (schedule).
Proof. unfold schedule; idle_plain. Qed.
Hint Resolve schedule_armed : idledb.

Lemma setHandler_armed command callback :
  inv (idle_when_free) (setHandler command callback).
Proof. unfold setHandler; idle_plain. Qed.
Hint Resolve setHandler_armed : idledb.

Lemma _disableCompression_armed : inv (idle_when_free) (_disableCompression).
Proof. unfold _disableCompression; idle_plain. Qed.
Hint Resolve _disableCompression_armed : idledb.

Lemma deliver_error_armed evt : inv (idle_when_free) (deliver_error evt).
Proof. unfold deliver_error; idle_plain. Qed.
Hint Resolve deliver_error_armed : idledb.

Lemma run_then_armed k : inv (idle_when_free) (run_then k).
Proof. destruct k; unfold run_then; idle_plain. Qed.
Hint Resolve run_then_armed : idledb.

Lemma tearDown_armed k : inv (idle_when_free) (tearDown k).
Proof. unfold tearDown; idle_plain. Qed.
Hint Resolve tearDown_armed : idledb.

Lemma close_executor_armed k : inv (idle_when_free) (close_executor k).
Proof. unfold close_executor; idle_plain. Qed.
Hint Resolve close_executor_armed : idledb.

Lemma close_armed : inv (idle_when_free) (close).
Proof. unfold close; idle_plain. Qed.
Hint Resolve close_armed : idledb.

Lemma _onError_armed evt : inv (idle_when_free) (_onError evt).
Proof. unfold _onError; idle_plain. Qed.
Hint Resolve _onError_armed : idledb.

Lemma completion_armed p response :
  inv (idle_when_free) (completion p response).
Proof. unfold completion; idle_plain. Qed.
Hint Resolve completion_armed : idledb.

Lemma call_function_armed f args :
  inv (idle_when_free) (call_function f args).
Proof. unfold call_function; idle_plain. Qed.
Hint Resolve call_function_armed : idledb.

(** Called by a client that may send, [_sendRequest] arms the idle timer
    only when nothing is queued. *)
Lemma _sendRequest_frees c :
  _canSend c = true → holds_after idle_when_free (_sendRequest compiler) c.
Proof.
  intros Hcan. unfold _sendRequest. apply ha_bind_read.
  destruct (_clientQueue c) as [|cmd rest] eqn:Hq.
  - apply ha_write. unfold idle_when_free. fsimpl. done.
  - unfold _clearIdle. do 2 apply ha_bind_write. idle_plain.
Qed.

Ltac may_send :=
  fsimpl in *; first [ reflexivity | assumption ].

Ltac idle_step :=
  lazymatch goal with
  | |- holds_after _ (bind (_sendRequest _) _) _ =>
      eapply ha_bind_from;
        [apply _sendRequest_frees | may_send | intros ? ? ?]
  | |- holds_after _ (_sendRequest _) _ =>
      apply _sendRequest_frees; may_send
  | |- _ =>
      ha_step ltac:(idle_leaf) ltac:(solve [ eauto with idledb ])
  end.

Ltac idle_auto := repeat (cbv zeta; idle_step).


Lemma _processServerResponse_armed response :
  inv (idle_when_free) (_processServerResponse response).
Proof. unfold _processServerResponse; idle_auto. Qed.
Hint Resolve _processServerResponse_armed : idledb.

Lemma after_response_armed response :
  inv (idle_when_free) (after_response compiler response).
Proof. unfold after_response; idle_auto. Qed.
Hint Resolve after_response_armed : idledb.

Lemma continuation_armed : inv (idle_when_free) (continuation).
Proof. unfold continuation; idle_auto. Qed.
Hint Resolve continuation_armed : idledb.

Lemma _processServerQueue_armed :
  inv (idle_when_free) (_processServerQueue parser compiler).
Proof. unfold _processServerQueue; idle_auto. Qed.
Hint Resolve _processServerQueue_armed : idledb.

Lemma _addToServerQueue_armed cmd :
  inv (idle_when_free) (_addToServerQueue parser compiler cmd).
Proof. unfold _addToServerQueue; idle_auto. Qed.
Hint Resolve _addToServerQueue_armed : idledb.

Lemma onData_loop_armed fuel :
  inv (idle_when_free) (onData_loop parser compiler fuel).
Proof. induction fuel as [|fuel IH]; simpl; idle_auto. Qed.
Hint Resolve onData_loop_armed : idledb.

Lemma _onData_armed chunk :
  inv (idle_when_free) (_onData parser compiler chunk).
Proof. unfold _onData; idle_auto. Qed.
Hint Resolve _onData_armed : idledb.

Lemma connect_armed : inv (idle_when_free) (connect).
Proof. unfold connect; idle_auto. Qed.
Hint Resolve connect_armed : idledb.

Lemma upgrade_armed : inv (idle_when_free) (upgrade).
Proof. unfold upgrade; idle_auto. Qed.
Hint Resolve upgrade_armed : idledb.

Lemma enableCompression_armed : inv (idle_when_free) (enableCompression).
Proof. unfold enableCompression; idle_auto. Qed.
Hint Resolve enableCompression_armed : idledb.

Lemma run_handler_armed h evt chunk :
  inv (idle_when_free) (run_handler parser compiler h evt chunk).
Proof. destruct h; unfold run_handler; idle_auto. Qed.
Hint Resolve run_handler_armed : idledb.

Lemma socket_handler_armed f : inv (idle_when_free) (socket_handler f).
Proof. unfold socket_handler; idle_auto. Qed.
Hint Resolve socket_handler_armed : idledb.

Lemma enqueueCommand_armed request acceptUntagged options :
  inv (idle_when_free) (enqueueCommand compiler request acceptUntagged options).
Proof. unfold enqueueCommand, draw_tag; idle_auto. Qed.
Hint Resolve enqueueCommand_armed : idledb.

Lemma logout_armed : inv (idle_when_free) (logout compiler).
Proof. unfold logout; idle_auto. Qed.
Hint Resolve logout_armed : idledb.

Lemma react_armed e : inv (idle_when_free) (react parser compiler e).
Proof. destruct e; cbn [react]; idle_auto. Qed.
Hint Resolve react_armed : idledb.

Lemma run_armed events c :
  idle_when_free c → idle_when_free (run parser compiler events c).
Proof.
  revert c. induction events as [|e events IH]; intros c H; [done|].
  apply IH. by apply (react_armed e c H).
Qed.

End IdleWhenFree.

(** *** Ready for good *)

Create HintDb readydb discriminated.

Ltac ready_leaf :=
  unfold is_ready in *; fsimpl; first [ assumption | reflexivity ].

Ltac ready_auto :=
  ha ltac:(ready_leaf) ltac:(solve [ eauto with readydb ]).

Section ReadyForGood.

Variable compiler : val → bool → bool → res (list string).

Lemma settle_ready p s : inv (is_ready) (settle p s).
Proof.
  intros c H. unfold settle. apply ha_write.
  by destruct (promises c !! p) as [[]|].
Qed.
Hint Resolve settle_ready : readydb.

Lemma set_readyState_ready rs : inv (is_ready) (set_readyState rs).
Proof.
  intros c H. unfold set_readyState. apply ha_write. by destruct (socket c).
Qed.
Hint Resolve set_readyState_ready : readydb.

Lemma send_ready str : inv (is_ready) (send str).
Proof. unfold send; ready_auto. Qed.
Hint Resolve send_ready : readydb.

Lemma resolve_ready p v : inv (is_ready) (resolve p v).
Proof. apply settle_ready. Qed.
Hint Resolve resolve_ready : readydb.

Lemma reject_ready p v : inv (is_ready) (reject p v).
Proof. apply settle_ready. Qed.
Hint Resolve reject_ready : readydb.

Lemma new_promise_ready : inv (is_ready) (new_promise).
Proof. unfold new_promise; ready_auto. Qed.
Hint Resolve new_promise_ready : readydb.

Lemma _enterIdle_ready : inv (is_ready) (_enterIdle).
Proof. unfold _enterIdle; ready_auto. Qed.
Hint Resolve _enterIdle_ready : readydb.

Lemma _clearIdle_ready : inv (is_ready) (_clearIdle).
Proof. unfold _clearIdle; ready_auto. Qed.
Hint Resolve _clearIdle_ready : readydb.

Lemma schedule_ready : inv (is_ready) (schedule).
Proof. unfold schedule; ready_auto. Qed.
Hint Resolve schedule_ready : readydb.

Lemma setHandler_ready command callback :
  inv (is_ready) (setHandler command callback).
Proof. unfold setHandler; ready_auto. Qed.
Hint Resolve setHandler_ready : readydb.

Lemma _disableCompression_ready : inv (is_ready) (_disableCompression).
Proof. unfold _disableCompression; ready_auto. Qed.
Hint Resolve _disableCompression_ready : readydb.

Lemma deliver_error_ready evt : inv (is_ready) (deliver_error evt).
Proof. unfold deliver_error; ready_auto. Qed.
Hint Resolve deliver_error_ready : readydb.

Lemma run_then_ready k : inv (is_ready) (run_then k).
Proof. destruct k; unfold run_then; ready_auto. Qed.
Hint Resolve run_then_ready : readydb.

Lemma tearDown_ready k : inv (is_ready) (tearDown k).
Proof. unfold tearDown; ready_auto. Qed.
Hint Resolve tearDown_ready : readydb.

Lemma close_executor_ready k : inv (is_ready) (close_executor k).
Proof. unfold close_executor; ready_auto. Qed.
Hint Resolve close_executor_ready : readydb.

Lemma close_ready : inv (is_ready) (close).
Proof. unfold close; ready_auto. Qed.
Hint Resolve close_ready : readydb.

Lemma _onError_ready evt : inv (is_ready) (_onError evt).
Proof. unfold _onError; ready_auto. Qed.
Hint Resolve _onError_ready : readydb.

Lemma completion_ready p response : inv (is_ready) (completion p response).
Proof. unfold completion; ready_auto. Qed.
Hint Resolve completion_ready : readydb.

Lemma call_function_ready f args : inv (is_ready) (call_function f args).
Proof. unfold call_function; ready_auto. Qed.
Hint Resolve call_function_ready : readydb.

Lemma _sendRequest_ready : inv (is_ready) (_sendRequest compiler).
Proof. unfold _sendRequest; ready_auto. Qed.
Hint Resolve _sendRequest_ready : readydb.
Lemma continuation_ready : inv (is_ready) (continuation).
Proof. unfold continuation; ready_auto. Qed.
Hint Resolve continuation_ready : readydb.

End ReadyForGood.

(** *** Nothing is sent before the greeting *)

Create HintDb quietdb discriminated.

Ltac quiet_leaf :=
  unfold quiet, sent_calls in *; fsimpl in *;
  first
    [ assumption
    | intros; discriminate
    | let Hr := fresh in
      let Hcur := fresh in
      intros Hr;
      match goal with
      | H : _ = false → _ ∧ _ |- _ => destruct (H Hr) as (? & Hcur & ?)
      end;
      first
        [ repeat split;
          rewrite ?List.filter_app, ?length_app;
          cbn [List.filter is_send length];
          first [ assumption | reflexivity | congruence | lia ]
        | match goal with
          | Hq : negb (truthy (_currentCommand _)) = false |- _ =>
              rewrite Hcur in Hq; discriminate Hq
          end ] ].

Ltac quiet_plain :=
  ha ltac:(quiet_leaf) ltac:(solve [ eauto with quietdb ]).

Lemma ready_quiet c : is_ready c → quiet c.
Proof. unfold is_ready, quiet. intros ->. discriminate. Qed.

Section Quiet.

Variable parser : string → res val.
Variable compiler : val → bool → bool → res (list string).

Lemma settle_quiet p s : inv (quiet) (settle p s).
Proof.
  intros c H. unfold settle. apply ha_write.
  by destruct (promises c !! p) as [[]|].
Qed.
Hint Resolve settle_quiet : quietdb.

Lemma set_readyState_quiet rs : inv (quiet) (set_readyState rs).
Proof.
  intros c H. unfold set_readyState. apply ha_write. by destruct (socket c).
Qed.
Hint Resolve set_readyState_quiet : quietdb.

Lemma resolve_quiet p v : inv (quiet) (resolve p v).
Proof. apply settle_quiet. Qed.
Hint Resolve resolve_quiet : quietdb.

Lemma reject_quiet p v : inv (quiet) (reject p v).
Proof. apply settle_quiet. Qed.
Hint Resolve reject_quiet : quietdb.

Lemma new_promise_quiet : inv (quiet) (new_promise).
Proof. unfold new_promise; quiet_plain. Qed.
Hint Resolve new_promise_quiet : quietdb.

Lemma _enterIdle_quiet : inv (quiet) (_enterIdle).
Proof. unfold _enterIdle; quiet_plain. Qed.
Hint Resolve _enterIdle_quiet : quietdb.

Lemma _clearIdle_quiet : inv (quiet) (_clearIdle).
Proof. unfold _clearIdle; quiet_plain. Qed.
Hint Resolve _clearIdle_quiet : quietdb.

Lemma schedule_quiet : inv (quiet) (schedule).
Proof. unfold schedule; quiet_plain. Qed.
Hint Resolve schedule_quiet : quietdb.

Lemma setHandler_quiet command callback :
  inv (quiet) (setHandler command callback).
Proof. unfold setHandler; quiet_plain. Qed.
Hint Resolve setHandler_quiet : quietdb.

Lemma _disableCompression_quiet : inv (quiet) (_disableCompression).
Proof. unfold _disableCompression; quiet_plain. Qed.
Hint Resolve _disableCompression_quiet : quietdb.

Lemma deliver_error_quiet evt : inv (quiet) (deliver_error evt).
Proof. unfold deliver_error; quiet_plain. Qed.
Hint Resolve deliver_error_quiet : quietdb.

Lemma run_then_quiet k : inv (quiet) (run_then k).
Proof. destruct k; unfold run_then; quiet_plain. Qed.
Hint Resolve run_then_quiet : quietdb.

Lemma tearDown_quiet k : inv (quiet) (tearDown k).
Proof. unfold tearDown; quiet_plain. Qed.
Hint Resolve tearDown_quiet : quietdb.

Lemma close_executor_quiet k : inv (quiet) (close_executor k).
Proof. unfold close_executor; quiet_plain. Qed.
Hint Resolve close_executor_quiet : quietdb.

Lemma close_quiet : inv (quiet) (close).
Proof. unfold close; quiet_plain. Qed.
Hint Resolve close_quiet : quietdb.

Lemma _onError_quiet evt : inv (quiet) (_onError evt).
Proof. unfold _onError; quiet_plain. Qed.
Hint Resolve _onError_quiet : quietdb.

Lemma completion_quiet p response : inv (quiet) (completion p response).
Proof. unfold completion; quiet_plain. Qed.
Hint Resolve completion_quiet : quietdb.

Lemma call_function_quiet f args : inv (quiet) (call_function f args).
Proof. unfold call_function; quiet_plain. Qed.
Hint Resolve call_function_quiet : quietdb.

(** Once the connection is ready, nothing is left to keep. *)
Lemma _sendRequest_quiet c :
  _connectionReady c = true → holds_after quiet (_sendRequest compiler) c.
Proof.
  intros Hr. apply (ha_weaken is_ready); [apply ready_quiet|].
  by apply ha_inv; [apply _sendRequest_ready|].
Qed.

Ltac now_ready :=
  unfold quiet in *; fsimpl in *;
  first
    [ reflexivity
    | assumption
    | match goal with
      | Hq : negb ?b = false |- ?b = true =>
          destruct b; [reflexivity|discriminate Hq]
      end
    | match goal with
      | H : ?r = false → _ ∧ _ |- ?r = true =>
          destruct r eqn:?;
            [reflexivity|destruct (H eq_refl) as (? & _); congruence]
      end ].

Ltac quiet_step :=
  lazymatch goal with
  | |- holds_after _ (bind (_sendRequest _) _) _ =>
      eapply ha_bind_from;
        [apply _sendRequest_quiet | now_ready | intros ? ? ?]
  | |- holds_after _ (_sendRequest _) _ =>
      apply _sendRequest_quiet; now_ready
  | |- _ =>
      ha_step ltac:(quiet_leaf) ltac:(solve [ eauto with quietdb ])
  end.

Ltac quiet_auto := repeat (cbv zeta; quiet_step).
Hint Resolve _sendRequest_quiet : quietdb.

Lemma _processServerResponse_quiet response :
  inv (quiet) (_processServerResponse response).
Proof. unfold _processServerResponse; quiet_auto. Qed.
Hint Resolve _processServerResponse_quiet : quietdb.

Lemma after_response_quiet response :
  inv (quiet) (after_response compiler response).
Proof. unfold after_response; quiet_auto. Qed.
Hint Resolve after_response_quiet : quietdb.

Lemma continuation_quiet : inv quiet continuation.
Proof.
  intros c H. destruct (_connectionReady c) eqn:Hr.
  - apply (ha_weaken is_ready); [apply ready_quiet|].
    by apply ha_inv; [apply continuation_ready|].
  - destruct (H Hr) as (_ & Hcur & _).
    unfold continuation. apply ha_bind_read. rewrite Hcur. cbn [get].
    apply ha_bind_lift; [done|intros data [= <-]]. cbn [get].
    by apply ha_bind_lift.
Qed.

Hint Resolve continuation_quiet : quietdb.

Lemma _processServerQueue_quiet :
  inv (quiet) (_processServerQueue parser compiler).
Proof. unfold _processServerQueue; quiet_auto. Qed.
Hint Resolve _processServerQueue_quiet : quietdb.

Lemma _addToServerQueue_quiet cmd :
  inv (quiet) (_addToServerQueue parser compiler cmd).
Proof. unfold _addToServerQueue; quiet_auto. Qed.
Hint Resolve _addToServerQueue_quiet : quietdb.

Lemma onData_loop_quiet fuel : inv (quiet) (onData_loop parser compiler fuel).
Proof. induction fuel as [|fuel IH]; simpl; quiet_auto. Qed.
Hint Resolve onData_loop_quiet : quietdb.

Lemma _onData_quiet chunk : inv (quiet) (_onData parser compiler chunk).
Proof. unfold _onData; quiet_auto. Qed.
Hint Resolve _onData_quiet : quietdb.

Lemma connect_quiet : inv (quiet) (connect).
Proof. unfold connect; quiet_auto. Qed.
Hint Resolve connect_quiet : quietdb.

Lemma upgrade_quiet : inv (quiet) (upgrade).
Proof. unfold upgrade; quiet_auto. Qed.
Hint Resolve upgrade_quiet : quietdb.

Lemma enableCompression_quiet : inv (quiet) (enableCompression).
Proof. unfold enableCompression; quiet_auto. Qed.
Hint Resolve enableCompression_quiet : quietdb.

Lemma run_handler_quiet h evt chunk :
  inv (quiet) (run_handler parser compiler h evt chunk).
Proof. destruct h; unfold run_handler; quiet_auto. Qed.
Hint Resolve run_handler_quiet : quietdb.

Lemma socket_handler_quiet f : inv (quiet) (socket_handler f).
Proof. unfold socket_handler; quiet_auto. Qed.
Hint Resolve socket_handler_quiet : quietdb.

Lemma enqueueCommand_quiet request acceptUntagged options :
  inv (quiet) (enqueueCommand compiler request acceptUntagged options).
Proof. unfold enqueueCommand, draw_tag; quiet_auto. Qed.
Hint Resolve enqueueCommand_quiet : quietdb.

Lemma logout_quiet : inv (quiet) (logout compiler).
Proof. unfold logout; quiet_auto. Qed.
Hint Resolve logout_quiet : quietdb.

Lemma react_quiet e : inv (quiet) (react parser compiler e).
Proof. destruct e; cbn [react]; quiet_auto. Qed.
Hint Resolve react_quiet : quietdb.

Lemma run_quiet events c :
  quiet c → quiet (run parser compiler events c).
Proof.
  revert c. induction events as [|e events IH]; intros c H; [done|].
  apply IH. by apply (react_quiet e c H).
Qed.

End Quiet.

(** *** What was done stays done *)

Create HintDb growsdb discriminated.

Ltac grows_leaf :=
  unfold begins_with in *; fsimpl;
  first [ assumption | by apply prefix_app_r ].

Ltac grows_auto :=
  ha ltac:(grows_leaf) ltac:(solve [ eauto with growsdb ]).

Section Growing.

Variable tr : list effect.

Lemma settle_grows p s : inv (begins_with tr) (settle p s).
Proof.
  intros c H. unfold settle. apply ha_write.
  by destruct (promises c !! p) as [[]|].
Qed.
Hint Resolve settle_grows : growsdb.

Lemma set_readyState_grows rs : inv (begins_with tr) (set_readyState rs).
Proof.
  intros c H. unfold set_readyState. apply ha_write. by destruct (socket c).
Qed.
Hint Resolve set_readyState_grows : growsdb.

Lemma send_grows str : inv (begins_with tr) (send str).
Proof. unfold send; grows_auto. Qed.
Hint Resolve send_grows : growsdb.

Lemma resolve_grows p v : inv (begins_with tr) (resolve p v).
Proof. apply settle_grows. Qed.
Hint Resolve resolve_grows : growsdb.

Lemma reject_grows p v : inv (begins_with tr) (reject p v).
Proof. apply settle_grows. Qed.
Hint Resolve reject_grows : growsdb.

Lemma new_promise_grows : inv (begins_with tr) (new_promise).
Proof. unfold new_promise; grows_auto. Qed.
Hint Resolve new_promise_grows : growsdb.

Lemma _enterIdle_grows : inv (begins_with tr) (_enterIdle).
Proof. unfold _enterIdle; grows_auto. Qed.
Hint Resolve _enterIdle_grows : growsdb.

Lemma _clearIdle_grows : inv (begins_with tr) (_clearIdle).
Proof. unfold _clearIdle; grows_auto. Qed.
Hint Resolve _clearIdle_grows : growsdb.

Lemma schedule_grows : inv (begins_with tr) (schedule).
Proof. unfold schedule; grows_auto. Qed.
Hint Resolve schedule_grows : growsdb.

Lemma setHandler_grows command callback :
  inv (begins_with tr) (setHandler command callback).
Proof. unfold setHandler; grows_auto. Qed.
Hint Resolve setHandler_grows : growsdb.

Lemma _disableCompression_grows : inv (begins_with tr) (_disableCompression).
Proof. unfold _disableCompression; grows_auto. Qed.
Hint Resolve _disableCompression_grows : growsdb.

Lemma deliver_error_grows evt : inv (begins_with tr) (deliver_error evt).
Proof. unfold deliver_error; grows_auto. Qed.
Hint Resolve deliver_error_grows : growsdb.

Lemma run_then_grows k : inv (begins_with tr) (run_then k).
Proof. destruct k; unfold run_then; grows_auto. Qed.
Hint Resolve run_then_grows : growsdb.

Lemma tearDown_grows k : inv (begins_with tr) (tearDown k).
Proof. unfold tearDown; grows_auto. Qed.
Hint Resolve tearDown_grows : growsdb.

Lemma close_executor_grows k : inv (begins_with tr) (close_executor k).
Proof. unfold close_executor; grows_auto. Qed.
Hint Resolve close_executor_grows : growsdb.

Lemma close_grows : inv (begins_with tr) (close).
Proof. unfold close; grows_auto. Qed.
Hint Resolve close_grows : growsdb.

Lemma _onError_grows evt : inv (begins_with tr) (_onError evt).
Proof. unfold _onError; grows_auto. Qed.
Hint Resolve _onError_grows : growsdb.

End Growing.

(** *** The theorems *)

Section Events.

Variable parser : string → res val.
Variable compiler : val → bool → bool → res (list string).

(** X24. Whatever happens to a client, no command is left in the client
    queue while the client may send: either [_canSend] is off or the queue
    is empty. *)
Theorem no_command_waits_needlessly host port options events :
  never_waits (run parser compiler events (ImapClient host port options)).
Proof. apply run_waits. by left. Qed.

(** X25. Whatever happens to a client, [onready] has been called once if
    [_connectionReady] is set, and never if it is not. *)
Theorem onready_called_once host port options events :
  ready_once (run parser compiler events (ImapClient host port options)).
Proof. by apply run_once. Qed.


(** X28. [onidle] is only called while the client may send and no command
    is queued. *)
Theorem onidle_only_when_free host port options events :
  let c := run parser compiler events (ImapClient host port options) in
  trace (step parser compiler c Timer_idle) = trace c ++ [Eonidle] →
  _canSend c = true ∧ _clientQueue c = [].
Proof.
  intros c Ht.
  assert (idle_when_free c) as Hfree by (by apply run_armed).
  destruct (_idleTimer c) eqn:Hi; [by apply Hfree|].
  exfalso. revert Ht. unfold step. cbn [react]. unfold bind, read.
  rewrite Hi. cbn. intros Ht. apply (f_equal length) in Ht.
  rewrite length_app in Ht. simpl in Ht. lia.
Qed.

(** X29. Until the first response has made the connection ready, nothing
    is written to the socket and the client may not send, whatever is
    called and whatever arrives. *)
Theorem nothing_sent_before_ready host port options events :
  let c := run parser compiler events (ImapClient host port options) in
  _connectionReady c = false → sent_calls c = 0 ∧ _canSend c = false.
Proof.
  intros c Hr.
  assert (quiet c) as Hq by (by apply run_quiet).
  by destruct (Hq Hr) as (? & _ & ?).
Qed.

End Events.

(** *** The theorems at work *)

(** The client in [_addToServerQueue], a line pushed and the dispatcher
    just marked busy. *)
Definition garbled : client :=
  set_serverQueue ["* garbage"]
    (set_processingServerData true (session greeted)).


Lemma onidle_only_when_free_witness :
  let c := run toy_parser toy_compiler greeted
             (ImapClient (VString "imap.example.org") VUndefined None) in
  trace (step toy_parser toy_compiler c Timer_idle) = trace c ++ [Eonidle] ∧
  _canSend c = true ∧ _clientQueue c = [].
Proof.
  intros c.
  assert (trace (step toy_parser toy_compiler c Timer_idle) =
          trace c ++ [Eonidle]) as H by (vm_compute; reflexivity).
  split; [exact H|].
  exact (onidle_only_when_free toy_parser toy_compiler
           (VString "imap.example.org") VUndefined None greeted H).
Defined.

Lemma nothing_sent_before_ready_witness :
  let events := [Call_connect; Socket_open;
                 Call_enqueueCommand (VString "NOOP") VUndefined None;
                 Call_logout] in
  let c := run toy_parser toy_compiler events
             (ImapClient (VString "imap.example.org") VUndefined None) in
  _connectionReady c = false ∧ sent_calls c = 0 ∧ _canSend c = false.
Proof.
  intros events c.
  assert (_connectionReady c = false) as H by (vm_compute; reflexivity).
  split; [exact H|].
  exact (nothing_sent_before_ready toy_parser toy_compiler
           (VString "imap.example.org") VUndefined None events H).
Defined.

End Turns.
